(** * PoreBlazerRun: a model of the PoreBlazer output parser

    This development embeds [src/PoreBlazerRun/__init__.py] in Rocq and
    proves properties of its cleaning and parsing routines.

    Conventions of the embedding.
    - A Python [str] is a list of characters; a character is a code point
      below 256, so the classification tables of [str.strip] and
      [str.splitlines] are Python's tables restricted to that range.
    - The directory is a finite map from file names to the characters
      stored in each file: every name in it is a regular text file that
      can be opened, read, decoded and written.  [open(..., "r").read()]
      returns the stored characters after universal-newline translation;
      [open(..., "w")] stores the written text as it is (POSIX line
      separator).  Opening a name that is not in the directory raises
      [FileNotFoundError]; the other errors of the operating system
      (a directory in place of a file, missing permissions, bytes that do
      not decode) are outside the model.
    - The builtins [float] and [int] and polars' CSV reader are the
      methods of two classes, [PyBuiltins] and [PolarsReader], over which
      the parsing routines are generic; polars' full join is modelled
      from its documented behaviour. *)

From Stdlib Require Import Ascii String ZArith Lia.
From stdpp Require Import base option list strings gmap fin_maps.

Local Open Scope list_scope.

(** ** Characters and strings *)

Abbreviation str := (list ascii).

Definition chr (n : nat) : ascii := ascii_of_nat n.

Definition SP : ascii := chr 32.
Definition LF : ascii := chr 10.
Definition CR : ascii := chr 13.
Definition UNDERSCORE : ascii := chr 95.
Definition COLON : ascii := chr 58.
Definition COMMA : ascii := chr 44.

(** A string literal as a [str]. *)
Definition lit (s : string) : str := list_ascii_of_string s.

(** The characters [c] with [c.isspace()], which [str.strip()] removes. *)
Definition whitespace_chars : str :=
  chr <$> [9; 10; 11; 12; 13; 28; 29; 30; 31; 32; 133; 160].

(** The line boundaries of [str.splitlines()]. *)
Definition linebreak_chars : str :=
  chr <$> [10; 11; 12; 13; 28; 29; 30; 133].

Definition is_whitespace (c : ascii) : bool :=
  existsb (Ascii.eqb c) whitespace_chars.

Definition is_linebreak (c : ascii) : bool :=
  existsb (Ascii.eqb c) linebreak_chars.

(** ** Python's string builtins *)

(** [t.startswith(p)] *)
Fixpoint startswith (p t : str) : bool :=
  match p, t with
  | [], _ => true
  | _ :: _, [] => false
  | a :: p', b :: t' => Ascii.eqb a b && startswith p' t'
  end.

(** [sub in t] *)
Fixpoint contains (sub t : str) : bool :=
  startswith sub t
  || match t with
     | [] => false
     | _ :: t' => contains sub t'
     end.

(** [t.replace(old, new)] for a non-empty [old]: the text is scanned from
    the left; where [old] starts, [new] is emitted and the scan resumes
    after the occurrence.  [skip] counts the characters of a matched
    occurrence that are still to be passed over. *)
Fixpoint replace_from (old new : str) (skip : nat) (t : str) : str :=
  match t with
  | [] => []
  | c :: t' =>
      match skip with
      | S k => replace_from old new k t'
      | O =>
          if startswith old t
          then new ++ replace_from old new (length old - 1) t'
          else c :: replace_from old new 0 t'
      end
  end.

Definition replace (old new t : str) : str := replace_from old new 0 t.

(** [re.sub(r"( +)", r" ", t)]: every maximal run of spaces becomes one
    space.  A space that is followed by a space is dropped, so the last
    space of each run is the one that stays. *)
Fixpoint re_sub_spaces (t : str) : str :=
  match t with
  | [] => []
  | c :: t' =>
      if Ascii.eqb c SP then
        match t' with
        | c' :: _ => if Ascii.eqb c' SP then re_sub_spaces t' else SP :: re_sub_spaces t'
        | [] => [SP]
        end
      else c :: re_sub_spaces t'
  end.

(** [t.lstrip()], [t.rstrip()], [t.strip()] *)
Fixpoint lstrip (t : str) : str :=
  match t with
  | [] => []
  | c :: t' => if is_whitespace c then lstrip t' else t
  end.

Definition rstrip (t : str) : str := reverse (lstrip (reverse t)).

Definition strip (t : str) : str := rstrip (lstrip t).

(** Splitting at every character that satisfies [P]; the pieces never
    contain such a character and there is always at least one piece. *)
Fixpoint split_by (P : ascii → bool) (t : str) : list str :=
  match t with
  | [] => [[]]
  | c :: t' =>
      if P c then [] :: split_by P t'
      else match split_by P t' with
           | [] => [[c]]
           | l :: ls => (c :: l) :: ls
           end
  end.

(** [t.split(sep)] for a one-character separator. *)
Definition split (sep : ascii) (t : str) : list str := split_by (Ascii.eqb sep) t.

(** [sep.join(ls)] *)
Fixpoint join (sep : str) (ls : list str) : str :=
  match ls with
  | [] => []
  | [l] => l
  | l :: ls' => l ++ sep ++ join sep ls'
  end.

(** [t.splitlines()]: the lines of [t] without their terminators; a
    carriage return followed by a line feed is one terminator, and no
    empty line is reported after the last terminator. *)
Fixpoint splitlines (t : str) : list str :=
  match t with
  | [] => []
  | c :: t' =>
      if is_linebreak c then
        match t' with
        | c' :: t'' =>
            if Ascii.eqb c CR && Ascii.eqb c' LF
            then [] :: splitlines t''
            else [] :: splitlines t'
        | [] => [[]]
        end
      else match splitlines t' with
           | [] => [[c]]
           | l :: ls => (c :: l) :: ls
           end
  end.

(** Universal-newline translation of a text-mode read: "\r\n" and a lone
    "\r" both become "\n". *)
Fixpoint universal_newlines (raw : str) : str :=
  match raw with
  | [] => []
  | c :: raw' =>
      if Ascii.eqb c CR then
        LF :: match raw' with
              | c' :: raw'' =>
                  if Ascii.eqb c' LF then universal_newlines raw''
                  else universal_newlines raw'
              | [] => []
              end
      else c :: universal_newlines raw'
  end.

(** ** The directory, exceptions and effects *)

Inductive exn : Type :=
  | KeyError
  | IndexError
  | ValueError
  | FileNotFoundError
  | PolarsError.

(** The directory holds, for each file name, the characters stored in the
    file.  [stdout] collects what [print] wrote and [writes] the names of
    the files that were opened for writing, oldest first. *)
Record World : Type := mkWorld {
  files : gmap string str;
  stdout : list str;
  writes : list string
}.

(** A pure computation that may raise. *)
Definition Res (A : Type) : Type := exn + A.

Definition rbind {A B} (m : Res A) (k : A → Res B) : Res B :=
  match m with
  | inl e => inl e
  | inr a => k a
  end.

(** A computation on the directory that may raise; what it did before
    raising stays done. *)
Definition M (A : Type) : Type := World → World * Res A.

Definition ret {A} (a : A) : M A := λ w, (w, inr a).

Definition raise {A} (e : exn) : M A := λ w, (w, inl e).

Definition bind {A B} (m : M A) (k : A → M B) : M B :=
  λ w, match m w with
       | (w', inl e) => (w', inl e)
       | (w', inr a) => k a w'
       end.

Definition lift {A} (r : Res A) : M A := λ w, (w, r).

Declare Scope py_scope.
Delimit Scope py_scope with py.
Notation "x <- m ;; k" := (bind m (λ x, k))
  (at level 100, m at next level, right associativity) : py_scope.
Notation "x <~ m ;; k" := (rbind m (λ x, k))
  (at level 100, m at next level, right associativity) : py_scope.
Local Open Scope py_scope.

(** [path.open("r").read()] without the newline translation (what a
    reader that opens the file itself sees). *)
Definition read_raw (path : string) : M str :=
  λ w, match files w !! path with
       | Some raw => (w, inr raw)
       | None => (w, inl FileNotFoundError)
       end.

(** [with path.open("r") as f: f.read()] *)
Definition read_text (path : string) : M str :=
  raw <- read_raw path ;; ret (universal_newlines raw).

(** [with path.open("w") as f: f.write(text)] *)
Definition write_text (path : string) (text : str) : M unit :=
  λ w, (mkWorld (<[path := text]> (files w)) (stdout w) (writes w ++ [path]), inr tt).

(** [print(s)] *)
Definition print (s : str) : M unit :=
  λ w, (mkWorld (files w) (stdout w ++ [s]) (writes w), inr tt).

(** [d[k]] on the path registry *)
Definition getitem (d : gmap string string) (k : string) : M string :=
  match d !! k with
  | Some v => ret v
  | None => raise KeyError
  end.

(** [k in d] on the path registry *)
Definition mem (k : string) (d : gmap string string) : bool :=
  bool_decide (is_Some (d !! k)).

(** [l[i]] on a list *)
Definition index {A} (l : list A) (i : nat) : Res A :=
  match l !! i with
  | Some x => inr x
  | None => inl IndexError
  end.

(** [l[a:b]] and [enumerate(l)] *)
Definition slice {A} (l : list A) (a b : nat) : list A := take (b - a) (drop a l).

Definition enumerate {A} (l : list A) : list (nat * A) := imap pair l.

(** ** [__get_paths] *)

Definition possible_paths : gmap string string :=
  list_to_map
    [ ("psd_cum", "Total_psd_cumulative.txt");
      ("psd", "Total_psd.txt");
      ("summary", "summary.dat");
      ("occup_vol", "probe_occupiable_volume.xyz");
      ("na_psd_cum", "Network-accessible_psd_cumulative.txt");
      ("na_psd", "Network-accessible_psd.txt");
      ("N_net_xyz", "nitrogen_network.xyz");
      ("N_net_grd", "nitrogen_network.grd") ]%string.

Definition get_paths : M (gmap string string) :=
  λ w, (w, inr (filter (λ kv, is_Some (files w !! kv.2)) possible_paths)).

(** ** [__clean_psds] *)

(** The [while True] loop: one round per unit of fuel. *)
Fixpoint psd_loop (fuel : nat) (data : str) : option str :=
  match fuel with
  | O => None
  | S fuel' =>
      if contains [SP; SP] data
      then psd_loop fuel' (replace [SP; SP] [SP] data)
      else Some (replace [SP; LF] [LF] (replace [LF; SP] [LF] data))
  end.

(** Every round shortens the text, so its length bounds the rounds
    (lemma [psd_loop_enough]). *)
Definition clean_psds_text (data : str) : str :=
  default data (psd_loop (S (length data)) data).

Definition clean_psds (path : string) : M unit :=
  data <- read_text path ;;
  write_text path (clean_psds_text data).

(** ** [__clean_summary] *)

(** The three global replacements that precede the loop over the lines. *)
Definition summary_prepare (text : str) : str :=
  re_sub_spaces (replace [COLON] [] (replace [SP; UNDERSCORE] [UNDERSCORE] text)).

(** The body of the [for] loop: the line to append, after trimming. *)
Definition summary_line (line : str) : M str :=
  let line := strip line in
  let splitted := split SP line in
  match splitted with
  | [_] => ret line
  | [s0; s1] => ret (s0 ++ [SP] ++ s1)
  | [s0; s1; s2] => ret (s0 ++ [UNDERSCORE] ++ s1 ++ [SP] ++ s2)
  | _ => _ <- print (lit "error") ;; ret line
  end.

Fixpoint summary_loop (todo lines : list str) : M (list str) :=
  match todo with
  | [] => ret lines
  | line :: todo' =>
      line' <- summary_line line ;;
      summary_loop todo' (lines ++ [line'])
  end.

Definition clean_summary (paths : gmap string string) : M unit :=
  if negb (mem "summary" paths) then ret tt
  else
    path <- getitem paths "summary" ;;
    text <- read_text path ;;
    if contains [COMMA] text then ret tt
    else
      lines <- summary_loop (splitlines (summary_prepare text)) [] ;;
      path <- getitem paths "summary" ;;
      write_text path (join [LF] lines).

(** ** [__clean_occup_vol] *)

Definition clean_occup_vol_text (text : str) : str :=
  join [LF] (strip <$> splitlines (re_sub_spaces text)).

Definition clean_occup_vol (paths : gmap string string) : M unit :=
  if negb (mem "occup_vol" paths) then ret tt
  else
    path <- getitem paths "occup_vol" ;;
    text <- read_text path ;;
    path <- getitem paths "occup_vol" ;;
    write_text path (clean_occup_vol_text text).

(** ** [clean] *)

Definition clean (paths : gmap string string) : M unit :=
  _ <- (if mem "psd_cum" paths
        then path <- getitem paths "psd_cum" ;; clean_psds path
        else ret tt) ;;
  _ <- (if mem "psd" paths
        then path <- getitem paths "psd" ;; clean_psds path
        else ret tt) ;;
  _ <- clean_summary paths ;;
  clean_occup_vol paths.

(** ** Tables *)

(** A polars [DataFrame]: its column names and its rows. *)
Record DataFrame (R : Type) : Type := mkDataFrame {
  columns : list string;
  rows : list R
}.
Arguments mkDataFrame {R} _ _.
Arguments columns {R} _.
Arguments rows {R} _.

(** [pl.DataFrame()] *)
Definition empty_frame {R} : DataFrame R := mkDataFrame [] [].

(** polars' [skip_lines=n]: reading starts after the first [n] line feeds. *)
Fixpoint skip_lines (n : nat) (raw : str) {struct raw} : str :=
  match n, raw with
  | O, _ => raw
  | S _, [] => []
  | S n', c :: raw' => if Ascii.eqb c LF then skip_lines n' raw' else skip_lines n raw'
  end.


(** ** Notions used in the statements *)

(** The registry that [__get_paths] builds for a directory. *)
Definition registry_of (w : World) : gmap string string :=
  filter (λ kv, is_Some (files w !! kv.2)) possible_paths.

(** The registry only names files that exist. *)
Definition registry_sound (paths : gmap string string) (w : World) : Prop :=
  ∀ k p, paths !! k = Some p → is_Some (files w !! p).

(** The directory after a [print] and after a write. *)
Definition printed (w : World) (out : list str) : World :=
  mkWorld (files w) (stdout w ++ out) (writes w).

Definition written (w : World) (path : string) (text : str) : World :=
  mkWorld (<[path := text]> (files w)) (stdout w) (writes w ++ [path]).

(** What the body of the summary loop appends and what it prints. *)
Definition cleaned_line (line : str) : str :=
  let line := strip line in
  match split SP line with
  | [_] => line
  | [s0; s1] => s0 ++ [SP] ++ s1
  | [s0; s1; s2] => s0 ++ [UNDERSCORE] ++ s1 ++ [SP] ++ s2
  | _ => line
  end.

Definition line_log (line : str) : list str :=
  match split SP (strip line) with
  | [_] | [_; _] | [_; _; _] => []
  | _ => [lit "error"]
  end.

(** One line of the occupied-volume file after cleaning. *)
Definition occup_vol_line (l : str) : str := strip (re_sub_spaces l).

(** Follows the spec's words for the occupied-volume cleaning: the lines
    are what the line feeds separate, each line has its runs of spaces
    collapsed and its ends stripped, and nothing else changes. *)
Definition spec_normalise_whitespace (text : str) : str :=
  join [LF] (occup_vol_line <$> split LF text).

(** A text has no character satisfying [P]. *)
Definition free_of (P : ascii → bool) (t : str) : Prop := Forall (λ c, P c = false) t.

Definition all_whitespace (t : str) : Prop := Forall (λ c, is_whitespace c = true) t.

Definition visible (c : ascii) : Prop := is_whitespace c = false.

#[global] Instance visible_dec (c : ascii) : Decision (visible c) :=
  decide (is_whitespace c = false).

(** A text without the character [a] directly followed by [b]. *)
Fixpoint no_pair (a b : ascii) (t : str) : Prop :=
  match t with
  | [] => True
  | x :: t' => ¬ (x = a ∧ head t' = Some b) ∧ no_pair a b t'
  end.

(** Dropping the last piece when it is empty. *)
Fixpoint trim_last (ls : list str) : list str :=
  match ls with
  | [] => []
  | [l] => match l with [] => [] | _ => [l] end
  | l :: ls' => l :: trim_last ls'
  end.

(** A transformation of texts that works line by line. *)
Record line_local (f : str → str) : Prop := {
  line_local_nil : f [] = [];
  line_local_app l b r : is_linebreak b = true → f (l ++ b :: r) = f l ++ b :: f r;
  line_local_elem c t : c ∈ f t → c ∈ t
}.

(** The items [(s, x0), (s+1, x1), ...]. *)
Fixpoint enum_from {A} (s : nat) (l : list A) : list (nat * A) :=
  match l with
  | [] => []
  | x :: l' => (s, x) :: enum_from (S s) l'
  end.


(** ** Readers and directories of the examples *)

(** Unsigned decimal numerals; on these [int] gives this value and
    [float] the float of this value. *)
Definition digit_value (c : ascii) : option Z :=
  let n := nat_of_ascii c in
  if (48 <=? n) && (n <=? 57) then Some (Z.of_nat (n - 48)) else None.

Fixpoint decimal_from (acc : Z) (s : str) : option Z :=
  match s with
  | [] => Some acc
  | c :: s' =>
      match digit_value c with
      | Some d => decimal_from (10 * acc + d) s'
      | None => None
      end
  end.

Definition decimal (s : str) : option Z :=
  match s with
  | [] => None
  | _ => decimal_from 0 s
  end.

(** A reader of two columns of unsigned numerals, one row per line; a
    cell that is not a numeral is null. *)
Definition scan_int_pairs (raw : str) : option (list (option Z * option Z)) :=
  Some ((λ line, let toks := split SP line in
                 (toks !! 0 ≫= decimal, toks !! 1 ≫= decimal))
          <$> splitlines raw).

(** A reader that keeps the words of every line. *)
Definition scan_words (raw : str) : option (list (list str)) :=
  Some (split SP <$> splitlines raw).

(** The lines of a file, each ended by a line feed, and a directory with
    one file. *)
Definition text_of (lines : list string) : str :=
  mjoin ((λ l, lit l ++ [LF]) <$> lines).

Definition world_of (files : list (string * str)) : World :=
  mkWorld (list_to_map files) [] [].

(** ** The builtins and the CSV reader *)

(** Python's [float] values with the builtins [float(s)] and [int(s)] on
    strings; [None] stands for [ValueError]. *)
Class PyBuiltins : Type := {
  pyfloat : Type;
  float_of_str : str → option pyfloat;
  int_of_str : str → option Z
}.

(** polars' CSV reader with [separator=" "] and [has_header=False] on a
    two-column file and on the four-column occupied-volume file; a cell
    may be null, [None] for the whole result stands for a polars error.
    [psd_key] is the type of the values of column [d], [psd_value] of the
    other PSD column, [occup_row] of a row of the occupied-volume table. *)
Class PolarsReader : Type := {
  psd_key : Type;
  psd_value : Type;
  occup_row : Type;
  psd_key_eq_dec :: EqDecision psd_key;
  scan_two_columns : str → option (list (option psd_key * option psd_value));
  scan_occup_vol : str → option (list occup_row)
}.

(** ** The join of polars *)

Section Join.

Context {K V : Type} `{EqDecision K}.

(** Two join keys match when neither is null and they are equal. *)
Definition key_match (a b : option K) : bool :=
  match a, b with
  | Some x, Some y => bool_decide (x = y)
  | _, _ => false
  end.

(** [left.join(right, on=d, how="full", coalesce=True)] on the rows
    [(d, value)]: a left row is paired with every right row whose key
    matches, or with a null when there is none; then come the right rows
    that matched no left row, with a null in the left value.  polars
    does not promise a row order: the order of this list is one of the
    orders that polars may give, and the theorems speak of membership
    only.  Both tables have their keys in one type, [psd_key]: a join of
    two files that polars reads with different key types is outside the
    model. *)
Definition join_rows (left right : list (option K * option V))
    : list (option K * option V * option V) :=
  (left ≫= λ l,
     match filter (λ r, key_match l.1 r.1) right with
     | [] => [(l.1, l.2, None)]
     | matches => (λ r, (l.1, l.2, r.2)) <$> matches
     end)
  ++ ((λ r, (r.1, None, r.2))
        <$> filter (λ r, negb (existsb (λ l, key_match l.1 r.1) left)) right).

(** The joined frame has the columns of the left frame followed by the
    columns of the right frame other than the key. *)
Definition join_full (left right : DataFrame (option K * option V))
    : DataFrame (option K * option V * option V) :=
  mkDataFrame (columns left ++ drop 1 (columns right))
              (join_rows (rows left) (rows right)).

(** The key of a joined row. *)
Definition key_of (row : option K * option V * option V) : option K := row.1.1.

End Join.

(** ** Parsing and construction *)

Section Run.

Context {py : PyBuiltins} {pl : PolarsReader}.

Inductive number : Type :=
  | NFloat (x : pyfloat)
  | NInt (z : Z).

Definition py_float (s : str) : Res number :=
  match float_of_str s with
  | Some x => inr (NFloat x)
  | None => inl ValueError
  end.

Definition py_int (s : str) : Res number :=
  match int_of_str s with
  | Some z => inr (NInt z)
  | None => inl ValueError
  end.

(** *** [__parse_summary] *)

(** [{line.split(" ")[0]: value for i, line in items if keep}]: the key
    is evaluated before the value, later items overwrite earlier ones. *)
Fixpoint dict_comp (value : nat → str → Res number) (keep : nat → bool)
    (items : list (nat * str)) (d : gmap str number) : Res (gmap str number) :=
  match items with
  | [] => inr d
  | (i, line) :: items' =>
      if keep i then
        k <~ index (split SP line) 0 ;;
        v <~ value i line ;;
        dict_comp value keep items' (<[k := v]> d)
      else dict_comp value keep items' d
  end.

(** [float(line.split(" ")[1]) if i != 5 else int(line.split(" ")[1])] *)
Definition general_value (i : nat) (line : str) : Res number :=
  if negb (i =? 5)
  then (tok <~ index (split SP line) 1 ;; py_float tok)
  else (tok <~ index (split SP line) 1 ;; py_int tok).

(** [float(line.split(" ")[1])] *)
Definition float_value (i : nat) (line : str) : Res number :=
  tok <~ index (split SP line) 1 ;; py_float tok.

Definition summary_dict (general_params total_params network_params : gmap str number)
    : gmap str (gmap str number) :=
  <[lit "general_output" := general_params]>
    (<[lit "total_output" := total_params]>
       (<[lit "network_accessible_output" := network_params]> ∅)).

(** The part of [__parse_summary] after the file is read: the new values
    of [input_file_name] and [summary]. *)
Definition parse_summary_lines (lines : list str)
    : Res (str * gmap str (gmap str number)) :=
  name <~ index lines 0 ;;
  general_params <~
    dict_comp general_value (λ _, true) (enumerate (slice lines 1 7)) ∅ ;;
  total_params <~
    dict_comp float_value (λ i, negb (i =? 3)) (enumerate (slice lines 8 19)) ∅ ;;
  network_params <~
    dict_comp float_value (λ i, negb (i =? 3)) (enumerate (drop 20 lines)) ∅ ;;
  inr (name, summary_dict general_params total_params network_params).

Definition parse_summary (paths : gmap string string)
    : M (str * gmap str (gmap str number)) :=
  path <- getitem paths "summary" ;;
  text <- read_text path ;;
  lift (parse_summary_lines (splitlines text)).

(** *** [pl.read_csv] *)

Definition read_csv {R} (scan : str → option (list R)) (path : string)
    (skip : nat) (new_columns : list string) : M (DataFrame R) :=
  raw <- read_raw path ;;
  match scan (skip_lines skip raw) with
  | Some rs => ret (mkDataFrame new_columns rs)
  | None => raise PolarsError
  end.


(** *** [__parse_psds] *)

Definition parse_psds (paths : gmap string string)
    : M (DataFrame (option psd_key * option psd_value * option psd_value)) :=
  path <- getitem paths "psd_cum" ;;
  tab_psd_c <- read_csv scan_two_columns path 3 ["d"; "Volume Fraction"]%string ;;
  path <- getitem paths "psd" ;;
  tab_psd <- read_csv scan_two_columns path 1 ["d"; "Derivative_dist"]%string ;;
  ret (join_full tab_psd_c tab_psd).

(** *** [__parse_occup_vol] *)

Definition parse_occup_vol (paths : gmap string string) : M (DataFrame occup_row) :=
  path <- getitem paths "occup_vol" ;;
  read_csv scan_occup_vol path 2 ["Particle"; "x"; "y"; "z"]%string.

(** *** [__init__] *)

Record PoreBlazerRun : Type := mkRun {
  psd : DataFrame (option psd_key * option psd_value * option psd_value);
  occup_vol : DataFrame occup_row;
  summary : gmap str (gmap str number);
  input_file_name : str;
  existing_paths : gmap string string
}.

(** The block under [# Parsing] in [__init__]; the attributes that no
    parser assigns keep their initial values. *)
Definition parsing (paths : gmap string string) : M PoreBlazerRun :=
  tab <- (if mem "psd" paths && mem "psd_cum" paths
          then parse_psds paths
          else ret empty_frame) ;;
  parsed <- (if mem "summary" paths
             then parse_summary paths
             else ret ([], ∅)) ;;
  occ <- (if mem "occup_vol" paths
          then parse_occup_vol paths
          else ret empty_frame) ;;
  ret (mkRun tab occ parsed.2 parsed.1 paths).

Definition init (clean_flag : bool) : M PoreBlazerRun :=
  paths <- get_paths ;;
  _ <- (if clean_flag then clean paths else ret tt) ;;
  parsing paths.


(** *** What the parsing block computes, read off the directory *)

Definition parsed_psd (paths : gmap string string) (w : World)
    : Res (DataFrame (option psd_key * option psd_value * option psd_value)) :=
  match paths !! "psd"%string, paths !! "psd_cum"%string with
  | Some pd, Some pc =>
      match files w !! pc ≫= (λ raw, scan_two_columns (skip_lines 3 raw)),
            files w !! pd ≫= (λ raw, scan_two_columns (skip_lines 1 raw)) with
      | Some rc, Some rd =>
          inr (join_full (mkDataFrame ["d"; "Volume Fraction"]%string rc)
                         (mkDataFrame ["d"; "Derivative_dist"]%string rd))
      | _, _ => inl PolarsError
      end
  | _, _ => inr empty_frame
  end.

Definition parsed_summary (paths : gmap string string) (w : World)
    : Res (str * gmap str (gmap str number)) :=
  match paths !! "summary"%string with
  | Some p => parse_summary_lines (splitlines (universal_newlines (default [] (files w !! p))))
  | None => inr ([], ∅)
  end.

Definition parsed_occup_vol (paths : gmap string string) (w : World)
    : Res (DataFrame occup_row) :=
  match paths !! "occup_vol"%string with
  | Some p =>
      match files w !! p ≫= (λ raw, scan_occup_vol (skip_lines 2 raw)) with
      | Some rs => inr (mkDataFrame ["Particle"; "x"; "y"; "z"]%string rs)
      | None => inl PolarsError
      end
  | None => inr empty_frame
  end.

Definition parsed_run (paths : gmap string string) (w : World) : Res PoreBlazerRun :=
  tab <~ parsed_psd paths w ;;
  parsed <~ parsed_summary paths w ;;
  occ <~ parsed_occup_vol paths w ;;
  inr (mkRun tab occ parsed.2 parsed.1 paths).


(** *** The summary schema in the spec's words

    Follows the spec's words: the sections of the summary by the absolute
    index of their lines.  Lines 1 to 6 are [general_output], the value of
    line 6 is an integer; lines 8 to 18 are [total_output] and the lines
    from 20 on are [network_accessible_output], each without the line at
    local index 3. *)
Definition spec_second_token (parse : str → Res number) (line : str) : Res number :=
  tok <~ index (split SP line) 1 ;; parse tok.

Definition spec_general_value (i : nat) (line : str) : Res number :=
  if i =? 6
  then spec_second_token py_int line
  else spec_second_token py_float line.

Definition spec_float_value (i : nat) (line : str) : Res number :=
  spec_second_token py_float line.

Definition in_general (i : nat) : bool := (1 <=? i) && (i <=? 6).
Definition in_total (i : nat) : bool := (8 <=? i) && (i <=? 18) && negb (i - 8 =? 3).
Definition in_network (i : nat) : bool := (20 <=? i) && negb (i - 20 =? 3).

Definition spec_parse_summary (lines : list str)
    : Res (str * gmap str (gmap str number)) :=
  name <~ index lines 0 ;;
  general_output <~ dict_comp spec_general_value in_general (enumerate lines) ∅ ;;
  total_output <~ dict_comp spec_float_value in_total (enumerate lines) ∅ ;;
  network_accessible_output <~
    dict_comp spec_float_value in_network (enumerate lines) ∅ ;;
  inr (name, summary_dict general_output total_output network_accessible_output).

(** *** The content of a parsed summary, line by line

    Follows the spec's words: a line gives an entry whose name is the
    first token of the line and whose value is the second token, read
    with [int] when [as_int] is set and with [float] otherwise. *)
Definition reads_value (as_int : bool) (line k : str) (v : number) : Prop :=
  ∃ tok, split SP line !! 0 = Some k ∧ split SP line !! 1 = Some tok
    ∧ if as_int
      then ∃ z, int_of_str tok = Some z ∧ v = NInt z
      else ∃ x, float_of_str tok = Some x ∧ v = NFloat x.

(** Follows the spec's words: [g] is the mapping of the section whose
    lines are those at the indices [inc]: a name is a key of [g] exactly
    when a line of the section has it, and its value is the one that the
    last line with this name gives. *)
Definition section_of (inc : nat → Prop) (as_int : nat → bool)
    (lines : list str) (g : gmap str number) : Prop :=
  ∀ k v, g !! k = Some v ↔
    ∃ i line, lines !! i = Some line ∧ inc i ∧ reads_value (as_int i) line k v
      ∧ ∀ j l, i < j → inc j → lines !! j = Some l → split SP l !! 0 ≠ Some k.

(** The indices of the three sections. *)
Definition general_lines (i : nat) : Prop := 1 ≤ i ≤ 6.
Definition total_lines (i : nat) : Prop := 8 ≤ i ≤ 18 ∧ i ≠ 11.
Definition network_lines (i : nat) : Prop := 20 ≤ i ∧ i ≠ 23.

End Run.

(** ** The builtins, the reader and the files of the examples *)

Definition example_builtins : PyBuiltins :=
  {| pyfloat := Z; float_of_str := decimal; int_of_str := decimal |}.

Definition example_reader : PolarsReader :=
  {| psd_key := Z; psd_value := Z; occup_row := list str;
     scan_two_columns := scan_int_pairs; scan_occup_vol := scan_words |}.

Definition example_summary : str :=
  join [LF] (lit <$> ["run.cif"; "A 1"; "B 2"; "C 3"; "D 4"; "E 5"; "F 6"]%string).

Definition example_occup_vol : str :=
  text_of ["1"; "probe"; "Na  1.0 2.0   3.0 "]%string.

Definition example_psd_cum : str :=
  text_of ["cumulative"; "d V"; "-"; "1 5"; "2 8"]%string.

Definition example_psd : str :=
  text_of ["d dV"; "1 1"; "3 2"]%string.

(** ** Notions used in the statements about [clean] *)

(** What [clean] leaves in the file [name] whose content was [raw]. *)
Definition cleaned_content (name : string) (raw : str) : str :=
  let text := universal_newlines raw in
  if bool_decide (name = "Total_psd_cumulative.txt"%string) then clean_psds_text text
  else if bool_decide (name = "Total_psd.txt"%string) then clean_psds_text text
  else if bool_decide (name = "summary.dat"%string) then
    if contains [COMMA] text then raw
    else join [LF] (cleaned_line <$> splitlines (summary_prepare text))
  else if bool_decide (name = "probe_occupiable_volume.xyz"%string) then
    clean_occup_vol_text text
  else raw.

(** A key of the registry and the file it stands for, in a directory
    where the file exists exactly when the key is registered. *)
Definition registered (r : gmap string string) (k p : string) (w : World) : Prop :=
  (r !! k = Some p ∧ is_Some (files w !! p)) ∨ (r !! k = None ∧ files w !! p = None).

(** A step that returns or raises [FileNotFoundError]. *)
Definition file_error_only (m : M unit) : Prop :=
  ∀ w, ∃ w', m w = (w', inr tt) ∨ m w = (w', inl FileNotFoundError).


(** * Properties *)

(** ** Induction on the length of a text *)


Lemma list_length_ind {A} (P : list A → Prop) :
  (∀ l, (∀ l', length l' < length l → P l') → P l) → ∀ l, P l.
Proof.
  intros step l. remember (length l) as n eqn:Hn.
  revert l Hn. induction n as [n IH] using lt_wf_ind.
  intros l ->. apply step. intros l' Hl'. by apply (IH (length l')).
Qed.

(** ** Characters *)

Lemma linebreak_is_whitespace c : is_linebreak c = true → is_whitespace c = true.
Proof. destruct c as [[] [] [] [] [] [] [] []]; vm_compute; congruence. Qed.

Lemma is_linebreak_CR_or c :
  is_linebreak c = true → c ≠ CR → Ascii.eqb c CR = false.
Proof. intros _ H. by apply Ascii.eqb_neq. Qed.


(** ** [split_by] *)

Lemma split_by_not_nil P t : split_by P t ≠ [].
Proof. destruct t as [|c t]; simpl; [done|]. destruct (P c); [done|]. by destruct (split_by P t). Qed.

Lemma split_by_cons_sep P c t : P c = true → split_by P (c :: t) = [] :: split_by P t.
Proof. simpl. by intros ->. Qed.

Lemma split_by_cons_other P c t :
  P c = false →
  ∃ l ls, split_by P t = l :: ls ∧ split_by P (c :: t) = (c :: l) :: ls.
Proof.
  simpl. intros ->. destruct (split_by P t) as [|l ls] eqn:E.
  - by destruct (split_by_not_nil P t).
  - eauto.
Qed.

Lemma split_by_free P t : free_of P t → split_by P t = [t].
Proof.
  induction 1 as [|c t Hc _ IH]; [done|]. simpl. by rewrite Hc, IH.
Qed.

Lemma split_by_app P l b r :
  free_of P l → P b = true → split_by P (l ++ b :: r) = l :: split_by P r.
Proof.
  intros Hl Hb. induction Hl as [|c l Hc _ IH]; simpl.
  - by rewrite Hb.
  - by rewrite Hc, IH.
Qed.

Lemma split_by_pieces_free P t : Forall (free_of P) (split_by P t).
Proof.
  induction t as [|c t IH]; simpl.
  - repeat constructor.
  - destruct (P c) eqn:Hc.
    + constructor; [constructor|done].
    + destruct (split_by P t) as [|l ls]; [repeat constructor; done|].
      inversion IH; subst. constructor; [by constructor|done].
Qed.

(** Either a text is one piece, or it is a first piece, a separator and
    a shorter rest. *)
Lemma split_decompose P t :
  free_of P t ∨ ∃ l b r, t = l ++ b :: r ∧ free_of P l ∧ P b = true.
Proof.
  induction t as [|c t IH].
  - left. constructor.
  - destruct (P c) eqn:Hc.
    + right. exists [], c, t. repeat split; [constructor|done].
    + destruct IH as [Hf|(l & b & r & -> & Hl & Hb)].
      * left. by constructor.
      * right. exists (c :: l), b, r. repeat split; [by constructor|done].
Qed.

Lemma join_cons sep l ls : ls ≠ [] → join sep (l :: ls) = l ++ sep ++ join sep ls.
Proof. by destruct ls. Qed.

Lemma join_cons1 c l ls : ls ≠ [] → join [c] (l :: ls) = l ++ c :: join [c] ls.
Proof. by destruct ls. Qed.

Lemma join_split c t : join [c] (split c t) = t.
Proof.
  unfold split. induction t as [|a t IH]; [done|].
  destruct (Ascii.eqb c a) eqn:E.
  - rewrite split_by_cons_sep by done. rewrite join_cons by apply split_by_not_nil.
    apply Ascii.eqb_eq in E as ->. simpl. by rewrite IH.
  - destruct (split_by_cons_other (Ascii.eqb c) a t E) as (l & ls & E1 & ->).
    rewrite E1 in IH. destruct ls as [|l' ls]; simpl in *; by rewrite <- IH.
Qed.

Lemma split_by_join P c ls :
  P c = true → Forall (free_of P) ls → ls ≠ [] → split_by P (join [c] ls) = ls.
Proof.
  intros Hc Hls. induction Hls as [|l ls Hl _ IH]; [done|]. intros _.
  destruct ls as [|l' ls].
  - simpl. by apply split_by_free.
  - rewrite join_cons1 by done. rewrite split_by_app by done.
    by rewrite IH.
Qed.

(** ** [splitlines] through [split_by] *)


Lemma trim_last_cons l ls : ls ≠ [] → trim_last (l :: ls) = l :: trim_last ls.
Proof. by destruct ls. Qed.

Lemma splitlines_split_by t :
  CR ∉ t → splitlines t = trim_last (split_by is_linebreak t).
Proof.
  induction t as [|c t IH]; [done|].
  intros [Hc Ht]%not_elem_of_cons. specialize (IH Ht).
  simpl. destruct (is_linebreak c) eqn:Hlb.
  - assert (Ascii.eqb c CR = false) as -> by (apply Ascii.eqb_neq; congruence).
    rewrite trim_last_cons by apply split_by_not_nil.
    destruct t as [|c' t]; [done|]. simpl andb. cbv iota. by rewrite IH.
  - rewrite IH. destruct (split_by is_linebreak t) as [|l ls] eqn:E.
    + by destruct (split_by_not_nil is_linebreak t).
    + destruct ls as [|l' ls]; [by destruct l|]. done.
Qed.

Lemma trim_last_id ls : (∀ l, last ls = Some l → l ≠ []) → trim_last ls = ls.
Proof.
  induction ls as [|l ls IH]; [done|]. intros H.
  destruct ls as [|l' ls].
  - simpl. destruct l; [|done]. by destruct (H [] eq_refl).
  - rewrite trim_last_cons by done. f_equal. apply IH. intros x Hx. by apply H.
Qed.

Lemma trim_last_fmap (f : str → str) ls :
  (∀ l, last ls = Some l → f l = [] ↔ l = []) →
  trim_last (f <$> ls) = f <$> trim_last ls.
Proof.
  induction ls as [|l ls IH]; [done|]. intros H.
  destruct ls as [|l' ls].
  - simpl. specialize (H l eq_refl). destruct l as [|a l].
    + by rewrite (proj2 H eq_refl).
    + destruct (f (a :: l)) eqn:E.
      * discriminate (proj1 H eq_refl).
      * simpl. by rewrite E.
  - rewrite (trim_last_cons l) by done. rewrite !fmap_cons.
    rewrite trim_last_cons by done. f_equal. rewrite <- fmap_cons. apply IH.
    intros x Hx. by apply H.
Qed.

Lemma last_trim_last ls l : last ls = Some l → l ≠ [] → last (trim_last ls) = Some l.
Proof.
  intros Hl Hne. rewrite trim_last_id; [done|]. intros x. rewrite Hl. by intros [= <-].
Qed.

Lemma last_trim_last_inv ls l : last (trim_last ls) = Some l →
  (last ls = Some l) ∨ (∃ ls', ls = ls' ++ [[]] ∧ last ls' = Some l).
Proof.
  induction ls as [|x ls IH]; [done|].
  destruct ls as [|y ls].
  - simpl. destruct x; [done|]. auto.
  - rewrite trim_last_cons by done. destruct ls as [|z ls].
    + simpl. destruct y; simpl; [|auto]. intros [= <-]. right. by exists [x].
    + intros H. change (last (trim_last (y :: z :: ls)) = Some l) in H.
      destruct (IH H) as [?|(ls' & E & ?)]; [by left|].
      right. exists (x :: ls'). rewrite E. split; [done|].
      destruct ls'; [done|]. done.
Qed.


(** ** [re.sub(r"( +)", " ", t)] *)

Lemma re_sub_spaces_other c t :
  c ≠ SP → re_sub_spaces (c :: t) = c :: re_sub_spaces t.
Proof. intros H. simpl. by destruct (Ascii.eqb_spec c SP). Qed.

Lemma re_sub_spaces_sp_sp t : re_sub_spaces (SP :: SP :: t) = re_sub_spaces (SP :: t).
Proof. reflexivity. Qed.

Lemma re_sub_spaces_sp_other c t :
  c ≠ SP → re_sub_spaces (SP :: c :: t) = SP :: re_sub_spaces (c :: t).
Proof.
  intros H.
  change (re_sub_spaces (SP :: c :: t))
    with (if Ascii.eqb c SP then re_sub_spaces (c :: t) else SP :: re_sub_spaces (c :: t)).
  by destruct (Ascii.eqb_spec c SP).
Qed.

(** The three shapes of a text, as the regular expression sees them. *)
Lemma re_sub_spaces_cases (Q : str → Prop) :
  Q [] → Q [SP] →
  (∀ t, Q (SP :: t) → Q (SP :: SP :: t)) →
  (∀ c t, c ≠ SP → Q (c :: t) → Q (SP :: c :: t)) →
  (∀ c t, c ≠ SP → Q t → Q (c :: t)) →
  ∀ t, Q t.
Proof.
  intros Hnil Hsp Hss Hso Ho t. induction t as [|c t IH]; [done|].
  destruct (decide (c = SP)) as [->|Hc]; [|exact (Ho _ _ Hc IH)].
  destruct t as [|c' t]; [done|].
  destruct (decide (c' = SP)) as [->|Hc']; [exact (Hss _ IH)|exact (Hso _ _ Hc' IH)].
Qed.

Lemma re_sub_spaces_app l b r :
  b ≠ SP → re_sub_spaces (l ++ b :: r) = re_sub_spaces l ++ b :: re_sub_spaces r.
Proof.
  intros Hb. induction l as [| |l IH|c l Hc IH|c l Hc IH] using re_sub_spaces_cases.
  - cbn [app]. by rewrite re_sub_spaces_other.
  - cbn [app]. by rewrite re_sub_spaces_sp_other, re_sub_spaces_other.
  - cbn [app] in *. by rewrite !re_sub_spaces_sp_sp.
  - cbn [app] in *. rewrite !re_sub_spaces_sp_other by done. by rewrite IH.
  - cbn [app]. rewrite !re_sub_spaces_other by done. by rewrite IH.
Qed.

Lemma re_sub_spaces_elem c t : c ∈ re_sub_spaces t → c ∈ t.
Proof.
  induction t as [| |t IH|c' t Hc IH|c' t Hc IH] using re_sub_spaces_cases.
  - done.
  - done.
  - rewrite re_sub_spaces_sp_sp. intros ?%IH. rewrite elem_of_cons. by right.
  - rewrite re_sub_spaces_sp_other by done. rewrite !elem_of_cons in *. intuition.
  - rewrite re_sub_spaces_other by done. rewrite !elem_of_cons. intuition.
Qed.

Lemma re_sub_spaces_nil t : re_sub_spaces t = [] ↔ t = [].
Proof.
  split; [|by intros ->].
  induction t as [| |t IH|c' t Hc IH|c' t Hc IH] using re_sub_spaces_cases; try done.
  - rewrite re_sub_spaces_sp_sp. by intros ?%IH.
  - by rewrite re_sub_spaces_sp_other.
  - by rewrite re_sub_spaces_other.
Qed.

Lemma re_sub_spaces_head t : head (re_sub_spaces t) = head t.
Proof.
  induction t as [| |t IH|c' t Hc IH|c' t Hc IH] using re_sub_spaces_cases; try done.
  - by rewrite re_sub_spaces_sp_other.
  - by rewrite re_sub_spaces_other.
Qed.

(** ** Texts without a given pair of adjacent characters *)


Lemma contains_pair a b t : contains [a; b] t = false ↔ no_pair a b t.
Proof.
  induction t as [|x t IH]; [done|].
  simpl. rewrite orb_false_iff, IH.
  assert ((Ascii.eqb a x && match t with [] => false | b0 :: _ => Ascii.eqb b b0 && true end) = false
          ↔ ¬ (x = a ∧ head t = Some b)) as ->; [|done].
  destruct (Ascii.eqb_spec a x) as [->|Ha]; simpl.
  - destruct t as [|y t]; simpl; [intuition congruence|].
    rewrite andb_true_r. destruct (Ascii.eqb_spec b y) as [->|]; intuition congruence.
  - intuition congruence.
Qed.

Lemma no_pair_app a b x y : no_pair a b (x ++ y) → no_pair a b x ∧ no_pair a b y.
Proof.
  induction x as [|c x IH]; simpl; [done|].
  intros [H1 H2]. destruct (IH H2) as [H3 H4]. repeat split; [|done..].
  intros [-> Hh]. apply H1. split; [done|]. destruct x; [done|]. done.
Qed.

Lemma re_sub_spaces_no_pair t : no_pair SP SP (re_sub_spaces t).
Proof.
  induction t as [| |t IH|c' t Hc IH|c' t Hc IH] using re_sub_spaces_cases.
  - done.
  - simpl. intuition congruence.
  - by rewrite re_sub_spaces_sp_sp.
  - rewrite re_sub_spaces_sp_other by done. split; [|done].
    rewrite re_sub_spaces_head. simpl. intuition congruence.
  - rewrite re_sub_spaces_other by done. split; [|done]. intuition congruence.
Qed.

Lemma re_sub_spaces_id t : no_pair SP SP t → re_sub_spaces t = t.
Proof.
  induction t as [| |t IH|c' t Hc IH|c' t Hc IH] using re_sub_spaces_cases.
  - done.
  - done.
  - intros [H _]. destruct H. done.
  - intros [_ H]. rewrite re_sub_spaces_sp_other by done. by rewrite IH.
  - intros [_ H]. rewrite re_sub_spaces_other by done. by rewrite IH.
Qed.

(** ** [strip] *)


Lemma lstrip_split t : ∃ p, t = p ++ lstrip t ∧ all_whitespace p.
Proof.
  induction t as [|c t (p & E & Hp)]; [exists []; split; [done|constructor]|].
  simpl. destruct (is_whitespace c) eqn:Hc.
  - exists (c :: p). split; [cbn [app]; by f_equal|by constructor].
  - exists []. split; [done|constructor].
Qed.

Lemma lstrip_head t c : head (lstrip t) = Some c → is_whitespace c = false.
Proof.
  induction t as [|a t IH]; [done|]. simpl.
  destruct (is_whitespace a) eqn:Ha; [done|]. simpl. congruence.
Qed.

Lemma lstrip_id t : (∀ c, head t = Some c → is_whitespace c = false) → lstrip t = t.
Proof. destruct t as [|a t]; [done|]. intros H. simpl. by rewrite (H a). Qed.

Lemma rstrip_split t : ∃ s, t = rstrip t ++ s ∧ all_whitespace s.
Proof.
  unfold rstrip. destruct (lstrip_split (reverse t)) as (p & E & Hp).
  exists (reverse p). split.
  - rewrite <- reverse_app, <- E. by rewrite reverse_involutive.
  - unfold all_whitespace. by rewrite Forall_reverse.
Qed.

Lemma rstrip_last t c : last (rstrip t) = Some c → is_whitespace c = false.
Proof. unfold rstrip. rewrite last_reverse. apply lstrip_head. Qed.

Lemma rstrip_id t : (∀ c, last t = Some c → is_whitespace c = false) → rstrip t = t.
Proof.
  intros H. unfold rstrip. rewrite lstrip_id; [apply reverse_involutive|].
  intros c. rewrite head_reverse. apply H.
Qed.

Lemma strip_split t : ∃ p s, t = p ++ strip t ++ s ∧ all_whitespace p ∧ all_whitespace s.
Proof.
  destruct (lstrip_split t) as (p & E1 & Hp).
  destruct (rstrip_split (lstrip t)) as (s & E2 & Hs).
  exists p, s. unfold strip. by rewrite <- E2.
Qed.

Lemma strip_head t c : head (strip t) = Some c → is_whitespace c = false.
Proof.
  unfold strip. destruct (rstrip_split (lstrip t)) as (s & E & Hs).
  intros H. apply (lstrip_head t). rewrite E.
  destruct (rstrip (lstrip t)); [done|]. done.
Qed.

Lemma strip_last t c : last (strip t) = Some c → is_whitespace c = false.
Proof. apply rstrip_last. Qed.

Lemma strip_id t :
  (∀ c, head t = Some c → is_whitespace c = false) →
  (∀ c, last t = Some c → is_whitespace c = false) →
  strip t = t.
Proof. intros H1 H2. unfold strip. rewrite lstrip_id by done. by apply rstrip_id. Qed.

Lemma strip_strip t : strip (strip t) = strip t.
Proof. apply strip_id; [apply strip_head|apply strip_last]. Qed.

Lemma strip_elem c t : c ∈ strip t → c ∈ t.
Proof.
  destruct (strip_split t) as (p & s & E & _). intros H. rewrite E.
  rewrite !elem_of_app. auto.
Qed.

Lemma strip_no_pair a b t : no_pair a b t → no_pair a b (strip t).
Proof.
  destruct (strip_split t) as (p & s & E & _). intros H. rewrite E in H.
  apply no_pair_app in H as [_ H]. by apply no_pair_app in H as [H _].
Qed.

Lemma strip_nil : strip [] = [].
Proof. reflexivity. Qed.



Lemma filter_all_whitespace t : all_whitespace t → filter visible t = [].
Proof.
  induction 1 as [|c t Hc _ IH]; [done|].
  rewrite filter_cons_False; [done|]. unfold visible. congruence.
Qed.

Lemma filter_strip t : filter visible (strip t) = filter visible t.
Proof.
  destruct (strip_split t) as (p & s & E & Hp & Hs). rewrite E at 2.
  rewrite !filter_app, (filter_all_whitespace p), (filter_all_whitespace s) by done.
  by rewrite app_nil_r.
Qed.

Lemma filter_re_sub_spaces t : filter visible (re_sub_spaces t) = filter visible t.
Proof.
  assert (¬ visible SP) as Hsp by (unfold visible; vm_compute; congruence).
  induction t as [| |t IH|c' t Hc IH|c' t Hc IH] using re_sub_spaces_cases.
  - done.
  - done.
  - rewrite re_sub_spaces_sp_sp, IH. by rewrite !(filter_cons_False _ SP).
  - rewrite re_sub_spaces_sp_other by done. by rewrite !(filter_cons_False _ SP), IH.
  - rewrite re_sub_spaces_other by done. rewrite !filter_cons. by rewrite IH.
Qed.


(** ** [str.replace] *)

Lemma replace_nil old new : replace old new [] = [].
Proof. reflexivity. Qed.

Lemma replace1_cons a new c t :
  replace [a] new (c :: t)
  = if Ascii.eqb a c then new ++ replace [a] new t else c :: replace [a] new t.
Proof. unfold replace. simpl. by rewrite andb_true_r. Qed.

Lemma replace2_match a b new t :
  replace [a; b] new (a :: b :: t) = new ++ replace [a; b] new t.
Proof. unfold replace. simpl. by rewrite !Ascii.eqb_refl. Qed.

Lemma replace2_other a b new c t :
  ¬ (c = a ∧ head t = Some b) →
  replace [a; b] new (c :: t) = c :: replace [a; b] new t.
Proof.
  intros H. unfold replace. cbn [replace_from startswith].
  destruct (Ascii.eqb_spec a c) as [<-|]; [|done].
  destruct t as [|d t]; [done|]. rewrite andb_true_r.
  destruct (Ascii.eqb_spec b d) as [<-|]; [|done]. destruct H. done.
Qed.

(** The shapes of a text, as a scan for the pair [a b] sees them. *)
Lemma pair_cases a b (Q : str → Prop) :
  Q [] →
  (∀ t, Q t → Q (a :: b :: t)) →
  (∀ c t, ¬ (c = a ∧ head t = Some b) → Q t → Q (c :: t)) →
  ∀ t, Q t.
Proof.
  intros Hnil Hm Ho t. induction t as [t IH] using list_length_ind.
  destruct t as [|c t]; [done|].
  destruct (decide (c = a ∧ head t = Some b)) as [[-> Hh]|Hn].
  - destruct t as [|d t]; [done|]. injection Hh as ->.
    apply Hm, IH. simpl. lia.
  - apply Ho; [done|]. apply IH. simpl. lia.
Qed.

Lemma replace2_app a b new l c r :
  c ≠ a → c ≠ b →
  replace [a; b] new (l ++ c :: r) = replace [a; b] new l ++ c :: replace [a; b] new r.
Proof.
  intros Ha Hb. induction l as [|l IH|x l Hx IH] using (pair_cases a b).
  - cbn [app]. rewrite replace2_other; [done|]. intros [? _]. done.
  - cbn [app]. rewrite !replace2_match, IH. by rewrite app_assoc.
  - cbn [app]. rewrite !replace2_other, IH; [done..|].
    intros [-> Hh]. apply Hx. split; [done|].
    destruct l as [|y l]; [|done]. simpl in Hh. congruence.
Qed.

Lemma replace2_elem a b new c t :
  c ∈ replace [a; b] new t → c ∈ t ∨ c ∈ new.
Proof.
  induction t as [|t IH|x t Hx IH] using (pair_cases a b).
  - by left.
  - rewrite replace2_match, elem_of_app, !elem_of_cons. intuition.
  - rewrite replace2_other by done. rewrite !elem_of_cons. intuition.
Qed.

Lemma replace1_app a new x y :
  replace [a] new (x ++ y) = replace [a] new x ++ replace [a] new y.
Proof.
  induction x as [|c x IH]; [done|].
  cbn [app]. rewrite !replace1_cons, IH. destruct (Ascii.eqb a c); [|done].
  by rewrite app_assoc.
Qed.

Lemma replace1_elem a new c t : c ∈ replace [a] new t → c ∈ t ∨ c ∈ new.
Proof.
  induction t as [|x t IH]; [by left|].
  rewrite replace1_cons. destruct (Ascii.eqb a x);
    rewrite ?elem_of_app, !elem_of_cons; intuition.
Qed.

Lemma replace_no_match_2 a b new t : no_pair a b t → replace [a; b] new t = t.
Proof.
  induction t as [|x t IH]; [done|]. intros [H1 H2].
  rewrite replace2_other by done. by rewrite IH.
Qed.

(** ** Transformations that work line by line *)


Lemma free_of_elem P t : free_of P t ↔ ∀ c, c ∈ t → P c = false.
Proof. apply Forall_forall. Qed.

Lemma line_local_free f t :
  line_local f → free_of is_linebreak t → free_of is_linebreak (f t).
Proof.
  intros Hf. rewrite !free_of_elem. intros H c Hc. eapply H, line_local_elem; done.
Qed.

Lemma line_local_split f t :
  line_local f → split_by is_linebreak (f t) = f <$> split_by is_linebreak t.
Proof.
  intros Hf. induction t as [t IH] using list_length_ind.
  destruct (split_decompose is_linebreak t) as [Hfree|(l & b & r & -> & Hl & Hb)].
  - rewrite !split_by_free; [done..|]. by apply line_local_free.
  - rewrite (line_local_app f Hf) by done.
    rewrite (split_by_app _ (f l)); [|by apply line_local_free|done].
    rewrite (split_by_app _ l) by done. rewrite fmap_cons.
    rewrite IH; [done|]. rewrite length_app. simpl. lia.
Qed.

Lemma line_local_compose f g : line_local f → line_local g → line_local (f ∘ g).
Proof.
  intros Hf Hg. split.
  - simpl. by rewrite (line_local_nil g Hg), (line_local_nil f Hf).
  - intros l b r Hb. simpl.
    by rewrite (line_local_app g Hg), (line_local_app f Hf).
  - intros c t Hc. simpl in Hc.
    by apply (line_local_elem g Hg), (line_local_elem f Hf).
Qed.

Lemma linebreak_not c d : is_linebreak c = true → is_linebreak d = false → c ≠ d.
Proof. congruence. Qed.

Lemma line_local_re_sub_spaces : line_local re_sub_spaces.
Proof.
  split; [done| |apply re_sub_spaces_elem].
  intros l b r Hb. apply re_sub_spaces_app. by apply (linebreak_not _ _ Hb).
Qed.

Lemma line_local_remove_colon : line_local (replace [COLON] []).
Proof.
  split; [done| |].
  - intros l b r Hb. rewrite replace1_app, replace1_cons.
    destruct (Ascii.eqb_spec COLON b) as [<-|]; [done|done].
  - intros c t [?|[]%elem_of_nil]%replace1_elem. done.
Qed.

Lemma line_local_join_underscore : line_local (replace [SP; UNDERSCORE] [UNDERSCORE]).
Proof.
  split; [done| |].
  - intros l b r Hb. apply replace2_app; by apply (linebreak_not _ _ Hb).
  - intros c t.
    induction t as [|t IH|x t Hx IH] using (pair_cases SP UNDERSCORE).
    + done.
    + rewrite replace2_match. cbn [app]. rewrite !elem_of_cons. intuition.
    + rewrite replace2_other by done. rewrite !elem_of_cons. intuition.
Qed.


Lemma universal_newlines_cr_lf t :
  universal_newlines (CR :: LF :: t) = LF :: universal_newlines t.
Proof. reflexivity. Qed.

Lemma universal_newlines_cr t :
  head t ≠ Some LF → universal_newlines (CR :: t) = LF :: universal_newlines t.
Proof.
  intros H. destruct t as [|b t]; [done|].
  change (universal_newlines (CR :: b :: t))
    with (LF :: if Ascii.eqb b LF then universal_newlines t else universal_newlines (b :: t)).
  destruct (Ascii.eqb_spec b LF) as [->|]; [by destruct H|done].
Qed.

Lemma universal_newlines_other c t :
  c ≠ CR → universal_newlines (c :: t) = c :: universal_newlines t.
Proof. intros H. simpl. by destruct (Ascii.eqb_spec c CR). Qed.

Lemma universal_newlines_cases (Q : str → Prop) :
  Q [] →
  (∀ t, Q t → Q (CR :: LF :: t)) →
  (∀ t, head t ≠ Some LF → Q t → Q (CR :: t)) →
  (∀ c t, c ≠ CR → Q t → Q (c :: t)) →
  ∀ t, Q t.
Proof.
  intros Hnil Hcl Hc Ho t. induction t as [t IH] using list_length_ind.
  destruct t as [|c t]; [done|].
  destruct (decide (c = CR)) as [->|Hn]; [|apply Ho; [done|apply IH; simpl; lia]].
  destruct (decide (head t = Some LF)) as [Hh|Hh].
  - destruct t as [|d t]; [done|]. injection Hh as ->. apply Hcl, IH. simpl. lia.
  - apply Hc; [done|]. apply IH. simpl. lia.
Qed.

Lemma universal_newlines_no_cr raw : CR ∉ universal_newlines raw.
Proof.
  induction raw as [|t IH|t Hh IH|c t Hc IH] using universal_newlines_cases.
  - apply not_elem_of_nil.
  - rewrite universal_newlines_cr_lf, not_elem_of_cons. done.
  - rewrite universal_newlines_cr by done. rewrite not_elem_of_cons. done.
  - rewrite universal_newlines_other by done. rewrite not_elem_of_cons. done.
Qed.

Lemma universal_newlines_id t : CR ∉ t → universal_newlines t = t.
Proof.
  induction t as [|c t IH]; [done|]. intros [Hc Ht]%not_elem_of_cons.
  rewrite universal_newlines_other by done. by rewrite IH.
Qed.

Lemma universal_newlines_elem c raw :
  c ≠ CR → c ≠ LF → c ∈ universal_newlines raw ↔ c ∈ raw.
Proof.
  intros Hcr Hlf.
  induction raw as [|t IH|t Hh IH|x t Hx IH] using universal_newlines_cases.
  - done.
  - rewrite universal_newlines_cr_lf, !elem_of_cons, IH. intuition.
  - rewrite universal_newlines_cr by done. rewrite !elem_of_cons, IH. intuition.
  - rewrite universal_newlines_other by done. rewrite !elem_of_cons, IH. intuition.
Qed.

(** ** Lines of a text that has no carriage return *)

Lemma Forall_trim_last (Q : str → Prop) ls : Forall Q ls → Forall Q (trim_last ls).
Proof.
  induction 1 as [|l ls Hl Hls IH]; [done|].
  destruct ls as [|l' ls].
  - simpl. destruct l; by repeat constructor.
  - rewrite trim_last_cons by done. by constructor.
Qed.

Lemma splitlines_free t : CR ∉ t → Forall (free_of is_linebreak) (splitlines t).
Proof.
  intros H. rewrite splitlines_split_by by done.
  apply Forall_trim_last, split_by_pieces_free.
Qed.

Lemma splitlines_line_local f t :
  line_local f → CR ∉ t →
  splitlines (f t) = trim_last (f <$> split_by is_linebreak t).
Proof.
  intros Hf Ht. rewrite splitlines_split_by, line_local_split; [done..|].
  intros H. by apply Ht, (line_local_elem f Hf).
Qed.

Lemma elem_of_join c s ls : c ∈ join [s] ls → c = s ∨ ∃ l, l ∈ ls ∧ c ∈ l.
Proof.
  induction ls as [|l ls IH]; [by intros ?%elem_of_nil|].
  destruct ls as [|l' ls].
  - simpl. intros H. right. exists l. split; [apply list_elem_of_here|done].
  - rewrite join_cons1 by done. rewrite elem_of_app, elem_of_cons.
    intros [H|[H|H]]; [|by left|].
    + right. exists l. split; [apply list_elem_of_here|done].
    + destruct (IH H) as [?|(x & Hx & ?)]; [by left|].
      right. exists x. split; [by apply list_elem_of_further|done].
Qed.

Lemma splitlines_join ls :
  Forall (free_of is_linebreak) ls → splitlines (join [LF] ls) = trim_last ls.
Proof.
  intros Hls. destruct (decide (ls = [])) as [->|Hne]; [done|].
  rewrite splitlines_split_by, split_by_join; [done..|].
  intros [[=]|(l & Hl & Hc)]%elem_of_join.
  rewrite Forall_forall in Hls. specialize (Hls l Hl).
  rewrite free_of_elem in Hls. by specialize (Hls CR Hc).
Qed.

Lemma join_no_cr ls : Forall (free_of is_linebreak) ls → CR ∉ join [LF] ls.
Proof.
  intros Hls [[=]|(l & Hl & Hc)]%elem_of_join.
  rewrite Forall_forall in Hls. specialize (Hls l Hl).
  rewrite free_of_elem in Hls. by specialize (Hls CR Hc).
Qed.

(** ** Occupied-volume cleaning, line by line *)


Lemma clean_occup_vol_lines t :
  CR ∉ t → clean_occup_vol_text t = join [LF] (occup_vol_line <$> splitlines t).
Proof.
  intros Ht. unfold clean_occup_vol_text.
  rewrite (splitlines_line_local _ _ line_local_re_sub_spaces Ht).
  rewrite trim_last_fmap by (intros; apply re_sub_spaces_nil).
  rewrite <- splitlines_split_by by done. by rewrite <- list_fmap_compose.
Qed.

Lemma occup_vol_line_free l :
  free_of is_linebreak l → free_of is_linebreak (occup_vol_line l).
Proof.
  rewrite !free_of_elem. intros H c Hc. by apply H, re_sub_spaces_elem, strip_elem.
Qed.

Lemma occup_vol_line_idem l : occup_vol_line (occup_vol_line l) = occup_vol_line l.
Proof.
  unfold occup_vol_line. rewrite (re_sub_spaces_id (strip _)).
  - apply strip_strip.
  - apply strip_no_pair, re_sub_spaces_no_pair.
Qed.

Lemma filter_occup_vol_line l : filter visible (occup_vol_line l) = filter visible l.
Proof. unfold occup_vol_line. by rewrite filter_strip, filter_re_sub_spaces. Qed.

Lemma filter_join_lf ls :
  filter visible (join [LF] ls) = concat (filter visible <$> ls).
Proof.
  induction ls as [|l ls IH]; [done|]. destruct ls as [|l' ls].
  - simpl. by rewrite app_nil_r.
  - rewrite join_cons1 by done. rewrite filter_app, filter_cons_False, IH; [done|].
    unfold visible. vm_compute. congruence.
Qed.

Lemma filter_split_by t :
  filter visible t = concat (filter visible <$> split_by is_linebreak t).
Proof.
  induction t as [|c t IH]; [done|].
  destruct (is_linebreak c) eqn:Hc.
  - rewrite split_by_cons_sep by done. rewrite filter_cons_False, IH; [done|].
    unfold visible. by rewrite (linebreak_is_whitespace _ Hc).
  - destruct (split_by_cons_other _ _ t Hc) as (l & ls & E & ->).
    rewrite E in IH. rewrite fmap_cons in *. cbn [concat] in *.
    rewrite !filter_cons, IH. by destruct (decide (visible c)).
Qed.

Lemma concat_filter_trim_last ls :
  concat (filter visible <$> trim_last ls) = concat (filter visible <$> ls).
Proof.
  induction ls as [|l ls IH]; [done|]. destruct ls as [|l' ls].
  - by destruct l.
  - rewrite trim_last_cons by done. rewrite !fmap_cons. cbn [concat]. by rewrite IH.
Qed.

Lemma filter_splitlines t :
  CR ∉ t → filter visible t = concat (filter visible <$> splitlines t).
Proof.
  intros Ht. rewrite splitlines_split_by, concat_filter_trim_last by done.
  apply filter_split_by.
Qed.

Lemma filter_clean_occup_vol t :
  CR ∉ t → filter visible (clean_occup_vol_text t) = filter visible t.
Proof.
  intros Ht. rewrite clean_occup_vol_lines, filter_join_lf by done.
  rewrite (filter_splitlines t) by done. f_equal.
  rewrite <- list_fmap_compose. apply list_fmap_ext. intros i l _. simpl.
  apply filter_occup_vol_line.
Qed.

Lemma clean_occup_vol_idem t :
  CR ∉ t →
  (∀ l, last (splitlines t) = Some l → ∃ c, c ∈ l ∧ is_whitespace c = false) →
  clean_occup_vol_text (clean_occup_vol_text t) = clean_occup_vol_text t.
Proof.
  intros Ht Hlast.
  assert (Forall (free_of is_linebreak) (occup_vol_line <$> splitlines t)) as Hfree.
  { rewrite Forall_fmap. eapply Forall_impl; [by apply splitlines_free|].
    intros l. apply occup_vol_line_free. }
  rewrite (clean_occup_vol_lines t Ht).
  rewrite clean_occup_vol_lines by by apply join_no_cr.
  rewrite splitlines_join by done. rewrite trim_last_id.
  - rewrite <- list_fmap_compose. f_equal. apply list_fmap_ext. intros i l _.
    simpl. apply occup_vol_line_idem.
  - intros l. rewrite fmap_last. destruct (last (splitlines t)) as [l0|] eqn:E; [|done].
    intros [= <-] Hnil. destruct (Hlast l0 eq_refl) as (c & Hc & Hv).
    assert (c ∈ filter visible l0) as Hin by (by apply list_elem_of_filter).
    rewrite <- filter_occup_vol_line, Hnil in Hin. by apply elem_of_nil in Hin.
Qed.


Lemma line_local_summary_prepare : line_local summary_prepare.
Proof.
  apply (line_local_compose re_sub_spaces); [apply line_local_re_sub_spaces|].
  apply (line_local_compose (replace [COLON] []));
    [apply line_local_remove_colon|apply line_local_join_underscore].
Qed.

Lemma split_tokens line toks : split SP line = toks → join [SP] toks = line.
Proof. intros <-. apply join_split. Qed.


Lemma cleaned_line_elem c line :
  c ∈ cleaned_line line → c ∈ line ∨ c = UNDERSCORE.
Proof.
  unfold cleaned_line.
  pose proof (split_tokens (strip line) _ eq_refl) as E.
  destruct (split SP (strip line)) as [|s0 [|s1 [|s2 [|s3 rest]]]];
    try (intros H; left; by apply strip_elem).
  - intros H. left. apply strip_elem. by rewrite <- E.
  - intros H. assert (c ∈ strip line ∨ c = UNDERSCORE) as [?|?]; [|left; by apply strip_elem|by right].
    rewrite <- E. cbn [join]. cbn [app] in *.
    rewrite !elem_of_app, !elem_of_cons, !elem_of_app, !elem_of_cons in *. intuition.
Qed.

Lemma cleaned_line_free line :
  free_of is_linebreak line → free_of is_linebreak (cleaned_line line).
Proof.
  rewrite !free_of_elem. intros H c [Hc| ->]%cleaned_line_elem; [by apply H|done].
Qed.

Lemma summary_lines_preserved t :
  CR ∉ t →
  (∀ l, last (splitlines t) = Some l → cleaned_line (summary_prepare l) ≠ []) →
  splitlines (join [LF] (cleaned_line <$> splitlines (summary_prepare t)))
  = (λ l, cleaned_line (summary_prepare l)) <$> splitlines t.
Proof.
  intros Ht Hlast.
  pose proof line_local_summary_prepare as Hloc.
  assert (splitlines (summary_prepare t) = summary_prepare <$> splitlines t) as ->.
  { rewrite splitlines_line_local by done.
    rewrite (splitlines_split_by t) in * by done.
    apply trim_last_fmap. intros l Hl. split; [|by intros ->].
    intros Hp. destruct (decide (l = [])) as [|Hne]; [done|].
    destruct (Hlast l); [by apply last_trim_last|]. by rewrite Hp. }
  rewrite <- list_fmap_compose.
  rewrite splitlines_join.
  - apply trim_last_id. intros l. rewrite fmap_last.
    destruct (last (splitlines t)) as [l0|] eqn:E; [|done].
    intros [= <-]. by apply Hlast.
  - rewrite Forall_fmap. eapply Forall_impl; [by apply splitlines_free|].
    intros l Hl. simpl. by apply cleaned_line_free, line_local_free.
Qed.


(** ** The loop of [__clean_psds] *)

Lemma replace_spaces_length t :
  length (replace [SP; SP] [SP] t) ≤ length t
  ∧ (contains [SP; SP] t = true → length (replace [SP; SP] [SP] t) < length t).
Proof.
  induction t as [|t [IH1 IH2]|x t Hx [IH1 IH2]] using (pair_cases SP SP).
  - split; [done|]. discriminate.
  - rewrite replace2_match. simpl. lia.
  - rewrite replace2_other by done. simpl length. split; [lia|].
    intros Hc. enough (length (replace [SP; SP] [SP] t) < length t) by lia. apply IH2.
    destruct (contains [SP; SP] t) eqn:E; [done|].
    apply contains_pair in E.
    assert (contains [SP; SP] (x :: t) = false) as E'; [|congruence].
    apply contains_pair. by split.
Qed.

Lemma psd_loop_enough fuel data :
  length data < fuel → is_Some (psd_loop fuel data).
Proof.
  revert data. induction fuel as [|fuel IH]; intros data Hlen; [lia|].
  simpl. destruct (contains [SP; SP] data) eqn:E; [|done].
  apply IH. pose proof (proj2 (replace_spaces_length data) E). lia.
Qed.

Lemma psd_loop_more fuel fuel' data r :
  psd_loop fuel data = Some r → fuel ≤ fuel' → psd_loop fuel' data = Some r.
Proof.
  revert fuel' data. induction fuel as [|fuel IH]; intros fuel' data; [done|].
  destruct fuel' as [|fuel']; [lia|]. simpl.
  destruct (contains [SP; SP] data); [|done].
  intros H ?. apply IH; [done|lia].
Qed.

Lemma clean_psds_text_run fuel data :
  length data < fuel → psd_loop fuel data = Some (clean_psds_text data).
Proof.
  intros Hlen. unfold clean_psds_text.
  destruct (psd_loop_enough (S (length data)) data) as [r Hr]; [lia|].
  rewrite Hr. simpl. eapply psd_loop_more; [done|lia].
Qed.

(** The loop ends on a text without two adjacent spaces. *)
Lemma psd_loop_result fuel data r :
  psd_loop fuel data = Some r →
  ∃ u, no_pair SP SP u
       ∧ r = replace [SP; LF] [LF] (replace [LF; SP] [LF] u)
       ∧ ∀ c, c ∈ u → c ∈ data.
Proof.
  revert data. induction fuel as [|fuel IH]; intros data; [done|].
  simpl. destruct (contains [SP; SP] data) eqn:E.
  - intros (u & ? & ? & Hu)%IH. exists u. repeat split; [done..|].
    intros c [?|Hc%list_elem_of_singleton]%Hu%replace2_elem; [done|]. subst c.
    clear -E. induction data as [|x t IH]; [done|].
    cbn [contains startswith] in E. rewrite elem_of_cons. revert E.
    destruct (Ascii.eqb_spec SP x) as [<-|]; [intros _; by left|].
    cbn [andb orb]. intros E. right. by apply IH.
  - intros [= <-]. exists data. by rewrite <- contains_pair.
Qed.

Lemma replace2_head a b c t :
  head (replace [a; b] [b] t) = Some c →
  head t = Some c ∨ (c = b ∧ head t = Some a).
Proof.
  destruct t as [|x t]; [done|].
  destruct (decide (x = a ∧ head t = Some b)) as [[-> Hh]|Hn].
  - destruct t as [|y t]; [done|]. injection Hh as ->.
    rewrite replace2_match. simpl. intros [= <-]. by right.
  - rewrite replace2_other by done. by left.
Qed.

Lemma replace_lf_sp_head t : head (replace [LF; SP] [LF] t) = head t.
Proof.
  destruct t as [|x t]; [done|].
  destruct (decide (x = LF ∧ head t = Some SP)) as [[-> Hh]|Hn].
  - destruct t as [|y t]; [done|]. injection Hh as ->. by rewrite replace2_match.
  - by rewrite replace2_other.
Qed.

Lemma replace_lf_sp_clean u :
  no_pair SP SP u →
  no_pair SP SP (replace [LF; SP] [LF] u) ∧ no_pair LF SP (replace [LF; SP] [LF] u).
Proof.
  induction u as [|t IH|x t Hx IH] using (pair_cases LF SP).
  - done.
  - intros (_ & H1 & H2). destruct (IH H2) as [IH1 IH2].
    rewrite replace2_match. cbn [app no_pair]. rewrite replace_lf_sp_head.
    repeat split; [|done| |done].
    + intros [[=] _].
    + intros [_ Hh]. apply H1. done.
  - intros [H1 H2]. destruct (IH H2) as [IH1 IH2].
    rewrite replace2_other by done. cbn [no_pair]. rewrite replace_lf_sp_head.
    done.
Qed.

Lemma replace_sp_lf_clean v :
  no_pair SP SP v → no_pair LF SP v →
  no_pair SP SP (replace [SP; LF] [LF] v)
  ∧ no_pair LF SP (replace [SP; LF] [LF] v)
  ∧ no_pair SP LF (replace [SP; LF] [LF] v).
Proof.
  induction v as [|t IH|x t Hx IH] using (pair_cases SP LF).
  - done.
  - intros (_ & _ & H2) (_ & H3 & H4). destruct (IH H2 H4) as (IH1 & IH2 & IH3).
    rewrite replace2_match. cbn [app no_pair].
    repeat split; [|done| |done| |done].
    + intros [[=] _].
    + intros [_ [Hh|[[=] _]]%replace2_head]. apply H3. done.
    + intros [[=] _].
  - intros [H1 H2] [H3 H4]. destruct (IH H2 H4) as (IH1 & IH2 & IH3).
    rewrite replace2_other by done. cbn [no_pair].
    repeat split; [|done| |done| |done].
    + intros [-> [Hh|[[=] _]]%replace2_head]. by apply H1.
    + intros [-> [Hh|[[=] _]]%replace2_head]. by apply H3.
    + intros [-> [Hh|[_ Hh]]%replace2_head]; [by apply Hx|by apply H1].
Qed.

Lemma clean_psds_text_clean data :
  let r := clean_psds_text data in
  no_pair SP SP r ∧ no_pair LF SP r ∧ no_pair SP LF r ∧ (CR ∉ data → CR ∉ r).
Proof.
  intros r.
  destruct (psd_loop_result _ _ _ (clean_psds_text_run (S (length data)) data (Nat.lt_succ_diag_r _)))
    as (u & Hu & Hr & Hel).
  fold r in Hr. destruct (replace_lf_sp_clean u Hu) as [H1 H2].
  destruct (replace_sp_lf_clean _ H1 H2) as (H3 & H4 & H5). rewrite <- Hr in *.
  repeat split; [done..|].
  intros Hd Hc. rewrite Hr in Hc.
  apply replace2_elem in Hc as [Hc|[=]%list_elem_of_singleton].
  apply replace2_elem in Hc as [Hc|[=]%list_elem_of_singleton].
  by apply Hd, Hel.
Qed.

Lemma clean_psds_text_fixed r :
  no_pair SP SP r → no_pair LF SP r → no_pair SP LF r → clean_psds_text r = r.
Proof.
  intros H1 H2 H3.
  pose proof (clean_psds_text_run (S (length r)) r (Nat.lt_succ_diag_r _)) as E.
  simpl in E. rewrite (proj2 (contains_pair _ _ _) H1) in E.
  rewrite (replace_no_match_2 LF SP), (replace_no_match_2 SP LF) in E by done.
  congruence.
Qed.

Lemma clean_psds_text_idem data :
  clean_psds_text (clean_psds_text data) = clean_psds_text data.
Proof.
  destruct (clean_psds_text_clean data) as (H1 & H2 & H3 & _).
  by apply clean_psds_text_fixed.
Qed.

(** ** The effect of every routine on the directory *)
Lemma rbind_inl {A B} (m : Res A) (k : A → Res B) e :
  rbind m k = inl e → m = inl e ∨ ∃ a, m = inr a ∧ k a = inl e.
Proof.
  destruct m as [e'|a]; simpl; intros H; [left; congruence|right; by exists a].
Qed.

Lemma rbind_inr {A B} (m : Res A) (k : A → Res B) b :
  rbind m k = inr b → ∃ a, m = inr a ∧ k a = inr b.
Proof. destruct m as [e'|a]; simpl; intros H; [done|by exists a]. Qed.

Lemma index_error {A} (l : list A) i e : index l i = inl e → e = IndexError.
Proof. unfold index. destruct (l !! i); congruence. Qed.




Lemma mem_true k (d : gmap string string) : mem k d = true ↔ is_Some (d !! k).
Proof. unfold mem. by rewrite bool_decide_eq_true. Qed.

Lemma mem_false k (d : gmap string string) : mem k d = false ↔ d !! k = None.
Proof. unfold mem. rewrite bool_decide_eq_false. by rewrite eq_None_not_Some. Qed.


Lemma printed_nil w : printed w [] = w.
Proof. destruct w. unfold printed. simpl. by rewrite app_nil_r. Qed.

Lemma printed_app w a b : printed (printed w a) b = printed w (a ++ b).
Proof. unfold printed. simpl. by rewrite app_assoc. Qed.

Lemma summary_line_run line w :
  summary_line line w = (printed w (line_log line), inr (cleaned_line line)).
Proof.
  unfold summary_line, line_log, cleaned_line.
  destruct (split SP (strip line)) as [|s0 [|s1 [|s2 [|s3 rest]]]];
    try (unfold ret; by rewrite printed_nil); reflexivity.
Qed.

Lemma summary_loop_run todo : ∀ lines w,
  summary_loop todo lines w
  = (printed w (todo ≫= line_log), inr (lines ++ (cleaned_line <$> todo))).
Proof.
  induction todo as [|line todo IH]; intros lines w; simpl.
  - unfold ret. by rewrite printed_nil, app_nil_r.
  - unfold bind at 1. rewrite summary_line_run, IH, printed_app.
    by rewrite <- app_assoc.
Qed.

Lemma getitem_run (paths : gmap string string) k p w :
  paths !! k = Some p → getitem paths k w = (w, inr p).
Proof. unfold getitem. by intros ->. Qed.

Lemma read_raw_run p raw w : files w !! p = Some raw → read_raw p w = (w, inr raw).
Proof. unfold read_raw. by intros ->. Qed.

Lemma read_text_run p raw w :
  files w !! p = Some raw → read_text p w = (w, inr (universal_newlines raw)).
Proof. intros H. unfold read_text, bind. by rewrite (read_raw_run _ _ _ H). Qed.

Lemma clean_psds_run p raw w :
  files w !! p = Some raw →
  clean_psds p w = (written w p (clean_psds_text (universal_newlines raw)), inr tt).
Proof. intros H. unfold clean_psds, bind. by rewrite (read_text_run _ _ _ H). Qed.

Lemma clean_summary_absent (paths : gmap string string) w :
  paths !! "summary"%string = None → clean_summary paths w = (w, inr tt).
Proof. intros H. unfold clean_summary. apply mem_false in H. by rewrite H. Qed.

Lemma clean_summary_run (paths : gmap string string) p raw w :
  paths !! "summary"%string = Some p →
  files w !! p = Some raw →
  clean_summary paths w =
    let text := universal_newlines raw in
    if contains [COMMA] text then (w, inr tt)
    else
      let ls := splitlines (summary_prepare text) in
      (written (printed w (ls ≫= line_log)) p (join [LF] (cleaned_line <$> ls)), inr tt).
Proof.
  intros Hp Hf. unfold clean_summary.
  assert (mem "summary" paths = true) as -> by (apply mem_true; eauto).
  simpl. unfold bind at 1. rewrite (getitem_run _ _ _ _ Hp).
  unfold bind at 1. rewrite (read_text_run _ _ _ Hf).
  destruct (contains _ _); [done|].
  unfold bind at 1. rewrite summary_loop_run.
  unfold bind. by rewrite (getitem_run _ _ _ _ Hp).
Qed.

Lemma clean_occup_vol_absent (paths : gmap string string) w :
  paths !! "occup_vol"%string = None → clean_occup_vol paths w = (w, inr tt).
Proof. intros H. unfold clean_occup_vol. apply mem_false in H. by rewrite H. Qed.

Lemma clean_occup_vol_run (paths : gmap string string) p raw w :
  paths !! "occup_vol"%string = Some p →
  files w !! p = Some raw →
  clean_occup_vol paths w
  = (written w p (clean_occup_vol_text (universal_newlines raw)), inr tt).
Proof.
  intros Hp Hf. unfold clean_occup_vol.
  assert (mem "occup_vol" paths = true) as -> by (apply mem_true; eauto).
  simpl. unfold bind at 1. rewrite (getitem_run _ _ _ _ Hp).
  unfold bind at 1. rewrite (read_text_run _ _ _ Hf).
  unfold bind. by rewrite (getitem_run _ _ _ _ Hp).
Qed.

Lemma registry_sound_written paths w p text :
  registry_sound paths w → registry_sound paths (written w p text).
Proof.
  intros H k q Hk. simpl. destruct (decide (p = q)) as [->|].
  - rewrite lookup_insert_eq. eauto.
  - rewrite lookup_insert_ne by done. eauto.
Qed.

Lemma registry_sound_printed paths w out :
  registry_sound paths w → registry_sound paths (printed w out).
Proof. done. Qed.

(** Cleaning never raises on a sound registry, and keeps it sound. *)
Lemma clean_psds_guarded_ok (paths : gmap string string) k w :
  registry_sound paths w →
  ∃ w', (if mem k paths then path <- getitem paths k ;; clean_psds path else ret tt) w
        = (w', inr tt) ∧ registry_sound paths w'.
Proof.
  intros Hs. destruct (paths !! k) as [p|] eqn:Hk.
  - assert (mem k paths = true) as -> by (apply mem_true; eauto).
    destruct (Hs _ _ Hk) as [raw Hraw].
    unfold bind. rewrite (getitem_run _ _ _ _ Hk), (clean_psds_run _ _ _ Hraw).
    eauto using registry_sound_written.
  - apply mem_false in Hk as ->. eauto.
Qed.

Lemma clean_summary_ok paths w :
  registry_sound paths w →
  ∃ w', clean_summary paths w = (w', inr tt) ∧ registry_sound paths w'.
Proof.
  intros Hs. destruct (paths !! "summary"%string) as [p|] eqn:Hk.
  - destruct (Hs _ _ Hk) as [raw Hraw].
    rewrite (clean_summary_run _ _ _ _ Hk Hraw). simpl.
    destruct (contains _ _); eauto using registry_sound_written, registry_sound_printed.
  - rewrite clean_summary_absent by done. eauto.
Qed.

Lemma clean_occup_vol_ok paths w :
  registry_sound paths w →
  ∃ w', clean_occup_vol paths w = (w', inr tt) ∧ registry_sound paths w'.
Proof.
  intros Hs. destruct (paths !! "occup_vol"%string) as [p|] eqn:Hk.
  - destruct (Hs _ _ Hk) as [raw Hraw].
    rewrite (clean_occup_vol_run _ _ _ _ Hk Hraw).
    eauto using registry_sound_written.
  - rewrite clean_occup_vol_absent by done. eauto.
Qed.

Lemma clean_ok paths w :
  registry_sound paths w →
  ∃ w', clean paths w = (w', inr tt) ∧ registry_sound paths w'.
Proof.
  intros Hs. unfold clean.
  destruct (clean_psds_guarded_ok paths "psd_cum" w Hs) as (w1 & E1 & Hs1).
  destruct (clean_psds_guarded_ok paths "psd" w1 Hs1) as (w2 & E2 & Hs2).
  destruct (clean_summary_ok paths w2 Hs2) as (w3 & E3 & Hs3).
  destruct (clean_occup_vol_ok paths w3 Hs3) as (w4 & E4 & Hs4).
  exists w4. split; [|done].
  unfold bind at 1. rewrite E1. unfold bind at 1. rewrite E2.
  unfold bind at 1. by rewrite E3.
Qed.



Lemma registry_of_lookup w k :
  registry_of w !! k =
  match possible_paths !! k with
  | Some p => match files w !! p with Some _ => Some p | None => None end
  | None => None
  end.
Proof.
  unfold registry_of. rewrite map_lookup_filter.
  destruct (possible_paths !! k) as [p|]; [|done]. simpl.
  destruct (files w !! p) eqn:E; case_guard as G; simpl in *; try done.
  destruct G. eauto.
Qed.

Lemma registry_of_sound w : registry_sound (registry_of w) w.
Proof.
  intros k p Hk. unfold registry_of in Hk.
  by apply map_lookup_filter_Some in Hk as [_ ?].
Qed.

Lemma possible_paths_psd_cum :
  possible_paths !! "psd_cum"%string = Some "Total_psd_cumulative.txt"%string.
Proof. vm_compute. reflexivity. Qed.

Lemma possible_paths_psd : possible_paths !! "psd"%string = Some "Total_psd.txt"%string.
Proof. vm_compute. reflexivity. Qed.

Lemma possible_paths_summary : possible_paths !! "summary"%string = Some "summary.dat"%string.
Proof. vm_compute. reflexivity. Qed.

Lemma possible_paths_occup_vol :
  possible_paths !! "occup_vol"%string = Some "probe_occupiable_volume.xyz"%string.
Proof. vm_compute. reflexivity. Qed.




Lemma imap_enum_from {A} s (l : list A) : imap (λ i, pair (s + i)) l = enum_from s l.
Proof.
  revert s. induction l as [|x l IH]; intros s; [done|].
  rewrite imap_cons. simpl. rewrite Nat.add_0_r. f_equal.
  rewrite <- IH. apply imap_ext. intros i y _. simpl. f_equal. lia.
Qed.

Lemma enumerate_enum_from {A} (l : list A) : enumerate l = enum_from 0 l.
Proof. unfold enumerate. by rewrite <- imap_enum_from. Qed.

Lemma enum_from_app {A} s (l1 l2 : list A) :
  enum_from s (l1 ++ l2) = enum_from s l1 ++ enum_from (s + length l1) l2.
Proof.
  revert s. induction l1 as [|x l1 IH]; intros s; simpl.
  - by rewrite Nat.add_0_r.
  - rewrite IH. do 3 f_equal. lia.
Qed.

Lemma enum_from_lookup {A} s (l : list A) j i x :
  enum_from s l !! j = Some (i, x) → i = s + j ∧ l !! j = Some x.
Proof.
  revert s j. induction l as [|y l IH]; intros s j; [done|].
  destruct j as [|j]; simpl.
  - intros [= <- <-]. split; [lia|done].
  - intros [-> ?]%IH. split; [lia|done].
Qed.

Lemma enum_from_elem {A} s (l : list A) i x :
  (i, x) ∈ enum_from s l ↔ s ≤ i ∧ l !! (i - s) = Some x.
Proof.
  revert s. induction l as [|y l IH]; intros s; simpl.
  - rewrite elem_of_nil. split; [done|]. intros [_ H]. by rewrite lookup_nil in H.
  - rewrite elem_of_cons, IH. split.
    + intros [[= -> ->]|[? Hl]].
      * rewrite Nat.sub_diag. split; [lia|done].
      * split; [lia|]. by replace (i - s) with (S (i - S s)) by lia.
    + intros [Hle Hl]. destruct (decide (i = s)) as [->|Hne].
      * rewrite Nat.sub_diag in Hl. left. simpl in Hl. congruence.
      * right. split; [lia|]. by replace (i - s) with (S (i - S s)) in Hl by lia.
Qed.

Lemma enum_from_split {A} (xs : list (nat * A)) : ∀ s (l : list A) i x ys,
  enum_from s l = xs ++ (i, x) :: ys →
  i = s + length xs ∧ l !! length xs = Some x
  ∧ ∀ j y, (j, y) ∈ ys ↔ i < j ∧ l !! (j - s) = Some y.
Proof.
  induction xs as [|a xs IH]; intros s l i x ys; destruct l as [|x0 l];
    cbn [enum_from app]; try discriminate.
  - intros [= <- <- <-]. split; [cbn [length]; lia|]. split; [done|].
    intros j y. rewrite enum_from_elem. split.
    + intros [Hj Hy]. split; [lia|].
      replace (j - s) with (S (j - S s)) by lia. done.
    + intros [Hj Hy]. split; [lia|].
      replace (j - s) with (S (j - S s)) in Hy by lia. done.
  - intros [= <- H]. destruct (IH _ _ _ _ _ H) as (-> & Hx & Hys).
    split; [cbn [length]; lia|]. split; [done|].
    intros j y. rewrite Hys. split.
    + intros [Hj Hy]. split; [lia|].
      replace (j - s) with (S (j - S s)) by lia. done.
    + intros [Hj Hy]. split; [lia|].
      replace (j - s) with (S (j - S s)) in Hy by lia. done.
Qed.

Lemma enum_from_middle {A} s (l : list A) i x :
  l !! i = Some x →
  enum_from s l
  = enum_from s (take i l) ++ (s + i, x) :: enum_from (S (s + i)) (drop (S i) l).
Proof.
  intros Hx. rewrite <- (take_drop_middle l i x Hx) at 1.
  rewrite enum_from_app. cbn [enum_from].
  rewrite length_take_le by (apply lookup_lt_Some in Hx; lia). done.
Qed.

(** ** Cleaning of the summary file *)

Lemma contains_single c t : contains [c] t = true ↔ c ∈ t.
Proof.
  induction t as [|a t IH]; cbn [contains startswith].
  - split; [discriminate | by intros ?%elem_of_nil].
  - rewrite elem_of_cons, <- IH, orb_true_iff, andb_true_r, Ascii.eqb_eq. reflexivity.
Qed.

(** C6. Summary-cleaning comma guard: when the content of the summary
    file has a comma, [__clean_summary] returns without changing the
    directory; no file content changes, nothing is written and nothing is
    printed. *)
Theorem clean_summary_comma_guard (paths : gmap string string) (w : World)
    (path : string) (raw : str) :
  paths !! "summary"%string = Some path →
  files w !! path = Some raw →
  COMMA ∈ raw →
  clean_summary paths w = (w, inr tt).
Proof.
  intros Hp Hf Hc. rewrite (clean_summary_run _ _ _ _ Hp Hf). cbn zeta.
  assert (contains [COMMA] (universal_newlines raw) = true) as ->; [|done].
  apply contains_single, universal_newlines_elem; done.
Qed.

Lemma cleaned_line_blank line : strip line = [] → cleaned_line line = [].
Proof. unfold cleaned_line. by intros ->. Qed.

(** C4, as amended.  What the loop body of [__clean_summary] does with a
    line depends on the number of its space-separated tokens after
    trimming: a line of one token and a line of two tokens are kept as
    they are and nothing is printed; a line of three tokens [a b c]
    becomes [a_b c] and nothing is printed; a line of four or more tokens
    is kept as it is and "error" is printed.  In every case the loop goes
    on: it returns one cleaned line for each line it is given. *)
Theorem summary_line_by_token_count (line : str) (w : World) :
  match split SP (strip line) with
  | [_] => summary_line line w = (w, inr (strip line))
  | [a; b] =>
      summary_line line w = (w, inr (strip line)) ∧ strip line = a ++ [SP] ++ b
  | [a; b; c] =>
      summary_line line w = (w, inr (a ++ [UNDERSCORE] ++ b ++ [SP] ++ c))
      ∧ strip line = a ++ [SP] ++ b ++ [SP] ++ c
  | _ => summary_line line w = (printed w [lit "error"], inr (strip line))
  end
  ∧ ∀ todo lines,
      (summary_loop todo lines w).2 = inr (lines ++ (cleaned_line <$> todo)).
Proof.
  split; [|intros todo lines; by rewrite summary_loop_run].
  unfold summary_line.
  pose proof (split_tokens (strip line) _ eq_refl) as E.
  destruct (split SP (strip line)) as [|s0 [|s1 [|s2 [|s3 rest]]]]; try done.
  unfold ret. by rewrite <- E.
Qed.

(** ** Cleaning of the PSD and occupied-volume files *)

Lemma clean_occup_vol_no_cr t : CR ∉ t → CR ∉ clean_occup_vol_text t.
Proof.
  intros Ht. rewrite clean_occup_vol_lines by done. apply join_no_cr.
  rewrite Forall_fmap. eapply Forall_impl; [by apply splitlines_free|].
  intros l. apply occup_vol_line_free.
Qed.

(** C5, as amended.  The loop of the PSD cleaning ends, and cleaning a PSD
    file a second time leaves the cleaned content as it is.  Cleaning the
    occupied-volume file a second time leaves the cleaned content as it is
    when the last line of the file has a character that is not
    whitespace. *)
Theorem cleaning_twice (raw : str) :
  let text := universal_newlines raw in
  psd_loop (S (length text)) text = Some (clean_psds_text text)
  ∧ clean_psds_text (universal_newlines (clean_psds_text text))
    = clean_psds_text text
  ∧ ((∀ l, last (splitlines text) = Some l → ∃ c, c ∈ l ∧ is_whitespace c = false) →
     clean_occup_vol_text (universal_newlines (clean_occup_vol_text text))
     = clean_occup_vol_text text).
Proof.
  intros text. pose proof (universal_newlines_no_cr raw) as Hcr. fold text in Hcr.
  split; [apply clean_psds_text_run; lia|]. split.
  - destruct (clean_psds_text_clean text) as (_ & _ & _ & H).
    rewrite universal_newlines_id by auto. apply clean_psds_text_idem.
  - intros Hlast. rewrite universal_newlines_id by by apply clean_occup_vol_no_cr.
    by apply clean_occup_vol_idem.
Qed.

Lemma split_by_ext P Q t :
  (∀ c, c ∈ t → P c = Q c) → split_by P t = split_by Q t.
Proof.
  induction t as [|c t IH]; [done|]. intros H. cbn [split_by].
  rewrite (H c) by apply list_elem_of_here.
  rewrite IH; [done|]. intros x Hx. apply H. by apply list_elem_of_further.
Qed.

Lemma split_by_snoc_sep P t b :
  P b = true → split_by P (t ++ [b]) = split_by P t ++ [[]].
Proof.
  intros Hb. induction t as [|c t IH].
  - cbn [app split_by]. by rewrite Hb.
  - cbn [app split_by]. rewrite IH. destruct (P c); [done|].
    destruct (split_by P t) as [|l ls] eqn:E; [by destruct (split_by_not_nil P t)|done].
Qed.

Lemma trim_last_snoc_nil ls : trim_last (ls ++ [[]]) = ls.
Proof.
  induction ls as [|l ls IH]; [done|].
  cbn [app]. rewrite trim_last_cons by (by destruct ls). by rewrite IH.
Qed.

Lemma split_by_last_piece P t :
  t ≠ [] → (∀ c, last t = Some c → P c = false) →
  ∀ l, last (split_by P t) = Some l → l ≠ [].
Proof.
  induction t as [|c t IH]; [done|]. intros _ Hlast l.
  destruct t as [|c' t].
  - cbn [split_by]. rewrite (Hlast c eq_refl). by intros [= <-].
  - specialize (IH ltac:(done) Hlast).
    destruct (P c) eqn:Hc.
    + rewrite split_by_cons_sep by done.
      destruct (split_by P (c' :: t)) as [|x xs] eqn:E;
        [by destruct (split_by_not_nil P (c' :: t))|].
      rewrite last_cons_cons. apply IH.
    + destruct (split_by_cons_other P c (c' :: t) Hc) as (x & xs & E & ->).
      rewrite E in IH. destruct xs as [|y ys]; [by intros [= <-]|].
      rewrite last_cons_cons. rewrite last_cons_cons in IH. apply IH.
Qed.

(** C9, as amended.  The occupied-volume cleaning takes the lines of the
    content as [splitlines] delimits them, collapses the runs of spaces
    and strips the ends of every line, and joins the lines with single
    line feeds.  The characters that are not whitespace stay as they are,
    in their order.  When line feeds are the only line boundaries of the
    content, the result is the content with every line normalised, except
    that the line feed that ends the content, if there is one, is
    dropped. *)
Theorem clean_occup_vol_line_by_line (raw : str) :
  let text := universal_newlines raw in
  clean_occup_vol_text text = join [LF] (occup_vol_line <$> splitlines text)
  ∧ filter visible (clean_occup_vol_text text) = filter visible text
  ∧ ((∀ c, c ∈ text → is_linebreak c = true → c = LF) →
     clean_occup_vol_text (text ++ [LF]) = spec_normalise_whitespace text
     ∧ (last text ≠ Some LF →
        clean_occup_vol_text text = spec_normalise_whitespace text)).
Proof.
  intros text. pose proof (universal_newlines_no_cr raw) as Hcr. fold text in Hcr.
  split; [by apply clean_occup_vol_lines|]. split; [by apply filter_clean_occup_vol|].
  intros Hlf.
  assert (split_by is_linebreak text = split LF text) as Hsplit.
  { apply split_by_ext. intros c Hc. destruct (is_linebreak c) eqn:E.
    - rewrite (Hlf c Hc E). symmetry. apply Ascii.eqb_refl.
    - symmetry. apply Ascii.eqb_neq. intros <-. discriminate E. }
  unfold spec_normalise_whitespace. split.
  - rewrite clean_occup_vol_lines.
    + rewrite splitlines_split_by.
      * by rewrite split_by_snoc_sep, trim_last_snoc_nil, Hsplit.
      * rewrite not_elem_of_app, not_elem_of_cons. repeat split; [done..|apply not_elem_of_nil].
    + rewrite not_elem_of_app, not_elem_of_cons. repeat split; [done..|apply not_elem_of_nil].
  - intros Hlast. rewrite clean_occup_vol_lines by done.
    destruct (decide (text = [])) as [->|Hne]; [done|].
    rewrite splitlines_split_by by done. rewrite trim_last_id; [by rewrite Hsplit|].
    apply split_by_last_piece; [done|].
    intros c Hc. destruct (is_linebreak c) eqn:E; [|done].
    destruct Hlast. rewrite Hc. f_equal. apply Hlf; [|done].
    apply last_Some in Hc as [t' ->]. rewrite elem_of_app, list_elem_of_singleton. by right.
Qed.

(** C10, as amended.  For a summary file without a comma whose last line
    does not clean to the empty line, the cleaned file has one line for
    each line of the file, in the same order, each the cleaned form of
    the line at the same place; a line that is empty after trimming is
    kept there as an empty line. *)
Theorem clean_summary_keeps_lines (paths : gmap string string) (w : World)
    (path : string) (raw : str) :
  paths !! "summary"%string = Some path →
  files w !! path = Some raw →
  COMMA ∉ raw →
  let text := universal_newlines raw in
  (∀ l, last (splitlines text) = Some l → cleaned_line (summary_prepare l) ≠ []) →
  ∃ out w',
    clean_summary paths w = (w', inr tt)
    ∧ files w' !! path = Some out
    ∧ splitlines (universal_newlines out)
      = (λ l, cleaned_line (summary_prepare l)) <$> splitlines text
    ∧ ∀ i l, splitlines text !! i = Some l → strip (summary_prepare l) = [] →
             splitlines (universal_newlines out) !! i = Some [].
Proof.
  intros Hp Hf Hc text Hlast.
  pose proof (universal_newlines_no_cr raw) as Hcr. fold text in Hcr.
  rewrite (clean_summary_run _ _ _ _ Hp Hf). cbn zeta. fold text.
  assert (contains [COMMA] text = false) as ->.
  { destruct (contains [COMMA] text) eqn:E; [|done].
    apply contains_single in E.
    destruct (universal_newlines_elem COMMA raw) as [H1 _]; [done..|].
    destruct Hc. by apply H1. }
  eexists _, _. split; [done|]. split; [apply lookup_insert_eq|].
  assert (Forall (free_of is_linebreak) (cleaned_line <$> splitlines (summary_prepare text)))
    as Hfree.
  { rewrite Forall_fmap. eapply Forall_impl.
    - apply splitlines_free. intros H.
      by apply Hcr, (line_local_elem _ line_local_summary_prepare).
    - intros l. apply cleaned_line_free. }
  rewrite universal_newlines_id by by apply join_no_cr.
  rewrite summary_lines_preserved by done. split; [done|].
  intros i l Hl Hblank. rewrite list_lookup_fmap, Hl. cbn. f_equal.
  by apply cleaned_line_blank.
Qed.


(** ** Further facts about the cleaning routines *)

Lemma filter_replace2 (P : ascii → Prop) `{!∀ c, Decision (P c)} a b new t :
  filter P [a; b] = filter P new →
  filter P (replace [a; b] new t) = filter P t.
Proof.
  intros Hnew. revert t. apply (pair_cases a b).
  - reflexivity.
  - intros t IH. rewrite replace2_match, filter_app, IH, <- Hnew.
    change (a :: b :: t) with ([a; b] ++ t). by rewrite filter_app.
  - intros c t Hc IH. rewrite replace2_other by done.
    rewrite !filter_cons, IH. reflexivity.
Qed.

Lemma filter_not_space_sp t : filter (λ c, c ≠ SP) (SP :: t) = filter (λ c, c ≠ SP) t.
Proof. apply filter_cons_False. intros H. by apply H. Qed.

Lemma filter_not_space_lf t :
  filter (λ c, c ≠ SP) (LF :: t) = LF :: filter (λ c, c ≠ SP) t.
Proof. apply filter_cons_True. discriminate. Qed.

Lemma psd_loop_filter fuel : ∀ data r,
  psd_loop fuel data = Some r →
  filter (λ c, c ≠ SP) r = filter (λ c, c ≠ SP) data.
Proof.
  induction fuel as [|fuel IH]; intros data r; cbn [psd_loop]; [discriminate|].
  destruct (contains [SP; SP] data).
  - intros H. rewrite (IH _ _ H). apply filter_replace2.
    by rewrite !filter_not_space_sp.
  - intros [= <-]. rewrite !filter_replace2; [done|..].
    + by rewrite filter_not_space_lf, filter_not_space_sp.
    + by rewrite filter_not_space_sp.
Qed.

(** X4.  [__clean_psds] removes spaces and nothing else: the characters of
    the cleaned text other than spaces are those of the text read, in
    their order, and the cleaned text has no two spaces in a row, no space
    after a line feed and no space before a line feed. *)
Theorem clean_psds_text_only_removes_spaces (data : str) :
  let r := clean_psds_text data in
  filter (λ c, c ≠ SP) r = filter (λ c, c ≠ SP) data
  ∧ contains [SP; SP] r = false
  ∧ contains [LF; SP] r = false
  ∧ contains [SP; LF] r = false.
Proof.
  intros r. split.
  - apply (psd_loop_filter (S (length data))), clean_psds_text_run. lia.
  - destruct (clean_psds_text_clean data) as (H1 & H2 & H3 & _).
    by rewrite !contains_pair.
Qed.

Lemma split_by_head P t l ls x :
  split_by P t = l :: ls → head l = Some x → head t = Some x.
Proof.
  destruct t as [|c t]; cbn [split_by].
  - by intros [= <- <-].
  - destruct (P c).
    + by intros [= <- _].
    + destruct (split_by P t); by intros [= <- _].
Qed.

Lemma split_by_no_pair a b P t :
  no_pair a b t → Forall (no_pair a b) (split_by P t).
Proof.
  induction t as [|c t IH]; cbn [split_by no_pair].
  - by repeat constructor.
  - intros [Hc Ht]. specialize (IH Ht). destruct (P c).
    + by constructor.
    + destruct (split_by P t) as [|l ls] eqn:E.
      * by destruct (split_by_not_nil P t).
      * apply Forall_cons in IH as [Hl Hls]. constructor; [|done].
        cbn [no_pair]. split; [|done]. intros [-> Hh].
        apply Hc. split; [done|]. eapply split_by_head; done.
Qed.

Lemma no_pair_app_sep a b x c y :
  no_pair a b x → no_pair a b y → c ≠ a → c ≠ b → no_pair a b (x ++ c :: y).
Proof.
  intros Hx Hy Ha Hb. induction x as [|e x IH]; cbn [app no_pair].
  - split; [|done]. by intros [? _].
  - destruct Hx as [He Hx]. split; [|by apply IH].
    intros [-> Hh]. destruct x as [|e' x]; cbn in Hh.
    + congruence.
    + by apply He.
Qed.

Lemma no_pair_join a b c ls :
  Forall (no_pair a b) ls → c ≠ a → c ≠ b → no_pair a b (join [c] ls).
Proof.
  intros Hls Ha Hb. induction Hls as [|l ls Hl Hls IH]; [done|].
  destruct ls as [|l' ls]; [done|].
  rewrite join_cons1 by done. by apply no_pair_app_sep.
Qed.

Lemma splitlines_no_pair a b t :
  CR ∉ t → no_pair a b t → Forall (no_pair a b) (splitlines t).
Proof.
  intros Hcr Ht. rewrite splitlines_split_by by done.
  by apply Forall_trim_last, split_by_no_pair.
Qed.

Lemma linebreak_free_lf l : free_of is_linebreak l → free_of (Ascii.eqb LF) l.
Proof.
  unfold free_of. intros H. eapply Forall_impl; [exact H|].
  intros c Hc. apply Ascii.eqb_neq. intros <-. discriminate Hc.
Qed.

Lemma strip_free P l : free_of P l → free_of P (strip l).
Proof.
  rewrite !free_of_elem. intros H c Hc. by apply H, strip_elem.
Qed.

(** X5.  The text that [__clean_occup_vol] writes has no two spaces in a row,
    its only line boundaries are line feeds, and none of the lines that
    the line feeds separate begins or ends with whitespace. *)
Theorem clean_occup_vol_text_shape (raw : str) :
  let out := clean_occup_vol_text (universal_newlines raw) in
  contains [SP; SP] out = false
  ∧ (∀ c, c ∈ out → is_linebreak c = true → c = LF)
  ∧ Forall (λ l, strip l = l) (split LF out).
Proof.
  intros out. subst out. unfold clean_occup_vol_text.
  set (t := re_sub_spaces (universal_newlines raw)).
  assert (CR ∉ t) as Hcr.
  { intros H. by apply re_sub_spaces_elem, universal_newlines_no_cr in H. }
  assert (Forall (free_of is_linebreak) (strip <$> splitlines t)) as Hfree.
  { rewrite Forall_fmap. eapply Forall_impl; [by apply splitlines_free|].
    intros l Hl. by apply strip_free. }
  split; [|split].
  - apply contains_pair, no_pair_join; [|discriminate..].
    rewrite Forall_fmap. eapply Forall_impl.
    + apply splitlines_no_pair; [done|]. apply re_sub_spaces_no_pair.
    + intros l Hl. by apply strip_no_pair.
  - intros c Hc Hb. apply elem_of_join in Hc as [->|(l & Hl & Hc)]; [done|].
    rewrite Forall_forall in Hfree. specialize (Hfree l Hl).
    rewrite free_of_elem in Hfree. rewrite (Hfree c Hc) in Hb. discriminate.
  - destruct (splitlines t) as [|l ls] eqn:E.
    + by repeat constructor.
    + unfold split. rewrite split_by_join.
      * rewrite Forall_fmap. apply Forall_forall. intros x _. apply strip_strip.
      * apply Ascii.eqb_refl.
      * eapply Forall_impl; [exact Hfree|]. apply linebreak_free_lf.
      * done.
Qed.

Lemma replace1_removed a t : a ∉ replace [a] [] t.
Proof.
  induction t as [|c t IH]; [by rewrite replace_nil; apply not_elem_of_nil|].
  rewrite replace1_cons. destruct (Ascii.eqb a c) eqn:E; [done|].
  apply Ascii.eqb_neq in E. rewrite not_elem_of_cons. done.
Qed.

Lemma split_by_elem P t l c : l ∈ split_by P t → c ∈ l → c ∈ t.
Proof.
  revert l. induction t as [|x t IH]; intros l; cbn [split_by].
  - intros ->%list_elem_of_singleton. by intros ?%elem_of_nil.
  - destruct (P x).
    + intros [->|Hl]%elem_of_cons Hc; [by apply elem_of_nil in Hc|].
      right. by apply (IH l).
    + destruct (split_by P t) as [|l0 ls] eqn:E.
      * intros ->%list_elem_of_singleton ->%list_elem_of_singleton. left.
      * intros [->|Hl]%elem_of_cons Hc.
        -- apply elem_of_cons in Hc as [->|Hc]; [left|right].
           apply (IH l0); [left|done].
        -- right. apply (IH l); [by right|done].
Qed.

Lemma trim_last_elem l ls : l ∈ trim_last ls → l ∈ ls.
Proof.
  induction ls as [|x ls IH]; [done|]. destruct ls as [|y ls].
  - destruct x; [by intros ?%elem_of_nil|done].
  - rewrite trim_last_cons by done.
    intros [->|H]%elem_of_cons; [left|right; by apply IH].
Qed.

Lemma splitlines_elem c l t : CR ∉ t → l ∈ splitlines t → c ∈ l → c ∈ t.
Proof.
  intros Hcr. rewrite splitlines_split_by by done.
  intros Hl%trim_last_elem Hc. eapply split_by_elem; done.
Qed.

Lemma universal_newlines_elem_of c raw :
  c ∈ universal_newlines raw → c ∈ raw ∨ c = LF.
Proof.
  intros Hc. destruct (decide (c = LF)) as [->|Hlf]; [by right|]. left.
  destruct (decide (c = CR)) as [->|Hcr].
  - by destruct (universal_newlines_no_cr raw).
  - by apply universal_newlines_elem.
Qed.

Lemma summary_prepare_no_cr text : CR ∉ text → CR ∉ summary_prepare text.
Proof. intros Hcr H. by apply Hcr, (line_local_elem _ line_local_summary_prepare). Qed.

Lemma summary_prepare_no_colon text : COLON ∉ summary_prepare text.
Proof.
  unfold summary_prepare. intros H%re_sub_spaces_elem. by apply replace1_removed in H.
Qed.

Lemma clean_summary_text_elem text c :
  CR ∉ text →
  c ∈ join [LF] (cleaned_line <$> splitlines (summary_prepare text)) →
  c = LF ∨ c = UNDERSCORE ∨ c ∈ summary_prepare text.
Proof.
  intros Hcr [->|(l & Hl & Hc)]%elem_of_join; [by left|]. right.
  apply list_elem_of_fmap in Hl as (l0 & -> & Hl0).
  apply cleaned_line_elem in Hc as [Hc| ->]; [right|by left].
  eapply splitlines_elem; [|done..]. by apply summary_prepare_no_cr.
Qed.

(** X6.  When [__clean_summary] rewrites the summary file (the content has no
    comma), the text it writes has no colon, no comma and no carriage
    return, and each of its characters is a character of the file, an
    underscore or a line feed.  So the cleaning does not make its own
    comma guard true. *)
Theorem clean_summary_output_characters (paths : gmap string string) (w : World)
    (path : string) (raw : str) :
  paths !! "summary"%string = Some path →
  files w !! path = Some raw →
  COMMA ∉ raw →
  ∃ out, files (clean_summary paths w).1 !! path = Some out
    ∧ (COLON ∉ out) ∧ (COMMA ∉ out) ∧ (CR ∉ out)
    ∧ ∀ c, c ∈ out → c ∈ raw ∨ c = UNDERSCORE ∨ c = LF.
Proof.
  intros Hp Hf Hcomma. rewrite (clean_summary_run _ _ _ _ Hp Hf). cbv zeta.
  set (text := universal_newlines raw).
  assert (CR ∉ text) as Hcr by apply universal_newlines_no_cr.
  assert (contains [COMMA] text = false) as ->.
  { destruct (contains [COMMA] text) eqn:E; [|done].
    apply contains_single, universal_newlines_elem_of in E as [E|E]; [done|discriminate]. }
  eexists. split; [apply lookup_insert_eq|].
  assert (∀ c, c ∈ join [LF] (cleaned_line <$> splitlines (summary_prepare text)) →
               c ∈ raw ∨ c = UNDERSCORE ∨ c = LF) as Hchars.
  { intros c [->|[->|Hc]]%clean_summary_text_elem; [tauto..| |done].
    apply (line_local_elem _ line_local_summary_prepare) in Hc.
    apply universal_newlines_elem_of in Hc. tauto. }
  repeat split; [| | |exact Hchars].
  - intros [H|[H|H]]%clean_summary_text_elem; [discriminate..| |done].
    by apply summary_prepare_no_colon in H.
  - intros [H|[H|H]]%Hchars; [done|discriminate..].
  - intros [H|[H|H]]%clean_summary_text_elem; [discriminate..| |done].
    by apply summary_prepare_no_cr in H.
Qed.

Lemma split_two_tokens (a b : str) :
  free_of (Ascii.eqb SP) a → free_of (Ascii.eqb SP) b →
  split SP (a ++ [SP] ++ b) = [a; b].
Proof.
  intros Ha Hb. unfold split. cbn [app].
  rewrite split_by_app; [|done|apply Ascii.eqb_refl]. by rewrite split_by_free.
Qed.

Lemma free_of_app P (x y : str) : free_of P x → free_of P y → free_of P (x ++ y).
Proof. unfold free_of. rewrite Forall_app. done. Qed.

(** X7.  The repair of [__clean_summary] gives lines that [__parse_summary]
    can read: a line of two tokens is written with the same two tokens,
    and a line of three tokens [a b c] is written as a line whose two
    tokens are the name [a_b] and the value [c]. *)
Theorem summary_line_gives_two_tokens (line : str) (w : World) :
  (∀ a b, split SP (strip line) = [a; b] →
     ∃ l', (summary_line line w).2 = inr l' ∧ split SP l' = [a; b])
  ∧ (∀ a b c, split SP (strip line) = [a; b; c] →
       ∃ l', (summary_line line w).2 = inr l'
             ∧ split SP l' = [a ++ [UNDERSCORE] ++ b; c]).
Proof.
  rewrite summary_line_run. cbn [snd]. unfold cleaned_line.
  pose proof (split_by_pieces_free (Ascii.eqb SP) (strip line)) as Hfree.
  fold (split SP (strip line)) in Hfree. split.
  - intros a b E. rewrite E in Hfree |- *.
    apply Forall_cons in Hfree as [Ha [Hb _]%Forall_cons].
    eexists. split; [done|]. by apply split_two_tokens.
  - intros a b c E. rewrite E in Hfree |- *.
    apply Forall_cons in Hfree as [Ha [Hb [Hc _]%Forall_cons]%Forall_cons].
    eexists. split; [done|].
    rewrite (app_assoc a), (app_assoc (a ++ _)), <- (app_assoc a).
    apply split_two_tokens; [|done].
    apply free_of_app; [done|]. apply free_of_app; [|done].
    by repeat constructor.
Qed.

Lemma line_log_count (ls : list str) :
  ls ≫= line_log
  = replicate (length (filter (λ l, 3 < length (split SP (strip l))) ls)) (lit "error").
Proof.
  induction ls as [|l ls IH]; [done|].
  rewrite bind_cons, filter_cons, IH. unfold line_log.
  destruct (split SP (strip l)) as [|s0 [|s1 [|s2 [|s3 rest]]]] eqn:E; cbn [length].
  - by destruct (split_by_not_nil (Ascii.eqb SP) (strip l)).
  - rewrite decide_False by lia. done.
  - rewrite decide_False by lia. done.
  - rewrite decide_False by lia. done.
  - rewrite decide_True by lia. done.
Qed.

(** X8.  When [__clean_summary] rewrites the summary file, it prints
    [error] once for every line that has more than three tokens after the
    replacements and the trimming, and nothing else. *)
Theorem clean_summary_error_log (paths : gmap string string) (w : World)
    (path : string) (raw : str) :
  paths !! "summary"%string = Some path →
  files w !! path = Some raw →
  COMMA ∉ raw →
  let ls := splitlines (summary_prepare (universal_newlines raw)) in
  stdout (clean_summary paths w).1
  = stdout w
    ++ replicate (length (filter (λ l, 3 < length (split SP (strip l))) ls))
         (lit "error").
Proof.
  intros Hp Hf Hcomma ls. rewrite (clean_summary_run _ _ _ _ Hp Hf). cbv zeta.
  assert (contains [COMMA] (universal_newlines raw) = false) as ->.
  { destruct (contains [COMMA] (universal_newlines raw)) eqn:E; [|done].
    apply contains_single, universal_newlines_elem_of in E as [E|E]; [done|discriminate]. }
  cbn [fst stdout written printed]. by rewrite line_log_count.
Qed.






(** ** The join *)


Section JoinFacts.
Context {K V : Type} `{EqDecision K}.
Implicit Types (left right : list (option K * option V)).
Implicit Types (row : option K * option V * option V).

Lemma key_match_eq (a b : option K) : key_match a b = true → a = b.
Proof.
  destruct a as [x|], b as [y|]; simpl; try done.
  by intros ->%bool_decide_eq_true.
Qed.

(** The rows of the join, by where they come from. *)
Lemma elem_of_join_rows left right row :
  row ∈ join_rows left right ↔
    (∃ l r, l ∈ left ∧ r ∈ right ∧ key_match l.1 r.1 = true ∧ row = (l.1, l.2, r.2))
    ∨ (∃ l, l ∈ left ∧ (∀ r, r ∈ right → key_match l.1 r.1 = false)
            ∧ row = (l.1, l.2, None))
    ∨ (∃ r, r ∈ right ∧ (∀ l, l ∈ left → key_match l.1 r.1 = false)
            ∧ row = (r.1, None, r.2)).
Proof.
  unfold join_rows. rewrite elem_of_app, list_elem_of_bind, list_elem_of_fmap.
  split.
  - intros [(l & Hrow & Hl)|(r & -> & Hr)].
    + destruct (filter (λ r, key_match l.1 r.1) right) as [|m ms] eqn:E.
      * apply list_elem_of_singleton in Hrow as ->. right. left.
        exists l. repeat split; [done|].
        intros r Hr. destruct (key_match l.1 r.1) eqn:Em; [|done].
        destruct (filter_nil_not_elem_of _ _ r E); [by rewrite Em|done].
      * apply list_elem_of_fmap in Hrow as (r & -> & Hr).
        rewrite <- E in Hr. apply list_elem_of_filter in Hr as [Hm Hr].
        left. exists l, r. repeat split; [done..|]. by apply Is_true_true.
    + apply list_elem_of_filter in Hr as [Hn Hr]. right. right.
      exists r. repeat split; [done|].
      intros l Hl. destruct (key_match l.1 r.1) eqn:Em; [|done].
      apply negb_prop_elim in Hn. destruct Hn.
      apply Is_true_true, existsb_exists. exists l.
      split; [by apply list_elem_of_In|done].
  - intros [(l & r & Hl & Hr & Hm & ->)|[(l & Hl & Hn & ->)|(r & Hr & Hn & ->)]].
    + left. exists l. split; [|done].
      assert (r ∈ filter (λ r, key_match l.1 r.1) right) as Hf.
      { apply list_elem_of_filter. split; [by apply Is_true_true|done]. }
      destruct (filter (λ r, key_match l.1 r.1) right) as [|m ms];
        [by apply elem_of_nil in Hf|].
      apply list_elem_of_fmap. by exists r.
    + left. exists l. split; [|done].
      destruct (filter (λ r, key_match l.1 r.1) right) as [|m ms] eqn:E;
        [apply list_elem_of_here|].
      assert (m ∈ filter (λ r, key_match l.1 r.1) right) as Hf
        by (rewrite E; apply list_elem_of_here).
      apply list_elem_of_filter in Hf as [Hm Hr]. apply Is_true_true in Hm.
      by rewrite (Hn m Hr) in Hm.
    + right. exists r. split; [done|]. apply list_elem_of_filter. split; [|done].
      apply negb_prop_intro. intros (l & Hl & Hm)%Is_true_true%existsb_exists.
      apply list_elem_of_In in Hl. by rewrite (Hn l Hl) in Hm.
Qed.


Lemma join_rows_keys left right (d : option K) :
  d ∈ key_of <$> join_rows left right ↔ d ∈ fst <$> left ∨ d ∈ fst <$> right.
Proof.
  rewrite !list_elem_of_fmap. split.
  - intros (row & -> & Hrow). apply elem_of_join_rows in Hrow
      as [(l & r & Hl & Hr & Hm & ->)|[(l & Hl & Hn & ->)|(r & Hr & Hn & ->)]].
    + left. by exists l.
    + left. by exists l.
    + right. by exists r.
  - assert (∀ l, l ∈ left → ∃ row, l.1 = key_of row ∧ row ∈ join_rows left right) as Hleft.
    { intros l Hl.
      destruct (decide (Exists (λ r, key_match l.1 r.1 = true) right)) as [Hex|Hex].
      - apply Exists_exists in Hex as (r & Hr & Hm).
        exists (l.1, l.2, r.2). split; [done|]. apply elem_of_join_rows.
        left. by exists l, r.
      - exists (l.1, l.2, None). split; [done|]. apply elem_of_join_rows.
        right. left. exists l. repeat split; [done|].
        intros r Hr. destruct (key_match l.1 r.1) eqn:Em; [|done].
        destruct Hex. apply Exists_exists. by exists r. }
    intros [(l & -> & Hl)|(r & -> & Hr)]; [by apply Hleft|].
    destruct (decide (Exists (λ l, key_match l.1 r.1 = true) left)) as [Hex|Hex].
    + apply Exists_exists in Hex as (l & Hl & Hm).
      rewrite <- (key_match_eq _ _ Hm). by apply Hleft.
    + exists (r.1, None, r.2). split; [done|]. apply elem_of_join_rows.
      right. right. exists r. repeat split; [done|].
      intros l Hl. destruct (key_match l.1 r.1) eqn:Em; [|done].
      destruct Hex. apply Exists_exists. by exists l.
Qed.

Lemma join_rows_null_right left right row :
  row ∈ join_rows left right → key_of row ∉ fst <$> right → row.2 = None.
Proof.
  intros [(l & r & Hl & Hr & Hm & ->)|[(l & Hl & Hn & ->)|(r & Hr & Hn & ->)]]%elem_of_join_rows
    Hk; [|done|].
  - destruct Hk. apply list_elem_of_fmap. exists r.
    split; [apply (key_match_eq _ _ Hm)|done].
  - destruct Hk. apply list_elem_of_fmap. by exists r.
Qed.

Lemma join_rows_null_left left right row :
  row ∈ join_rows left right → key_of row ∉ fst <$> left → row.1.2 = None.
Proof.
  intros [(l & r & Hl & Hr & Hm & ->)|[(l & Hl & Hn & ->)|(r & Hr & Hn & ->)]]%elem_of_join_rows
    Hk; [| |done].
  - destruct Hk. apply list_elem_of_fmap. by exists l.
  - destruct Hk. apply list_elem_of_fmap. by exists l.
Qed.
Lemma key_match_true (a b : option K) :
  key_match a b = true ↔ ∃ d, a = Some d ∧ b = Some d.
Proof.
  destruct a as [x|], b as [y|]; cbn [key_match].
  - rewrite bool_decide_eq_true. split.
    + intros ->. by exists y.
    + by intros (d & [= ->] & [= ->]).
  - split; [done|]. by intros (d & _ & [=]).
  - split; [done|]. by intros (d & [=] & _).
  - split; [done|]. by intros (d & [=] & _).
Qed.

Lemma key_unmatched (k : option K) right :
  (∀ r, r ∈ right → key_match k r.1 = false)
  ↔ ∀ d, k = Some d → Some d ∉ fst <$> right.
Proof.
  split.
  - intros Hn d -> (r & Hd & Hr)%list_elem_of_fmap.
    specialize (Hn r Hr). rewrite <- Hd in Hn.
    assert (key_match (Some d) (Some d) = true) as E by (apply key_match_true; eauto).
    congruence.
  - intros Hn r Hr. destruct (key_match k r.1) eqn:E; [|done].
    apply key_match_true in E as (d & -> & Hd).
    destruct (Hn d eq_refl). apply list_elem_of_fmap. by exists r.
Qed.

(** The rows of the join, by the keys of the two tables. *)
Lemma elem_of_join_rows_by_key left right row :
  row ∈ join_rows left right ↔
    (∃ d vc vd, (Some d, vc) ∈ left ∧ (Some d, vd) ∈ right ∧ row = (Some d, vc, vd))
    ∨ (∃ k vc, (k, vc) ∈ left ∧ (∀ d, k = Some d → Some d ∉ fst <$> right)
               ∧ row = (k, vc, None))
    ∨ (∃ k vd, (k, vd) ∈ right ∧ (∀ d, k = Some d → Some d ∉ fst <$> left)
               ∧ row = (k, None, vd)).
Proof.
  rewrite elem_of_join_rows. split.
  - intros [(l & r & Hl & Hr & Hm & ->)|[(l & Hl & Hn & ->)|(r & Hr & Hn & ->)]].
    + left. apply key_match_true in Hm as (d & Hld & Hrd).
      destruct l as [lk lv], r as [rk rv]. cbn [fst snd] in *. subst.
      by exists d, lv, rv.
    + right. left. destruct l as [lk lv]. cbn [fst snd] in *.
      exists lk, lv. split; [done|]. split; [|done]. by apply key_unmatched.
    + right. right. destruct r as [rk rv]. cbn [fst snd] in *.
      exists rk, rv. split; [done|]. split; [|done].
      intros d -> (l & Hd & Hl)%list_elem_of_fmap.
      specialize (Hn l Hl). rewrite <- Hd in Hn.
      assert (key_match (Some d) (Some d) = true) as E by (apply key_match_true; eauto).
      congruence.
  - intros [(d & vc & vd & Hl & Hr & ->)|[(k & vc & Hl & Hn & ->)|(k & vd & Hr & Hn & ->)]].
    + left. exists (Some d, vc), (Some d, vd). split; [done|]. split; [done|].
      split; [|done]. apply key_match_true. by exists d.
    + right. left. exists (k, vc). split; [done|]. split; [|done].
      by apply key_unmatched.
    + right. right. exists (k, vd). split; [done|]. split; [|done].
      intros l Hl. cbn [fst]. destruct (key_match l.1 k) eqn:E; [|done].
      apply key_match_true in E as (d & Hd & ->).
      destruct (Hn d eq_refl). apply list_elem_of_fmap. by exists l.
Qed.

Lemma NoDup_fmap_filter {A B} (f : A → B) (P : A → Prop) `{!∀ x, Decision (P x)}
    (l : list A) :
  NoDup (f <$> l) → NoDup (f <$> filter P l).
Proof.
  induction l as [|x l IH]; [done|]. rewrite fmap_cons, NoDup_cons.
  intros [Hx Hl]. rewrite filter_cons. destruct (decide (P x)); [|by apply IH].
  rewrite fmap_cons, NoDup_cons. split; [|by apply IH].
  intros (y & Hy & Hin)%list_elem_of_fmap. apply list_elem_of_filter in Hin as [_ Hin].
  apply Hx, list_elem_of_fmap. by exists y.
Qed.

Lemma filter_none {A} (P : A → Prop) `{!∀ x, Decision (P x)} (l : list A) :
  (∀ x, x ∈ l → ¬ P x) → filter P l = [].
Proof.
  induction l as [|x l IH]; [done|]. intros Hn. rewrite filter_cons.
  destruct (decide (P x)) as [Hx|_].
  - destruct (Hn x); [left|done].
  - apply IH. intros y Hy. apply Hn. by right.
Qed.

Lemma filter_key_match_unique (k : option K) right :
  NoDup (fst <$> right) →
  length (filter (λ r, key_match k r.1) right) ≤ 1.
Proof.
  induction right as [|r right IH]; [cbn; lia|].
  rewrite fmap_cons, NoDup_cons. intros [Hr Hright].
  rewrite filter_cons. destruct (decide _) as [Hm|]; [|by apply IH].
  apply Is_true_true, key_match_true in Hm as (d & -> & Hd).
  rewrite filter_none; [cbn; lia|].
  intros r' Hr' (d' & [= <-] & Hd')%Is_true_true%key_match_true.
  apply Hr, list_elem_of_fmap. exists r'. split; [congruence|done].
Qed.

Lemma join_rows_left_keys left right :
  NoDup (fst <$> right) →
  key_of <$> (left ≫= λ l,
     match filter (λ r, key_match l.1 r.1) right with
     | [] => [(l.1, l.2, None)]
     | matches => (λ r, (l.1, l.2, r.2)) <$> matches
     end) = fst <$> left.
Proof.
  intros Hright. induction left as [|l left IH]; [done|].
  rewrite bind_cons, fmap_app, IH, fmap_cons. f_equal.
  pose proof (filter_key_match_unique l.1 right Hright) as Hlen.
  destruct (filter (λ r, key_match l.1 r.1) right) as [|m [|m' ms]]; [done..|].
  cbn [length] in Hlen. lia.
Qed.

(** When no key occurs twice in a table and a null key occurs in at most
    one of the tables, no key occurs twice in the join. *)
Lemma join_rows_keys_NoDup left right :
  NoDup (fst <$> left) → NoDup (fst <$> right) →
  None ∉ fst <$> left ∨ None ∉ fst <$> right →
  NoDup (key_of <$> join_rows left right).
Proof.
  intros Hleft Hright Hnull. unfold join_rows.
  rewrite fmap_app, (join_rows_left_keys left right Hright), <- list_fmap_compose.
  apply NoDup_app. split; [done|]. split.
  - intros k Hk (r & -> & Hr)%list_elem_of_fmap.
    apply list_elem_of_filter in Hr as [Hun Hr]. cbn [compose key_of fst] in Hk.
    apply list_elem_of_fmap in Hk as (l & Hkl & Hl).
    destruct r as [[d|] rv]; cbn [fst snd] in *.
    + apply negb_prop_elim in Hun. apply Hun, Is_true_true, existsb_exists.
      exists l. split; [by apply list_elem_of_In|].
      rewrite <- Hkl. apply key_match_true. by exists d.
    + destruct Hnull as [Hn|Hn]; apply Hn, list_elem_of_fmap.
      * by exists l.
      * by exists (None, rv).
  - by apply (NoDup_fmap_filter (λ r, key_of (r.1, None, r.2))).
Qed.

End JoinFacts.

(** ** Parsing and construction *)

Section RunFacts.

Context {py : PyBuiltins} {pl : PolarsReader}.


Lemma read_csv_run {R} (scan : str → option (list R)) p raw skip cols w :
  files w !! p = Some raw →
  read_csv scan p skip cols w
  = (w, match scan (skip_lines skip raw) with
        | Some rs => inr (mkDataFrame cols rs)
        | None => inl PolarsError
        end).
Proof.
  intros Hf. unfold read_csv, bind. rewrite (read_raw_run _ _ _ Hf).
  by destruct (scan _).
Qed.

Lemma parse_psds_run (paths : gmap string string) pc pd rawc rawd w :
  paths !! "psd_cum"%string = Some pc → paths !! "psd"%string = Some pd →
  files w !! pc = Some rawc → files w !! pd = Some rawd →
  parse_psds paths w
  = (w, match scan_two_columns (skip_lines 3 rawc), scan_two_columns (skip_lines 1 rawd) with
        | Some rc, Some rd =>
            inr (join_full (mkDataFrame ["d"; "Volume Fraction"]%string rc)
                           (mkDataFrame ["d"; "Derivative_dist"]%string rd))
        | _, _ => inl PolarsError
        end).
Proof.
  intros Hc Hd Hfc Hfd. unfold parse_psds.
  unfold bind at 1. rewrite (getitem_run _ _ _ _ Hc).
  unfold bind at 1. rewrite (read_csv_run _ _ _ _ _ _ Hfc).
  destruct (scan_two_columns (skip_lines 3 rawc)) as [rc|]; [|done].
  unfold bind at 1. rewrite (getitem_run _ _ _ _ Hd).
  unfold bind at 1. rewrite (read_csv_run _ _ _ _ _ _ Hfd).
  by destruct (scan_two_columns (skip_lines 1 rawd)).
Qed.

Lemma parse_summary_run (paths : gmap string string) p raw w :
  paths !! "summary"%string = Some p → files w !! p = Some raw →
  parse_summary paths w = (w, parse_summary_lines (splitlines (universal_newlines raw))).
Proof.
  intros Hp Hf. unfold parse_summary.
  unfold bind at 1. rewrite (getitem_run _ _ _ _ Hp).
  unfold bind at 1. by rewrite (read_text_run _ _ _ Hf).
Qed.

Lemma parse_occup_vol_run (paths : gmap string string) p raw w :
  paths !! "occup_vol"%string = Some p → files w !! p = Some raw →
  parse_occup_vol paths w
  = (w, match scan_occup_vol (skip_lines 2 raw) with
        | Some rs => inr (mkDataFrame ["Particle"; "x"; "y"; "z"]%string rs)
        | None => inl PolarsError
        end).
Proof.
  intros Hp Hf. unfold parse_occup_vol.
  unfold bind at 1. rewrite (getitem_run _ _ _ _ Hp).
  by rewrite (read_csv_run _ _ _ _ _ _ Hf).
Qed.

Lemma py_float_error s e : py_float s = inl e → e = ValueError.
Proof. unfold py_float. destruct (float_of_str s); congruence. Qed.

Lemma py_int_error s e : py_int s = inl e → e = ValueError.
Proof. unfold py_int. destruct (int_of_str s); congruence. Qed.

Lemma general_value_error i line e :
  general_value i line = inl e → e = IndexError ∨ e = ValueError.
Proof.
  unfold general_value.
  destruct (negb _); intros [?%index_error|(? & _ & H)]%rbind_inl; auto;
    [apply py_float_error in H|apply py_int_error in H]; auto.
Qed.

Lemma float_value_error i line e :
  float_value i line = inl e → e = IndexError ∨ e = ValueError.
Proof.
  unfold float_value.
  intros [?%index_error|(? & _ & H%py_float_error)]%rbind_inl; auto.
Qed.

Lemma dict_comp_error value keep items : ∀ d e,
  (∀ i line e, value i line = inl e → e = IndexError ∨ e = ValueError) →
  dict_comp value keep items d = inl e → e = IndexError ∨ e = ValueError.
Proof.
  induction items as [|[i line] items IH]; intros d e Hv; simpl; [done|].
  destruct (keep i); [|by apply IH].
  intros [?%index_error|(k & _ & [?%Hv|(v & _ & ?)]%rbind_inl)]%rbind_inl; eauto.
Qed.

Lemma parse_summary_lines_error lines e :
  parse_summary_lines lines = inl e → e = IndexError ∨ e = ValueError.
Proof.
  unfold parse_summary_lines.
  intros [?%index_error|(name & _ & H)]%rbind_inl; [auto|].
  apply rbind_inl in H as [H|(g & _ & H)];
    [by eapply dict_comp_error, H; apply general_value_error|].
  apply rbind_inl in H as [H|(t & _ & H)];
    [by eapply dict_comp_error, H; apply float_value_error|].
  apply rbind_inl in H as [H|(n & _ & H)];
    [by eapply dict_comp_error, H; apply float_value_error|done].
Qed.


Lemma psd_step_run paths w :
  registry_sound paths w →
  (if mem "psd" paths && mem "psd_cum" paths then parse_psds paths else ret empty_frame) w
  = (w, parsed_psd paths w).
Proof.
  intros Hs. unfold parsed_psd.
  destruct (paths !! "psd"%string) as [pd|] eqn:Hpd.
  2:{ apply mem_false in Hpd as ->. done. }
  assert (mem "psd" paths = true) as -> by (apply mem_true; eauto).
  destruct (paths !! "psd_cum"%string) as [pc|] eqn:Hpc.
  2:{ apply mem_false in Hpc as ->. done. }
  assert (mem "psd_cum" paths = true) as -> by (apply mem_true; eauto).
  destruct (Hs _ _ Hpd) as [rawd Hd]. destruct (Hs _ _ Hpc) as [rawc Hc].
  simpl. rewrite (parse_psds_run _ _ _ _ _ _ Hpc Hpd Hc Hd), Hc, Hd. done.
Qed.

Lemma summary_step_run paths w :
  registry_sound paths w →
  (if mem "summary" paths then parse_summary paths else ret ([], ∅)) w
  = (w, parsed_summary paths w).
Proof.
  intros Hs. unfold parsed_summary.
  destruct (paths !! "summary"%string) as [p|] eqn:Hp.
  2:{ apply mem_false in Hp as ->. done. }
  assert (mem "summary" paths = true) as -> by (apply mem_true; eauto).
  destruct (Hs _ _ Hp) as [raw Hraw].
  by rewrite (parse_summary_run _ _ _ _ Hp Hraw), Hraw.
Qed.

Lemma occup_vol_step_run paths w :
  registry_sound paths w →
  (if mem "occup_vol" paths then parse_occup_vol paths else ret empty_frame) w
  = (w, parsed_occup_vol paths w).
Proof.
  intros Hs. unfold parsed_occup_vol.
  destruct (paths !! "occup_vol"%string) as [p|] eqn:Hp.
  2:{ apply mem_false in Hp as ->. done. }
  assert (mem "occup_vol" paths = true) as -> by (apply mem_true; eauto).
  destruct (Hs _ _ Hp) as [raw Hraw].
  by rewrite (parse_occup_vol_run _ _ _ _ Hp Hraw), Hraw.
Qed.

Lemma parsing_run paths w :
  registry_sound paths w →
  parsing paths w
  = (w, parsed_run paths w).
Proof.
  intros Hs. unfold parsing, parsed_run.
  unfold bind at 1. rewrite (psd_step_run _ _ Hs).
  destruct (parsed_psd paths w) as [e|tab]; [done|].
  unfold bind at 1. rewrite (summary_step_run _ _ Hs).
  destruct (parsed_summary paths w) as [e|parsed]; [done|].
  unfold bind at 1. rewrite (occup_vol_step_run _ _ Hs).
  by destruct (parsed_occup_vol paths w) as [e|occ].
Qed.

Lemma init_run_no_clean w :
  init false w = parsing (registry_of w) w.
Proof. reflexivity. Qed.

Lemma init_run_clean w :
  ∃ w', clean (registry_of w) w = (w', inr tt)
        ∧ registry_sound (registry_of w) w'
        ∧ init true w = parsing (registry_of w) w'.
Proof.
  destruct (clean_ok _ _ (registry_of_sound w)) as (w' & E & Hs).
  exists w'. repeat split; [done..|].
  unfold init, bind, get_paths. fold (registry_of w). by rewrite E.
Qed.


Lemma parsing_error paths w e :
  registry_sound paths w → (parsing paths w).2 = inl e →
  e = PolarsError ∨ e = IndexError ∨ e = ValueError.
Proof.
  intros Hs. rewrite (parsing_run _ _ Hs). unfold parsed_run. simpl.
  intros [H|(tab & _ & H)]%rbind_inl.
  { unfold parsed_psd in H. repeat case_match; simplify_eq; auto. }
  apply rbind_inl in H as [H|(parsed & _ & H)].
  { unfold parsed_summary in H. case_match; [|done].
    apply parse_summary_lines_error in H. tauto. }
  apply rbind_inl in H as [H|(occ & _ & H)]; [|done].
  unfold parsed_occup_vol in H. repeat case_match; simplify_eq; auto.
Qed.


Lemma dict_comp_app (value : nat → str → Res number) (keep : nat → bool) (xs ys : list (nat * str)) (d : gmap str number) :
  dict_comp value keep (xs ++ ys) d
  = (d' <~ dict_comp value keep xs d ;; dict_comp value keep ys d').
Proof.
  revert d. induction xs as [|[i line] xs IH]; intros d; [done|].
  cbn [app dict_comp]. destruct (keep i); [|apply IH].
  destruct (index (split SP line) 0) as [e|k]; [done|]. cbn [rbind].
  destruct (value i line) as [e|v]; [done|]. cbn [rbind]. apply IH.
Qed.

Lemma dict_comp_skip (value : nat → str → Res number) (keep : nat → bool) (items : list (nat * str)) (d : gmap str number) :
  (∀ i x, (i, x) ∈ items → keep i = false) →
  dict_comp value keep items d = inr d.
Proof.
  induction items as [|[i line] items IH]; intros H; [done|].
  cbn [dict_comp]. rewrite (H i line) by apply list_elem_of_here.
  apply IH. intros j x Hj. eapply H. by apply list_elem_of_further.
Qed.

Lemma dict_comp_shift (value value' : nat → str → Res number)
    (keep keep' : nat → bool) (a s : nat) (l : list str) (d : gmap str number) :
  (∀ j x, l !! j = Some x →
          keep' (a + (s + j)) = keep (s + j)
          ∧ value' (a + (s + j)) x = value (s + j) x) →
  dict_comp value keep (enum_from s l) d
  = dict_comp value' keep' (enum_from (a + s) l) d.
Proof.
  revert s d. induction l as [|x l IH]; intros s d H; [done|].
  cbn [enum_from dict_comp].
  destruct (H 0 x eq_refl) as [Hk Hv]. rewrite Nat.add_0_r in Hk, Hv.
  rewrite Hk, Hv.
  assert (∀ d', dict_comp value keep (enum_from (S s) l) d'
                = dict_comp value' keep' (enum_from (S (a + s)) l) d') as Hrest.
  { intros d'. replace (S (a + s)) with (a + S s) by lia. apply IH.
    intros j y Hj. specialize (H (S j) y Hj).
    by replace (S s + j) with (s + S j) by lia. }
  destruct (keep s); [|apply Hrest].
  destruct (index (split SP x) 0) as [e|k]; [done|]. cbn [rbind].
  destruct (value s x) as [e|v]; [done|]. cbn [rbind]. apply Hrest.
Qed.

(** A comprehension over the slice [lines[a:a+n]] with local indices is
    a comprehension over all the lines with absolute indices. *)
Lemma dict_comp_slice (value value' : nat → str → Res number)
    (keep keep' : nat → bool) (lines : list str) (a n : nat) (d : gmap str number) :
  (∀ i x, lines !! i = Some x → a ≤ i < a + n →
          keep' i = keep (i - a) ∧ value' i x = value (i - a) x) →
  (∀ i, i < length lines → ¬ (a ≤ i < a + n) → keep' i = false) →
  dict_comp value keep (enumerate (take n (drop a lines))) d
  = dict_comp value' keep' (enumerate lines) d.
Proof.
  intros Hin Hout. rewrite !enumerate_enum_from.
  rewrite <- (take_drop a lines) at 2.
  rewrite <- (take_drop n (drop a lines)) at 2.
  rewrite !enum_from_app, !dict_comp_app.
  rewrite (dict_comp_skip value' keep' (enum_from 0 (take a lines))).
  2:{ intros i x [_ Hi]%enum_from_elem. rewrite Nat.sub_0_r in Hi.
      apply lookup_lt_Some in Hi as Hlen. rewrite length_take in Hlen.
      apply Hout; lia. }
  cbn [rbind].
  destruct (decide (a ≤ length lines)) as [Ha|Ha].
  2:{ rewrite drop_ge by lia. by rewrite take_nil, drop_nil. }
  rewrite length_take_le by lia. simpl Nat.add. rewrite dict_comp_app.
  rewrite (dict_comp_shift value value' keep keep' a 0).
  2:{ intros j x Hj. apply lookup_take_Some in Hj as [Hj Hjn].
      rewrite lookup_drop in Hj. rewrite Nat.add_0_l.
      destruct (Hin (a + j) x Hj) as [-> ->]; [lia|].
      by replace (a + j - a) with j by lia. }
  rewrite Nat.add_0_r.
  destruct (dict_comp value' keep' (enum_from a (take n (drop a lines))) d)
    as [e|d']; [done|]. cbn [rbind].
  symmetry. apply dict_comp_skip.
  intros i x [Hi Hx]%enum_from_elem.
  apply lookup_lt_Some in Hx as Hlen. rewrite !length_drop in Hlen.
  rewrite ?length_take, ?length_drop in Hi, Hlen.
  apply Hout; lia.
Qed.


Lemma parse_summary_lines_spec lines :
  parse_summary_lines lines = spec_parse_summary lines.
Proof.
  unfold parse_summary_lines, spec_parse_summary, slice.
  destruct (index lines 0) as [e|name]; [done|]. cbn [rbind].
  rewrite (dict_comp_slice general_value spec_general_value
             (λ _, true) in_general lines 1 (7 - 1)).
  2:{ intros i x _ Hi. unfold in_general. split.
      - apply andb_true_iff. split; [apply Nat.leb_le|apply Nat.leb_le]; simpl in Hi; lia.
      - unfold general_value, spec_general_value, spec_second_token.
        destruct (Nat.eqb_spec i 6) as [->|Hne]; [done|].
        destruct (Nat.eqb_spec (i - 1) 5); [lia|done]. }
  2:{ intros i _ Hi. unfold in_general. apply andb_false_iff.
      destruct (Nat.leb_spec 1 i); [|by left].
      destruct (Nat.leb_spec i 6); [|by right]. simpl in Hi. lia. }
  destruct (dict_comp _ _ _ _) as [e|g]; [done|]. cbn [rbind].
  rewrite (dict_comp_slice float_value spec_float_value
             (λ i, negb (i =? 3)) in_total lines 8 (19 - 8)).
  2:{ intros i x _ Hi. unfold in_total. split; [|done]. simpl in Hi.
      destruct (Nat.leb_spec 8 i); [|lia]. destruct (Nat.leb_spec i 18); [|lia]. done. }
  2:{ intros i _ Hi. unfold in_total. simpl in Hi.
      destruct (Nat.leb_spec 8 i); [|done]. destruct (Nat.leb_spec i 18); [|done]. lia. }
  destruct (dict_comp _ _ _ _) as [e|t]; [done|]. cbn [rbind].
  rewrite <- (take_ge (drop 20 lines) (length lines)) by (rewrite length_drop; lia).
  rewrite (dict_comp_slice float_value spec_float_value
             (λ i, negb (i =? 3)) in_network lines 20 (length lines)).
  - done.
  - intros i x _ Hi. unfold in_network. split; [|done].
    destruct (Nat.leb_spec 20 i); [done|lia].
  - intros i Hlen Hi. unfold in_network. destruct (Nat.leb_spec 20 i); [lia|done].
Qed.

Lemma dict_comp_fail (value : nat → str → Res number) (keep : nat → bool)
    (items : list (nat * str)) i line e :
  (i, line) ∈ items → keep i = true → value i line = inl e →
  ∀ d, ∃ e', dict_comp value keep items d = inl e'.
Proof.
  intros Hin Hk Hv. induction items as [|[j x] items IH]; [by apply elem_of_nil in Hin|].
  intros d. cbn [dict_comp].
  apply elem_of_cons in Hin as [[= <- <-]|Hin].
  - rewrite Hk. destruct (index (split SP line) 0) as [e0|k]; [by exists e0|].
    cbn [rbind]. rewrite Hv. by exists e.
  - destruct (keep j); [|by apply IH].
    destruct (index (split SP x) 0) as [e0|k]; [by exists e0|]. cbn [rbind].
    destruct (value j x) as [e0|v]; [by exists e0|]. cbn [rbind]. by apply IH.
Qed.

Lemma enumerate_elem (lines : list str) i line :
  lines !! i = Some line → (i, line) ∈ enumerate lines.
Proof.
  intros H. rewrite enumerate_enum_from, enum_from_elem, Nat.sub_0_r.
  split; [lia|done].
Qed.



Lemma summary_dict_general (g t n : gmap str number) :
  summary_dict g t n !! lit "general_output" = Some g.
Proof. unfold summary_dict. apply lookup_insert_eq. Qed.

Lemma parse_summary_lines_line6 lines name d line :
  parse_summary_lines lines = inr (name, d) → lines !! 6 = Some line →
  ∃ g k tok z,
    d !! lit "general_output" = Some g
    ∧ split SP line !! 0 = Some k ∧ split SP line !! 1 = Some tok
    ∧ int_of_str tok = Some z ∧ g !! k = Some (NInt z).
Proof.
  unfold parse_summary_lines, slice. intros H Hl.
  apply rbind_inr in H as (name' & _ & H).
  apply rbind_inr in H as (g & Hg & H).
  apply rbind_inr in H as (t & _ & H).
  apply rbind_inr in H as (n & _ & [= _ <-]).
  exists g. rewrite summary_dict_general.
  assert (drop 1 lines !! 5 = Some line) as Hd by (by rewrite lookup_drop).
  change (7 - 1) with (S 5) in Hg. rewrite (take_S_r _ _ _ Hd) in Hg.
  rewrite enumerate_enum_from, enum_from_app, dict_comp_app in Hg.
  apply rbind_inr in Hg as (d1 & _ & Hg).
  rewrite length_take_le in Hg by (apply lookup_lt_Some in Hd; lia).
  cbn [enum_from dict_comp Nat.add] in Hg.
  apply rbind_inr in Hg as (k & Hk & Hg).
  apply rbind_inr in Hg as (v & Hv & [= <-]).
  unfold general_value in Hv. cbn [Nat.eqb negb] in Hv.
  apply rbind_inr in Hv as (tok & Htok & Hv).
  unfold index in Hk, Htok. unfold py_int in Hv.
  destruct (split SP line !! 0) as [k'|]; [|done]. injection Hk as ->.
  destruct (split SP line !! 1) as [tok'|]; [|done]. injection Htok as ->.
  destruct (int_of_str tok) as [z|] eqn:Hz; [|done]. injection Hv as <-.
  exists k, tok, z. by rewrite lookup_insert_eq.
Qed.

(** *** The sections of the summary, line by line *)

Lemma dict_comp_lookup_last (value : nat → str → Res number) (keep : nat → bool)
    (k : str) (v : number) (items : list (nat * str)) : ∀ (d d' : gmap str number),
  dict_comp value keep items d = inr d' →
  d' !! k = Some v →
  (∃ xs i line ys,
     items = xs ++ (i, line) :: ys ∧ keep i = true
     ∧ split SP line !! 0 = Some k ∧ value i line = inr v
     ∧ ∀ j l, (j, l) ∈ ys → keep j = true → split SP l !! 0 ≠ Some k)
  ∨ (d !! k = Some v
     ∧ ∀ j l, (j, l) ∈ items → keep j = true → split SP l !! 0 ≠ Some k).
Proof.
  induction items as [|[i line] items IH]; intros d d' H Hv; cbn [dict_comp] in H.
  - injection H as <-. right. split; [done|]. intros j l Hj. by apply elem_of_nil in Hj.
  - destruct (keep i) eqn:Ei.
    + apply rbind_inr in H as (k0 & Hk0 & H).
      apply rbind_inr in H as (v0 & Hv0 & H).
      assert (split SP line !! 0 = Some k0) as Hk0'.
      { unfold index in Hk0. by destruct (split SP line !! 0); simplify_eq. }
      destruct (IH _ _ H Hv) as [(xs & j & l & ys & -> & Hj & Hl & Hval & Hys)|[Hd Hnone]].
      * left. exists ((i, line) :: xs), j, l, ys. done.
      * destruct (decide (k0 = k)) as [->|Hne].
        -- rewrite lookup_insert_eq in Hd. injection Hd as ->. left.
           exists [], i, line, items. done.
        -- rewrite lookup_insert_ne in Hd by done. right. split; [done|].
           intros j l [[= -> ->]|Hj]%elem_of_cons; [congruence|by apply Hnone].
    + destruct (IH _ _ H Hv) as [(xs & j & l & ys & -> & Hj & Hl & Hval & Hys)|[Hd Hnone]].
      * left. exists ((i, line) :: xs), j, l, ys. done.
      * right. split; [done|].
        intros j l [[= -> ->]|Hj]%elem_of_cons; [congruence|by apply Hnone].
Qed.

Lemma dict_comp_lookup_unread (value : nat → str → Res number) (keep : nat → bool)
    (k : str) (items : list (nat * str)) : ∀ (d d' : gmap str number),
  dict_comp value keep items d = inr d' →
  (∀ j l, (j, l) ∈ items → keep j = true → split SP l !! 0 ≠ Some k) →
  d' !! k = d !! k.
Proof.
  induction items as [|[i line] items IH]; intros d d' H Hk; cbn [dict_comp] in H.
  - by injection H as <-.
  - assert (∀ j l, (j, l) ∈ items → keep j = true → split SP l !! 0 ≠ Some k) as Hk'.
    { intros j l Hj. apply Hk. by right. }
    destruct (keep i) eqn:Ei; [|by apply (IH _ _ H)].
    apply rbind_inr in H as (k0 & Hk0 & H).
    apply rbind_inr in H as (v & Hv & H).
    rewrite (IH _ _ H Hk'). apply lookup_insert_ne. intros ->.
    apply (Hk i line); [left|done|]. unfold index in Hk0.
    by destruct (split SP line !! 0); simplify_eq.
Qed.

Lemma dict_comp_lookup_at (value : nat → str → Res number) (keep : nat → bool)
    (k : str) (xs ys : list (nat * str)) (i : nat) (line : str)
    (d d' : gmap str number) :
  dict_comp value keep (xs ++ (i, line) :: ys) d = inr d' →
  keep i = true → split SP line !! 0 = Some k →
  (∀ j l, (j, l) ∈ ys → keep j = true → split SP l !! 0 ≠ Some k) →
  ∃ v, value i line = inr v ∧ d' !! k = Some v.
Proof.
  intros H Hi Hk Hys.
  rewrite dict_comp_app in H. apply rbind_inr in H as (d1 & _ & H).
  cbn [dict_comp] in H. rewrite Hi in H.
  apply rbind_inr in H as (k0 & Hk0 & H).
  apply rbind_inr in H as (v & Hv & H).
  unfold index in Hk0. rewrite Hk in Hk0. injection Hk0 as <-.
  exists v. split; [done|].
  rewrite (dict_comp_lookup_unread _ _ _ _ _ _ H Hys). apply lookup_insert_eq.
Qed.

(** The mapping that a comprehension builds from the lines of the file,
    by the index of the lines. *)
Lemma dict_comp_section (value : nat → str → Res number) (keep : nat → bool)
    (lines : list str) (g : gmap str number) :
  dict_comp value keep (enumerate lines) ∅ = inr g →
  ∀ k v, g !! k = Some v ↔
    ∃ i line, lines !! i = Some line ∧ keep i = true
      ∧ split SP line !! 0 = Some k ∧ value i line = inr v
      ∧ ∀ j l, i < j → keep j = true → lines !! j = Some l → split SP l !! 0 ≠ Some k.
Proof.
  rewrite enumerate_enum_from. intros H k v. split.
  - intros Hv.
    destruct (dict_comp_lookup_last _ _ _ _ _ _ _ H Hv)
      as [(xs & i & line & ys & E & Hi & Hk & Hval & Hys)|[He _]];
      [|by rewrite lookup_empty in He].
    destruct (enum_from_split _ _ _ _ _ _ E) as (-> & Hl & Hin).
    exists (length xs), line. cbn [Nat.add] in *. repeat split; [done..|].
    intros j l Hj Hkj Hl'. apply (Hys j l); [|done].
    apply Hin. rewrite Nat.sub_0_r. done.
  - intros (i & line & Hl & Hi & Hk & Hval & Hlater).
    rewrite (enum_from_middle 0 _ _ _ Hl) in H.
    destruct (dict_comp_lookup_at _ _ _ _ _ _ _ _ _ H Hi Hk) as (v' & Hv' & Hg).
    + intros j l Hj Hkj. apply enum_from_elem in Hj as [Hj Hl'].
      rewrite lookup_drop in Hl'. apply (Hlater j l); [cbn in Hj; lia|done|].
      replace j with (S i + (j - S (0 + i))) at 1 by (cbn in Hj |- *; lia). done.
    + cbn [Nat.add] in Hv'. congruence.
Qed.

(** A comprehension returns exactly when every line it reads has a
    value. *)
Lemma dict_comp_returns (value : nat → str → Res number) (keep : nat → bool)
    (items : list (nat * str)) : ∀ (d : gmap str number),
  (∀ i line, (i, line) ∈ items → keep i = true → ∃ v, value i line = inr v) →
  ∃ d', dict_comp value keep items d = inr d'.
Proof.
  induction items as [|[i line] items IH]; intros d Hv; cbn [dict_comp]; [by eexists|].
  assert (∀ j l, (j, l) ∈ items → keep j = true → ∃ v, value j l = inr v) as Hv'.
  { intros j l Hj. apply Hv. by right. }
  destruct (keep i) eqn:Ei; [|by apply IH].
  destruct (Hv i line) as [v Hval]; [left|done|].
  unfold index. destruct (split SP line !! 0) as [k|] eqn:Ek.
  - cbn [rbind]. rewrite Hval. cbn [rbind]. by apply IH.
  - destruct (split_by_not_nil (Ascii.eqb SP) line). unfold split in Ek.
    by destruct (split_by (Ascii.eqb SP) line).
Qed.

Lemma dict_comp_returned (value : nat → str → Res number) (keep : nat → bool)
    (items : list (nat * str)) (d d' : gmap str number) i line :
  dict_comp value keep items d = inr d' →
  (i, line) ∈ items → keep i = true → ∃ v, value i line = inr v.
Proof.
  intros H Hin Hk. destruct (value i line) as [e|v] eqn:E; [|by eexists].
  destruct (dict_comp_fail _ _ _ _ _ _ Hin Hk E d) as [e' He']. congruence.
Qed.

Lemma split_first_token (line : str) : ∃ k, split SP line !! 0 = Some k.
Proof.
  unfold split. pose proof (split_by_not_nil (Ascii.eqb SP) line) as H.
  destruct (split_by (Ascii.eqb SP) line) as [|k ?]; [done|]. by exists k.
Qed.

Lemma spec_second_token_reads (as_int : bool) (line k : str) (v : number) :
  split SP line !! 0 = Some k →
  spec_second_token (if as_int then py_int else py_float) line = inr v
  ↔ reads_value as_int line k v.
Proof.
  intros Hk. unfold spec_second_token, reads_value, index. split.
  - intros (tok & Htok & H)%rbind_inr. exists tok. split; [done|].
    destruct (split SP line !! 1) as [tok'|]; [|done]. injection Htok as ->.
    split; [done|]. destruct as_int.
    + unfold py_int in H. destruct (int_of_str tok) as [z|]; [|done].
      injection H as <-. by exists z.
    + unfold py_float in H. destruct (float_of_str tok) as [x|]; [|done].
      injection H as <-. by exists x.
  - intros (tok & _ & -> & H). cbn [rbind]. destruct as_int.
    + destruct H as (z & Hz & ->). unfold py_int. by rewrite Hz.
    + destruct H as (x & Hx & ->). unfold py_float. by rewrite Hx.
Qed.

Lemma spec_general_value_reads (i : nat) (line k : str) (v : number) :
  split SP line !! 0 = Some k →
  spec_general_value i line = inr v ↔ reads_value (i =? 6) line k v.
Proof.
  intros Hk. unfold spec_general_value.
  rewrite <- (spec_second_token_reads (i =? 6) line k v Hk). by destruct (i =? 6).
Qed.

Lemma spec_float_value_reads (i : nat) (line k : str) (v : number) :
  split SP line !! 0 = Some k →
  spec_float_value i line = inr v ↔ reads_value false line k v.
Proof. intros Hk. apply (spec_second_token_reads false line k v Hk). Qed.

Lemma in_general_lines i : in_general i = true ↔ general_lines i.
Proof.
  unfold in_general, general_lines. rewrite andb_true_iff, !Nat.leb_le. done.
Qed.

Lemma in_total_lines i : in_total i = true ↔ total_lines i.
Proof.
  unfold in_total, total_lines.
  rewrite !andb_true_iff, !Nat.leb_le, negb_true_iff, Nat.eqb_neq. lia.
Qed.

Lemma in_network_lines i : in_network i = true ↔ network_lines i.
Proof.
  unfold in_network, network_lines.
  rewrite !andb_true_iff, !Nat.leb_le, negb_true_iff, Nat.eqb_neq. lia.
Qed.

Lemma dict_comp_section_of (value : nat → str → Res number) (keep : nat → bool)
    (inc : nat → Prop) (as_int : nat → bool) (lines : list str) (g : gmap str number) :
  (∀ i, keep i = true ↔ inc i) →
  (∀ i line k v, split SP line !! 0 = Some k →
                 value i line = inr v ↔ reads_value (as_int i) line k v) →
  dict_comp value keep (enumerate lines) ∅ = inr g →
  section_of inc as_int lines g.
Proof.
  intros Hkeep Hval H k v. rewrite (dict_comp_section _ _ _ _ H). split.
  - intros (i & line & Hl & Hi & Hk & Hv & Hlater). exists i, line.
    split; [done|]. split; [by apply Hkeep|]. split; [by apply (Hval _ _ _ _ Hk)|].
    intros j l Hj Hinc. apply Hlater; [done|]. by apply Hkeep.
  - intros (i & line & Hl & Hi & Hv & Hlater). exists i, line.
    assert (split SP line !! 0 = Some k) as Hk by (by destruct Hv as (? & ? & _)).
    split; [done|]. split; [by apply Hkeep|]. split; [done|].
    split; [by apply (Hval _ _ _ _ Hk)|].
    intros j l Hj Hinc. apply Hlater; [done|]. by apply Hkeep.
Qed.

Lemma summary_dict_lookup (g t n : gmap str number) :
  summary_dict g t n !! lit "general_output" = Some g
  ∧ summary_dict g t n !! lit "total_output" = Some t
  ∧ summary_dict g t n !! lit "network_accessible_output" = Some n
  ∧ ∀ s, is_Some (summary_dict g t n !! s) →
         s = lit "general_output" ∨ s = lit "total_output"
         ∨ s = lit "network_accessible_output".
Proof.
  assert (lit "general_output" ≠ lit "total_output") as H1
    by (intros H; vm_compute in H; discriminate H).
  assert (lit "general_output" ≠ lit "network_accessible_output") as H2
    by (intros H; vm_compute in H; discriminate H).
  assert (lit "total_output" ≠ lit "network_accessible_output") as H3
    by (intros H; vm_compute in H; discriminate H).
  unfold summary_dict. split; [apply lookup_insert_eq|]. split; [|split].
  - rewrite lookup_insert_ne by done. apply lookup_insert_eq.
  - rewrite !lookup_insert_ne by done. apply lookup_insert_eq.
  - intros s Hs.
    destruct (decide (s = lit "general_output")) as [|N1]; [by left|].
    destruct (decide (s = lit "total_output")) as [|N2]; [by right; left|].
    destruct (decide (s = lit "network_accessible_output")) as [|N3]; [by right; right|].
    rewrite !lookup_insert_ne, lookup_empty in Hs by done. by destruct Hs.
Qed.

Lemma enumerate_lookup (lines : list str) i line :
  (i, line) ∈ enumerate lines → lines !! i = Some line.
Proof.
  rewrite enumerate_enum_from, enum_from_elem, Nat.sub_0_r. by intros [_ ?].
Qed.

Lemma spec_parse_summary_returns (lines : list str) :
  (∃ name d, spec_parse_summary lines = inr (name, d))
  ↔ lines ≠ []
    ∧ ∀ i line, lines !! i = Some line →
        general_lines i ∨ total_lines i ∨ network_lines i →
        ∃ k v, reads_value (i =? 6) line k v.
Proof.
  unfold spec_parse_summary. split.
  - intros (name & d & H).
    apply rbind_inr in H as (name' & Hname & H).
    apply rbind_inr in H as (g & Hg & H).
    apply rbind_inr in H as (t & Ht & H).
    apply rbind_inr in H as (n & Hn & _).
    split; [by intros ->|].
    intros i line Hl Hinc. destruct (split_first_token line) as [k Hk]. exists k.
    pose proof (enumerate_elem _ _ _ Hl) as Hin.
    destruct Hinc as [Hi|[Hi|Hi]].
    + apply in_general_lines in Hi.
      destruct (dict_comp_returned _ _ _ _ _ _ _ Hg Hin Hi) as [v Hv].
      exists v. by apply spec_general_value_reads.
    + assert ((i =? 6) = false) as -> by (apply Nat.eqb_neq; unfold total_lines in Hi; lia).
      apply in_total_lines in Hi.
      destruct (dict_comp_returned _ _ _ _ _ _ _ Ht Hin Hi) as [v Hv].
      exists v. by apply (spec_float_value_reads i).
    + assert ((i =? 6) = false) as -> by (apply Nat.eqb_neq; unfold network_lines in Hi; lia).
      apply in_network_lines in Hi.
      destruct (dict_comp_returned _ _ _ _ _ _ _ Hn Hin Hi) as [v Hv].
      exists v. by apply (spec_float_value_reads i).
  - intros [Hne Hall]. destruct lines as [|name lines]; [done|].
    set (ls := name :: lines) in *. change (index ls 0) with (@inr exn str name).
    cbn [rbind].
    destruct (dict_comp_returns spec_general_value in_general (enumerate ls) ∅) as [g ->].
    { intros i line Hl%enumerate_lookup Hi%in_general_lines.
      destruct (Hall i line Hl) as (k & v & Hv); [by left|].
      exists v. apply (spec_general_value_reads i line k); [|done].
      by destruct Hv as (? & ? & _). }
    cbn [rbind].
    destruct (dict_comp_returns spec_float_value in_total (enumerate ls) ∅) as [t ->].
    { intros i line Hl%enumerate_lookup Hi%in_total_lines.
      destruct (Hall i line Hl) as (k & v & Hv); [by right; left|].
      assert ((i =? 6) = false) as E by (apply Nat.eqb_neq; unfold total_lines in Hi; lia).
      rewrite E in Hv. exists v. apply (spec_float_value_reads i line k); [|done].
      by destruct Hv as (? & ? & _). }
    cbn [rbind].
    destruct (dict_comp_returns spec_float_value in_network (enumerate ls) ∅) as [n ->].
    { intros i line Hl%enumerate_lookup Hi%in_network_lines.
      destruct (Hall i line Hl) as (k & v & Hv); [by right; right|].
      assert ((i =? 6) = false) as E by (apply Nat.eqb_neq; unfold network_lines in Hi; lia).
      rewrite E in Hv. exists v. apply (spec_float_value_reads i line k); [|done].
      by destruct Hv as (? & ? & _). }
    cbn [rbind]. by eexists _, _.
Qed.

Lemma spec_parse_summary_content (lines : list str) (name : str)
    (d : gmap str (gmap str number)) :
  spec_parse_summary lines = inr (name, d) →
  lines !! 0 = Some name
  ∧ ∃ g t n,
      d = summary_dict g t n
      ∧ section_of general_lines (λ i, i =? 6) lines g
      ∧ section_of total_lines (λ _, false) lines t
      ∧ section_of network_lines (λ _, false) lines n.
Proof.
  unfold spec_parse_summary. intros H.
  apply rbind_inr in H as (name' & Hname & H).
  apply rbind_inr in H as (g & Hg & H).
  apply rbind_inr in H as (t & Ht & H).
  apply rbind_inr in H as (n & Hn & [= <- <-]).
  split.
  { unfold index in Hname. by destruct (lines !! 0); simplify_eq. }
  exists g, t, n. split; [done|]. split; [|split].
  - eapply dict_comp_section_of; [apply in_general_lines| |exact Hg].
    intros i line k v. apply spec_general_value_reads.
  - eapply dict_comp_section_of; [apply in_total_lines| |exact Ht].
    intros i line k v. apply (spec_float_value_reads i).
  - eapply dict_comp_section_of; [apply in_network_lines| |exact Hn].
    intros i line k v. apply (spec_float_value_reads i).
Qed.


(** C1. Summary parsing follows the line-index schema.  Line 0 is
    [input_file_name].  The summary has the three sections
    [general_output], [total_output] and [network_accessible_output] and
    no other key.  [general_output] holds, for the lines 1 to 6, the first
    token of the line as name and the second token as value, read with
    [float], except on line 6 (local index 5), where it is read with
    [int]; [total_output] holds the same for the lines 8 to 18 without
    line 11 (local index 3) and [network_accessible_output] for the lines
    from 20 on without line 23 (local index 3), all read with [float]; of
    several lines with one name the last one counts.  Parsing returns
    exactly when the file has a first line and each of these lines has a
    second token that [float], or [int] on line 6, accepts; otherwise it
    raises [IndexError] or [ValueError]. *)
Theorem parse_summary_schema (paths : gmap string string) (w : World)
    (path : string) (raw : str) :
  paths !! "summary"%string = Some path →
  files w !! path = Some raw →
  let lines := splitlines (universal_newlines raw) in
  ∃ r, parse_summary paths w = (w, r)
    ∧ r = spec_parse_summary lines
    ∧ (∀ name d, r = inr (name, d) →
         lines !! 0 = Some name
         ∧ ∃ g t n,
             d !! lit "general_output" = Some g
             ∧ d !! lit "total_output" = Some t
             ∧ d !! lit "network_accessible_output" = Some n
             ∧ (∀ s, is_Some (d !! s) →
                     s = lit "general_output" ∨ s = lit "total_output"
                     ∨ s = lit "network_accessible_output")
             ∧ section_of general_lines (λ i, i =? 6) lines g
             ∧ section_of total_lines (λ _, false) lines t
             ∧ section_of network_lines (λ _, false) lines n)
    ∧ ((∃ name d, r = inr (name, d))
       ↔ lines ≠ []
         ∧ ∀ i line, lines !! i = Some line →
             general_lines i ∨ total_lines i ∨ network_lines i →
             ∃ k v, reads_value (i =? 6) line k v)
    ∧ (∀ e, r = inl e → e = IndexError ∨ e = ValueError).
Proof.
  intros Hp Hf lines. exists (spec_parse_summary lines).
  split; [by rewrite (parse_summary_run _ _ _ _ Hp Hf), parse_summary_lines_spec|].
  split; [done|]. split; [|split].
  - intros name d Hd.
    destruct (spec_parse_summary_content _ _ _ Hd) as (Hname & g & t & n & -> & Hg & Ht & Hn).
    split; [done|]. exists g, t, n.
    destruct (summary_dict_lookup g t n) as (? & ? & ? & ?). done.
  - apply spec_parse_summary_returns.
  - intros e He. rewrite <- parse_summary_lines_spec in He.
    by apply (parse_summary_lines_error lines).
Qed.

(** C2. PSD parsing reads the cumulative table after 3 lines and the
    other table after 1 line and joins them on [d], with the key in one
    column.  The rows of the result are exactly these: for a key that
    occurs in both tables, a row with the key and both values; for a row
    of the cumulative table whose key does not occur in the other table,
    the row with a null derivative; for a row of the other table whose
    key does not occur in the cumulative table, the row with a null
    volume fraction (a null key occurs in no other table).  So the keys
    of the result are the keys of the two tables, and when neither table
    has a key twice the result has no key twice. *)
Theorem parse_psds_full_join (paths : gmap string string) (w : World)
    (pc pd : string) (rawc rawd : str)
    (rc rd : list (option psd_key * option psd_value)) :
  paths !! "psd_cum"%string = Some pc →
  paths !! "psd"%string = Some pd →
  files w !! pc = Some rawc →
  files w !! pd = Some rawd →
  scan_two_columns (skip_lines 3 rawc) = Some rc →
  scan_two_columns (skip_lines 1 rawd) = Some rd →
  ∃ tab,
    parse_psds paths w = (w, inr tab)
    ∧ columns tab = ["d"; "Volume Fraction"; "Derivative_dist"]%string
    ∧ (∀ d, d ∈ key_of <$> rows tab ↔ d ∈ fst <$> rc ∨ d ∈ fst <$> rd)
    ∧ (∀ row, row ∈ rows tab →
         (key_of row ∉ fst <$> rd → row.2 = None)
         ∧ (key_of row ∉ fst <$> rc → row.1.2 = None))
    ∧ (∀ d vc vd, (Some d, vc) ∈ rc → (Some d, vd) ∈ rd →
                  (Some d, vc, vd) ∈ rows tab)
    ∧ (∀ row, row ∈ rows tab ↔
         (∃ d vc vd, (Some d, vc) ∈ rc ∧ (Some d, vd) ∈ rd ∧ row = (Some d, vc, vd))
         ∨ (∃ k vc, (k, vc) ∈ rc ∧ (∀ d, k = Some d → Some d ∉ fst <$> rd)
                    ∧ row = (k, vc, None))
         ∨ (∃ k vd, (k, vd) ∈ rd ∧ (∀ d, k = Some d → Some d ∉ fst <$> rc)
                    ∧ row = (k, None, vd)))
    ∧ (NoDup (fst <$> rc) → NoDup (fst <$> rd) →
       (None ∉ fst <$> rc) ∨ (None ∉ fst <$> rd) →
       NoDup (key_of <$> rows tab)).
Proof.
  intros Hpc Hpd Hfc Hfd Hc Hd.
  rewrite (parse_psds_run _ _ _ _ _ _ Hpc Hpd Hfc Hfd), Hc, Hd.
  eexists. split; [done|]. split; [done|]. cbn [rows join_full].
  split; [apply join_rows_keys|]. split; [|split; [|split]].
  - intros row Hrow. split.
    + by apply (join_rows_null_right rc rd).
    + by apply (join_rows_null_left rc rd).
  - intros d vc vd Hl Hr. apply elem_of_join_rows_by_key. left. by exists d, vc, vd.
  - intros row. apply elem_of_join_rows_by_key.
  - apply join_rows_keys_NoDup.
Qed.

(** C3. Construction never raises because a file is absent: an exception
    of [__init__] is one that a parser raises on the content of a file
    that exists.  The PSD table is parsed only when both PSD files exist.
    Over a directory that holds the occupied-volume file alone,
    construction yields the table parsed from that file (from its cleaned
    content when [clean] is set) with an empty PSD table, an empty summary
    and an empty [input_file_name]. *)
Theorem init_absent_files (clean_flag : bool) (w : World) :
  (∀ e, (init clean_flag w).2 = inl e →
        e = PolarsError ∨ e = IndexError ∨ e = ValueError)
  ∧ (∀ r, (init clean_flag w).2 = inr r →
          files w !! "Total_psd.txt"%string = None
          ∨ files w !! "Total_psd_cumulative.txt"%string = None →
          psd r = empty_frame)
  ∧ (∀ raw, files w = {[ "probe_occupiable_volume.xyz"%string := raw ]} →
       let content :=
         if clean_flag then clean_occup_vol_text (universal_newlines raw) else raw in
       match scan_occup_vol (skip_lines 2 content) with
       | Some rs =>
           ∃ r, (init clean_flag w).2 = inr r
                ∧ occup_vol r = mkDataFrame ["Particle"; "x"; "y"; "z"]%string rs
                ∧ psd r = empty_frame ∧ summary r = ∅ ∧ input_file_name r = []
       | None => (init clean_flag w).2 = inl PolarsError
       end).
Proof.
  assert (∃ w', registry_sound (registry_of w) w'
                ∧ init clean_flag w = parsing (registry_of w) w'
                ∧ (if clean_flag then clean (registry_of w) w = (w', inr tt) else w' = w))
    as (w' & Hs & Ei & Ec).
  { destruct clean_flag.
    - destruct (init_run_clean w) as (w' & ? & ? & ?). eauto.
    - exists w. split; [apply registry_of_sound|done]. }
  rewrite Ei. split; [|split].
  - intros e. by apply parsing_error.
  - intros r Hr Habs. rewrite (parsing_run _ _ Hs) in Hr. cbn [snd] in Hr.
    unfold parsed_run in Hr.
    apply rbind_inr in Hr as (tab & Ht & Hr).
    apply rbind_inr in Hr as (parsed & _ & Hr).
    apply rbind_inr in Hr as (occ & _ & [= <-]). cbn [psd].
    unfold parsed_psd in Ht. rewrite !registry_of_lookup in Ht.
    rewrite possible_paths_psd, possible_paths_psd_cum in Ht.
    destruct Habs as [-> | ->] in Ht; [congruence|]. case_match; congruence.
  - intros raw Hw content.
    assert (registry_of w !! "psd"%string = None) as Hpsd.
    { by rewrite registry_of_lookup, possible_paths_psd, Hw, lookup_singleton_ne. }
    assert (registry_of w !! "psd_cum"%string = None) as Hcum.
    { by rewrite registry_of_lookup, possible_paths_psd_cum, Hw, lookup_singleton_ne. }
    assert (registry_of w !! "summary"%string = None) as Hsum.
    { by rewrite registry_of_lookup, possible_paths_summary, Hw, lookup_singleton_ne. }
    assert (registry_of w !! "occup_vol"%string
            = Some "probe_occupiable_volume.xyz"%string) as Hocc.
    { by rewrite registry_of_lookup, possible_paths_occup_vol, Hw, lookup_singleton_eq. }
    assert (files w' !! "probe_occupiable_volume.xyz"%string = Some content) as Hc.
    { destruct clean_flag.
      - unfold clean in Ec.
        apply mem_false in Hpsd as Hm1. apply mem_false in Hcum as Hm2.
        rewrite Hm1, Hm2 in Ec. unfold bind at 1 in Ec. cbn [ret] in Ec.
        unfold bind at 1 in Ec. cbn [ret] in Ec. unfold bind in Ec.
        rewrite (clean_summary_absent _ _ Hsum) in Ec.
        rewrite (clean_occup_vol_run _ _ raw _ Hocc) in Ec
          by (rewrite Hw; apply lookup_singleton_eq).
        injection Ec as <-. apply lookup_insert_eq.
      - subst w'. rewrite Hw. apply lookup_singleton_eq. }
    rewrite (parsing_run _ _ Hs). cbn [snd].
    unfold parsed_run, parsed_psd, parsed_summary, parsed_occup_vol.
    rewrite Hpsd, Hsum, Hocc, Hc. cbn [rbind mbind option_bind].
    destruct (scan_occup_vol (skip_lines 2 content)) as [rs|]; [|done].
    cbn [rbind]. eexists. split; [reflexivity|].
    cbn [occup_vol psd summary input_file_name fst snd]. repeat split; reflexivity.
Qed.


(** C8. Construction with [clean=False] writes nothing: the directory
    after construction is the directory before it, with every file
    content unchanged, nothing written and nothing printed, and the
    result is what the parsers give on the contents as they are in the
    directory. *)
Theorem init_without_clean (w : World) :
  (init false w).1 = w
  ∧ (init false w).2 = parsed_run (registry_of w) w.
Proof.
  rewrite init_run_no_clean, (parsing_run _ _ (registry_of_sound w)). done.
Qed.

End RunFacts.

(** ** The registry and [clean] on a whole directory *)

Lemma size_possible_paths : size possible_paths = 8.
Proof. vm_compute. reflexivity. Qed.

Lemma get_paths_run (w : World) : get_paths w = (w, inr (registry_of w)).
Proof. unfold get_paths, registry_of. reflexivity. Qed.

Lemma registry_of_subseteq (w : World) : registry_of w ⊆ possible_paths.
Proof. unfold registry_of. apply map_filter_subseteq. Qed.

Lemma registry_of_size (w : World) : size (registry_of w) ≤ 8.
Proof.
  pose proof (map_subseteq_size _ _ (registry_of_subseteq w)) as H.
  rewrite size_possible_paths in H. exact H.
Qed.

Lemma registry_of_present w k p :
  possible_paths !! k = Some p → is_Some (files w !! p) → registry_of w !! k = Some p.
Proof.
  intros Hk [raw Hraw]. rewrite registry_of_lookup, Hk, Hraw. reflexivity.
Qed.

Lemma registry_of_absent w k p :
  possible_paths !! k = Some p → files w !! p = None → registry_of w !! k = None.
Proof.
  intros Hk Hraw. rewrite registry_of_lookup, Hk, Hraw. reflexivity.
Qed.

(** X1.  [__get_paths] leaves the directory as it is and returns a registry
    that is part of the table of the eight known files: a key of the
    table is registered exactly when its file exists, so the registry has
    at most eight entries and names no file that does not exist. *)
Theorem get_paths_registry (w : World) :
  ∃ r, get_paths w = (w, inr r)
    ∧ r ⊆ possible_paths
    ∧ (∀ k p, possible_paths !! k = Some p →
              (is_Some (files w !! p) → r !! k = Some p)
              ∧ (files w !! p = None → r !! k = None))
    ∧ size r ≤ 8
    ∧ ∀ k p, r !! k = Some p → is_Some (files w !! p).
Proof.
  exists (registry_of w). split; [apply get_paths_run|].
  split; [apply registry_of_subseteq|]. split; [|split].
  - intros k p Hk. split.
    + by apply registry_of_present.
    + by apply registry_of_absent.
  - apply registry_of_size.
  - apply registry_of_sound.
Qed.

Lemma insert_as_alter (f : str → str) (m : gmap string str) p raw :
  m !! p = Some raw → <[p := f raw]> m = alter f p m.
Proof.
  intros Hp. apply map_eq. intros i. destruct (decide (p = i)) as [<-|Hne].
  - by rewrite lookup_insert_eq, lookup_alter_eq, Hp.
  - by rewrite lookup_insert_ne, lookup_alter_ne.
Qed.

Lemma alter_absent (f : str → str) (m : gmap string str) p :
  m !! p = None → alter f p m = m.
Proof.
  intros Hp. apply map_eq. intros i. destruct (decide (p = i)) as [<-|Hne].
  - by rewrite lookup_alter_eq, Hp.
  - by rewrite lookup_alter_ne.
Qed.

Lemma registered_files r k p w w' f q :
  registered r k p w → files w' = alter f q (files w) → registered r k p w'.
Proof.
  intros [[Hk Hf]|[Hk Hf]] E; [left|right]; (split; [done|]); rewrite E.
  - by apply lookup_alter_is_Some.
  - by apply lookup_alter_None.
Qed.

Lemma clean_psds_step r k p w :
  registered r k p w →
  ∃ w', (if mem k r then path <- getitem r k ;; clean_psds path else ret tt) w
        = (w', inr tt)
    ∧ files w' = alter (λ raw, clean_psds_text (universal_newlines raw)) p (files w)
    ∧ stdout w' = stdout w.
Proof.
  intros [[Hk [raw Hf]]|[Hk Hf]].
  - assert (mem k r = true) as -> by (apply mem_true; by eexists).
    unfold bind. rewrite (getitem_run _ _ _ _ Hk), (clean_psds_run _ _ _ Hf).
    eexists. split; [reflexivity|]. split; [|reflexivity].
    cbn [files written]. by apply (insert_as_alter (λ raw, clean_psds_text (universal_newlines raw))).
  - assert (mem k r = false) as -> by by apply mem_false.
    exists w. split; [reflexivity|]. split; [|reflexivity]. by rewrite alter_absent.
Qed.

Lemma clean_summary_step r p w :
  registered r "summary" p w →
  ∃ w', clean_summary r w = (w', inr tt)
    ∧ files w' = alter (cleaned_content "summary.dat") p (files w).
Proof.
  intros [[Hk [raw Hf]]|[Hk Hf]].
  - rewrite (clean_summary_run _ _ _ _ Hk Hf). cbv zeta.
    assert (cleaned_content "summary.dat" raw
            = if contains [COMMA] (universal_newlines raw) then raw
              else join [LF] (cleaned_line
                     <$> splitlines (summary_prepare (universal_newlines raw)))) as Hc
      by reflexivity.
    destruct (contains [COMMA] (universal_newlines raw)).
    + exists w. split; [reflexivity|].
      rewrite <- (insert_as_alter _ _ _ _ Hf), Hc. symmetry. by apply insert_id.
    + eexists. split; [reflexivity|]. cbn [files written printed].
      rewrite <- (insert_as_alter _ _ _ _ Hf), Hc. reflexivity.
  - rewrite (clean_summary_absent _ _ Hk). exists w. split; [reflexivity|].
    by rewrite alter_absent.
Qed.

Lemma clean_occup_vol_step r p w :
  registered r "occup_vol" p w →
  ∃ w', clean_occup_vol r w = (w', inr tt)
    ∧ files w' = alter (λ raw, clean_occup_vol_text (universal_newlines raw)) p (files w).
Proof.
  intros [[Hk [raw Hf]]|[Hk Hf]].
  - rewrite (clean_occup_vol_run _ _ _ _ Hk Hf).
    eexists. split; [reflexivity|]. cbn [files written].
    by apply (insert_as_alter (λ raw, clean_occup_vol_text (universal_newlines raw))).
  - rewrite (clean_occup_vol_absent _ _ Hk). exists w. split; [reflexivity|].
    by rewrite alter_absent.
Qed.

Lemma registry_of_registered w k p :
  possible_paths !! k = Some p → registered (registry_of w) k p w.
Proof.
  intros Hk. destruct (files w !! p) as [raw|] eqn:Hf; [left|right].
  - split; [|by eexists]. apply (registry_of_present _ _ _ Hk). by eexists.
  - split; [|done]. by apply (registry_of_absent _ _ _ Hk).
Qed.

Lemma cleaned_content_psd_cum raw :
  cleaned_content "Total_psd_cumulative.txt" raw = clean_psds_text (universal_newlines raw).
Proof. reflexivity. Qed.

Lemma cleaned_content_psd raw :
  cleaned_content "Total_psd.txt" raw = clean_psds_text (universal_newlines raw).
Proof. reflexivity. Qed.

Lemma cleaned_content_occup_vol raw :
  cleaned_content "probe_occupiable_volume.xyz" raw
  = clean_occup_vol_text (universal_newlines raw).
Proof. reflexivity. Qed.

Lemma cleaned_content_other name raw :
  name ≠ "Total_psd_cumulative.txt"%string → name ≠ "Total_psd.txt"%string →
  name ≠ "summary.dat"%string → name ≠ "probe_occupiable_volume.xyz"%string →
  cleaned_content name raw = raw.
Proof.
  intros H1 H2 H3 H4. unfold cleaned_content. by rewrite !bool_decide_false.
Qed.

Lemma clean_registry_files (w : World) :
  ∃ w', clean (registry_of w) w = (w', inr tt)
    ∧ ∀ name, files w' !! name = cleaned_content name <$> files w !! name.
Proof.
  pose proof (registry_of_registered w _ _ possible_paths_psd_cum) as R1.
  pose proof (registry_of_registered w _ _ possible_paths_psd) as R2.
  pose proof (registry_of_registered w _ _ possible_paths_summary) as R3.
  pose proof (registry_of_registered w _ _ possible_paths_occup_vol) as R4.
  destruct (clean_psds_step _ _ _ _ R1) as (w1 & E1 & F1 & _).
  pose proof (registered_files _ _ _ _ _ _ _ R2 F1) as R2'.
  pose proof (registered_files _ _ _ _ _ _ _ R3 F1) as R3'.
  pose proof (registered_files _ _ _ _ _ _ _ R4 F1) as R4'.
  destruct (clean_psds_step _ _ _ _ R2') as (w2 & E2 & F2 & _).
  pose proof (registered_files _ _ _ _ _ _ _ R3' F2) as R3''.
  pose proof (registered_files _ _ _ _ _ _ _ R4' F2) as R4''.
  destruct (clean_summary_step _ _ _ R3'') as (w3 & E3 & F3).
  pose proof (registered_files _ _ _ _ _ _ _ R4'' F3) as R4'''.
  destruct (clean_occup_vol_step _ _ _ R4''') as (w4 & E4 & F4).
  exists w4. split.
  { unfold clean. unfold bind at 1. rewrite E1. unfold bind at 1. rewrite E2.
    unfold bind at 1. by rewrite E3. }
  intros name. rewrite F4, F3, F2, F1.
  destruct (decide (name = "Total_psd_cumulative.txt"%string)) as [->|N1].
  { do 3 (rewrite lookup_alter_ne by discriminate). rewrite lookup_alter_eq.
    by destruct (files w !! _). }
  destruct (decide (name = "Total_psd.txt"%string)) as [->|N2].
  { do 2 (rewrite lookup_alter_ne by discriminate). rewrite lookup_alter_eq.
    rewrite lookup_alter_ne by discriminate. by destruct (files w !! _). }
  destruct (decide (name = "summary.dat"%string)) as [->|N3].
  { rewrite lookup_alter_ne by discriminate. rewrite lookup_alter_eq.
    do 2 (rewrite lookup_alter_ne by discriminate). reflexivity. }
  destruct (decide (name = "probe_occupiable_volume.xyz"%string)) as [->|N4].
  { rewrite lookup_alter_eq. do 3 (rewrite lookup_alter_ne by discriminate).
    by destruct (files w !! _). }
  do 4 (rewrite lookup_alter_ne by congruence).
  destruct (files w !! name) as [raw|]; [|reflexivity]. cbn [fmap option_fmap option_map].
  by rewrite cleaned_content_other.
Qed.

(** X2.  [clean], run on the registry of the directory, returns without an
    exception, and the content of every file afterwards is determined by
    the file's name and its content before: the two PSD files hold their
    text with the spaces cleaned, the summary file holds its repaired
    lines unless it had a comma, the occupied-volume file holds its
    stripped lines, and every other file is as it was. *)
Theorem clean_directory (w : World) :
  ∃ w', clean (registry_of w) w = (w', inr tt)
    ∧ (∀ name, files w' !! name = cleaned_content name <$> files w !! name)
    ∧ (∀ name raw,
         name ∉ ["Total_psd_cumulative.txt"; "Total_psd.txt"; "summary.dat";
                  "probe_occupiable_volume.xyz"]%string →
         files w !! name = Some raw → files w' !! name = Some raw).
Proof.
  destruct (clean_registry_files w) as (w' & E & F). exists w'.
  split; [done|]. split; [done|].
  intros name raw Hn Hf. rewrite F, Hf. cbn. f_equal.
  rewrite !not_elem_of_cons in Hn. destruct Hn as (? & ? & ? & ? & _).
  by apply cleaned_content_other.
Qed.

Lemma registry_of_ext (w w' : World) :
  (∀ name, is_Some (files w' !! name) ↔ is_Some (files w !! name)) →
  registry_of w' = registry_of w.
Proof.
  intros H. apply map_eq. intros k. rewrite !registry_of_lookup.
  destruct (possible_paths !! k) as [p|]; [|done].
  specialize (H p). destruct (files w' !! p), (files w !! p); try done.
  - destruct H as [H _]. by destruct H as [? [=]].
  - destruct H as [_ H]. by destruct H as [? [=]].
Qed.

Lemma clean_registry_stable (w : World) :
  ∃ w', clean (registry_of w) w = (w', inr tt)
    ∧ dom (files w') = dom (files w)
    ∧ registry_of w' = registry_of w.
Proof.
  destruct (clean_registry_files w) as (w' & E & F). exists w'. split; [done|].
  assert (∀ name, is_Some (files w' !! name) ↔ is_Some (files w !! name)) as H.
  { intros name. rewrite F. apply fmap_is_Some. }
  split; [|by apply registry_of_ext].
  apply set_eq. intros name. by rewrite !elem_of_dom.
Qed.

(** X3.  [clean], run on the registry that [__get_paths] built, raises no
    exception, creates no file and deletes none: the files of the
    directory are the same afterwards and [__get_paths] would build the
    same registry again. *)
Theorem clean_keeps_the_registry (w : World) :
  ∃ w', clean (registry_of w) w = (w', inr tt)
    ∧ dom (files w') = dom (files w)
    ∧ get_paths w' = (w', inr (registry_of w)).
Proof.
  destruct (clean_registry_stable w) as (w' & E & D & R). exists w'.
  split; [done|]. split; [done|]. by rewrite get_paths_run, R.
Qed.

Lemma skip_lines_0 t : skip_lines 0 t = t.
Proof. by destruct t. Qed.

Lemma skip_lines_filter n : ∀ t,
  skip_lines n (filter (λ c, c ≠ SP) t) = filter (λ c, c ≠ SP) (skip_lines n t).
Proof.
  destruct n as [|n]; [intros t; by rewrite !skip_lines_0|].
  revert n. intros n t. revert n.
  induction t as [|c t IH]; intros n; [done|].
  cbn [skip_lines]. destruct (Ascii.eqb c LF) eqn:E.
  - apply Ascii.eqb_eq in E as ->. rewrite filter_not_space_lf.
    cbn [skip_lines]. rewrite Ascii.eqb_refl.
    destruct n as [|n]; [by rewrite !skip_lines_0|]. apply IH.
  - rewrite filter_cons. destruct (decide (c ≠ SP)).
    + cbn [skip_lines]. rewrite E. apply IH.
    + apply IH.
Qed.

(** X14.  Cleaning a PSD file that has no carriage return does not move
    the lines that [read_csv] skips: what the file holds after its first
    [n] line feeds is, spaces apart, the same after [__clean_psds] has
    rewritten the file as before. *)
Theorem clean_psds_keeps_skipped_lines (p : string) (raw : str) (n : nat)
    (w : World) :
  files w !! p = Some raw →
  CR ∉ raw →
  ∃ out, files (clean_psds p w).1 !! p = Some out
    ∧ filter (λ c, c ≠ SP) (skip_lines n out)
      = filter (λ c, c ≠ SP) (skip_lines n raw).
Proof.
  intros Hf Hcr. rewrite (clean_psds_run _ _ _ Hf), (universal_newlines_id _ Hcr).
  eexists. split; [apply lookup_insert_eq|].
  rewrite <- !skip_lines_filter. f_equal.
  apply (psd_loop_filter (S (length raw))), clean_psds_text_run. lia.
Qed.

(** ** Exceptions of [clean] *)

Lemma file_error_only_ret : file_error_only (ret tt).
Proof. intros w. exists w. by left. Qed.

Lemma file_error_only_bind (m : M unit) (k : unit → M unit) :
  file_error_only m → (∀ u, file_error_only (k u)) → file_error_only (bind m k).
Proof.
  intros Hm Hk w. unfold bind. destruct (Hm w) as (w1 & [-> | ->]).
  - apply Hk.
  - exists w1. by right.
Qed.

Lemma clean_psds_file_error p : file_error_only (clean_psds p).
Proof.
  intros w. destruct (files w !! p) as [raw|] eqn:Hf.
  - rewrite (clean_psds_run _ _ _ Hf). eexists. by left.
  - exists w. right. unfold clean_psds, read_text, read_raw, bind. by rewrite Hf.
Qed.

Lemma guarded_clean_psds_file_error (paths : gmap string string) k :
  file_error_only (if mem k paths then path <- getitem paths k ;; clean_psds path
                   else ret tt).
Proof.
  destruct (mem k paths) eqn:E; [|apply file_error_only_ret].
  apply mem_true in E as [p Hp]. intros w.
  assert ((path <- getitem paths k ;; clean_psds path) w = clean_psds p w) as ->.
  { unfold bind at 1. by rewrite (getitem_run _ _ _ _ Hp). }
  apply clean_psds_file_error.
Qed.

Lemma clean_summary_file_error (paths : gmap string string) :
  file_error_only (clean_summary paths).
Proof.
  intros w. destruct (paths !! "summary"%string) as [p|] eqn:Hp.
  - destruct (files w !! p) as [raw|] eqn:Hf.
    + rewrite (clean_summary_run _ _ _ _ Hp Hf). cbv zeta.
      destruct (contains _ _); eexists; by left.
    + exists w. right. unfold clean_summary.
      assert (mem "summary" paths = true) as -> by (apply mem_true; by eexists).
      cbn [negb]. unfold bind at 1. rewrite (getitem_run _ _ _ _ Hp).
      unfold read_text, read_raw, bind. by rewrite Hf.
  - rewrite (clean_summary_absent _ _ Hp). exists w. by left.
Qed.

Lemma clean_occup_vol_file_error (paths : gmap string string) :
  file_error_only (clean_occup_vol paths).
Proof.
  intros w. destruct (paths !! "occup_vol"%string) as [p|] eqn:Hp.
  - destruct (files w !! p) as [raw|] eqn:Hf.
    + rewrite (clean_occup_vol_run _ _ _ _ Hp Hf). eexists; by left.
    + exists w. right. unfold clean_occup_vol.
      assert (mem "occup_vol" paths = true) as -> by (apply mem_true; by eexists).
      cbn [negb]. unfold bind at 1. rewrite (getitem_run _ _ _ _ Hp).
      unfold read_text, read_raw, bind. by rewrite Hf.
  - rewrite (clean_occup_vol_absent _ _ Hp). exists w. by left.
Qed.

(** X15.  [clean] looks a key up in the registry only after it has found
    the key there: on any registry and any directory, also one whose
    files were removed after the registry was built, [clean] does not
    raise [KeyError]. *)
Theorem clean_never_raises_key_error (paths : gmap string string) (w : World) :
  (clean paths w).2 ≠ inl KeyError.
Proof.
  assert (file_error_only (clean paths)) as H.
  { unfold clean.
    apply file_error_only_bind; [apply guarded_clean_psds_file_error|intros _].
    apply file_error_only_bind; [apply guarded_clean_psds_file_error|intros _].
    apply file_error_only_bind; [apply clean_summary_file_error|intros _].
    apply clean_occup_vol_file_error. }
  destruct (H w) as (w' & [-> | ->]); cbn [snd]; discriminate.
Qed.

(** ** Further facts about parsing and construction *)

Section MoreRunFacts.

Context {py : PyBuiltins} {pl : PolarsReader}.

(** X9.  Constructing with [clean=True] is cleaning the directory and then
    constructing with [clean=False]: [clean] returns a directory, and the
    result of [__init__] with cleaning, object or exception, is its
    result without cleaning on that directory.  The cleaned directory is
    what is left behind, also when the parsing raises. *)
Theorem init_clean_then_parse (w : World) :
  ∃ w', clean (registry_of w) w = (w', inr tt)
    ∧ init true w = init false w'
    ∧ (init true w).1 = w'.
Proof.
  destruct (init_run_clean w) as (w' & E & Hs & Hi).
  destruct (clean_registry_stable w) as (w'' & E' & _ & R).
  rewrite E in E'. injection E' as <-.
  exists w'. split; [done|]. split.
  - by rewrite Hi, init_run_no_clean, R.
  - by rewrite Hi, (parsing_run _ _ Hs).
Qed.

Lemma dict_comp_lookup_inv (value : nat → str → Res number) (keep : nat → bool)
    (k : str) (v : number) (items : list (nat * str)) : ∀ (d d' : gmap str number),
  dict_comp value keep items d = inr d' →
  d' !! k = Some v →
  d !! k = Some v
  ∨ ∃ i line, (i, line) ∈ items ∧ keep i = true
              ∧ split SP line !! 0 = Some k ∧ value i line = inr v.
Proof.
  induction items as [|[i line] items IH]; intros d d' H Hv; cbn [dict_comp] in H.
  - injection H as <-. by left.
  - destruct (keep i) eqn:Ei.
    + apply rbind_inr in H as (k0 & Hk0 & H).
      apply rbind_inr in H as (v0 & Hv0 & H).
      destruct (IH _ _ H Hv) as [Hd|(j & l & Hj & Hkj & Hl & Hval)].
      * destruct (decide (k0 = k)) as [->|Hne].
        -- rewrite lookup_insert_eq in Hd. injection Hd as ->. right.
           exists i, line. split; [left|]. split; [done|]. split; [|done].
           unfold index in Hk0. by destruct (split SP line !! 0); simplify_eq.
        -- rewrite lookup_insert_ne in Hd by done. by left.
      * right. exists j, l. split; [by right|done].
    + destruct (IH _ _ H Hv) as [Hd|(j & l & Hj & Hkj & Hl & Hval)]; [by left|].
      right. exists j, l. split; [by right|done].
Qed.

(** X11.  In each dictionary comprehension of [__parse_summary], when several
    lines that are read have the same name, the value stored under the
    name is the value of the last of them; a name that no line read has
    is stored only if it was stored before. *)
Theorem dict_comp_last_wins (value : nat → str → Res number) (keep : nat → bool)
    (items : list (nat * str)) (d d' : gmap str number) (k : str) :
  dict_comp value keep items d = inr d' →
  (∀ xs i line ys,
     items = xs ++ (i, line) :: ys → keep i = true → split SP line !! 0 = Some k →
     (∀ j l, (j, l) ∈ ys → keep j = true → split SP l !! 0 ≠ Some k) →
     ∃ v, value i line = inr v ∧ d' !! k = Some v)
  ∧ ((∀ j l, (j, l) ∈ items → keep j = true → split SP l !! 0 ≠ Some k) →
     d' !! k = d !! k).
Proof.
  intros H. split; [|intros Hk; by apply (dict_comp_lookup_unread _ _ _ _ _ _ H)].
  intros xs i line ys -> Hi Hk Hys.
  rewrite dict_comp_app in H. apply rbind_inr in H as (d1 & _ & H).
  cbn [dict_comp] in H. rewrite Hi in H.
  apply rbind_inr in H as (k0 & Hk0 & H).
  apply rbind_inr in H as (v & Hv & H).
  unfold index in Hk0. rewrite Hk in Hk0. injection Hk0 as <-.
  exists v. split; [done|].
  rewrite (dict_comp_lookup_unread _ _ _ _ _ _ H Hys). apply lookup_insert_eq.
Qed.

Lemma dict_comp_insert_skipped (value : nat → str → Res number) (keep : nat → bool)
    (l' : str) (lines : list str) : ∀ (s i : nat) (d : gmap str number),
  keep (s + i) = false →
  dict_comp value keep (enum_from s (<[i := l']> lines)) d
  = dict_comp value keep (enum_from s lines) d.
Proof.
  induction lines as [|x lines IH]; intros s i d Hk; [done|].
  destruct i as [|i]; cbn [enum_from dict_comp].
  - rewrite Nat.add_0_r in Hk. change (<[0 := l']> (x :: lines)) with (l' :: lines).
    cbn [enum_from dict_comp]. by rewrite Hk.
  - change (<[S i := l']> (x :: lines)) with (x :: <[i := l']> lines).
    cbn [enum_from dict_comp]. rewrite Nat.add_succ_r in Hk.
    destruct (keep s); [|by apply IH].
    destruct (index (split SP x) 0) as [e|k0]; [done|]. cbn [rbind].
    destruct (value s x) as [e|v]; [done|]. cbn [rbind]. by apply IH.
Qed.

(** X12.  [__parse_summary] does not read the lines 7 and 19 nor the lines 11
    and 23 (local index 3 of the second and the third section): whatever
    stands there, the result, an exception included, is the same. *)
Theorem parse_summary_ignores_separators (lines : list str) (i : nat) (l' : str) :
  i = 7 ∨ i = 11 ∨ i = 19 ∨ i = 23 →
  parse_summary_lines (<[i := l']> lines) = parse_summary_lines lines.
Proof.
  intros Hi. rewrite !parse_summary_lines_spec. unfold spec_parse_summary.
  assert (index (<[i := l']> lines) 0 = index lines 0) as ->.
  { unfold index. rewrite list_lookup_insert_ne; [done|]. lia. }
  rewrite !enumerate_enum_from.
  assert (in_general i = false ∧ in_total i = false ∧ in_network i = false)
    as (Hg & Ht & Hn).
  { destruct Hi as [->|[->|[->| ->]]]; done. }
  destruct (index lines 0) as [e|name]; [done|]. cbn [rbind].
  rewrite (dict_comp_insert_skipped _ in_general _ _ 0 i) by done.
  destruct (dict_comp spec_general_value in_general (enum_from 0 lines) ∅)
    as [e|g]; [done|]. cbn [rbind].
  rewrite (dict_comp_insert_skipped _ in_total _ _ 0 i) by done.
  destruct (dict_comp spec_float_value in_total (enum_from 0 lines) ∅)
    as [e|t]; [done|]. cbn [rbind].
  by rewrite (dict_comp_insert_skipped _ in_network _ _ 0 i) by done.
Qed.



Lemma float_value_float i line v : float_value i line = inr v → ∃ x, v = NFloat x.
Proof.
  unfold float_value. intros (tok & _ & H)%rbind_inr. unfold py_float in H.
  destruct (float_of_str tok) as [x|]; [|done]. injection H as <-. by exists x.
Qed.

Lemma general_value_number i line v :
  general_value i line = inr v → (∃ x, v = NFloat x) ∨ (i = 5 ∧ ∃ z, v = NInt z).
Proof.
  unfold general_value. destruct (i =? 5) eqn:Ei; cbn [negb].
  - apply Nat.eqb_eq in Ei as ->. intros (tok & _ & H)%rbind_inr. unfold py_int in H.
    destruct (int_of_str tok) as [z|]; [|done]. injection H as <-. right. eauto.
  - intros (tok & _ & H)%rbind_inr. unfold py_float in H.
    destruct (float_of_str tok) as [x|]; [|done]. injection H as <-. left. eauto.
Qed.

Lemma dict_comp_floats (keep : nat → bool) (items : list (nat * str))
    (d : gmap str number) (k : str) (v : number) :
  dict_comp float_value keep items ∅ = inr d → d !! k = Some v → ∃ x, v = NFloat x.
Proof.
  intros H Hv.
  destruct (dict_comp_lookup_inv _ _ _ _ _ _ _ H Hv) as [He|(i & line & _ & _ & _ & Hval)].
  - by rewrite lookup_empty in He.
  - by apply float_value_float in Hval.
Qed.

(** X13.  The numbers of a parsed summary: every value of [total_output] and
    of [network_accessible_output] is a float, and a value of
    [general_output] is a float unless it is the integer read from line 6
    of the file, stored under the name on that line. *)
Theorem parse_summary_value_types (lines : list str) (name : str)
    (d : gmap str (gmap str number)) :
  parse_summary_lines lines = inr (name, d) →
  ∃ g t n, d = summary_dict g t n
    ∧ (∀ k v, t !! k = Some v → ∃ x, v = NFloat x)
    ∧ (∀ k v, n !! k = Some v → ∃ x, v = NFloat x)
    ∧ (∀ k v, g !! k = Some v →
         (∃ x, v = NFloat x)
         ∨ (∃ z line, v = NInt z ∧ lines !! 6 = Some line
                      ∧ split SP line !! 0 = Some k)).
Proof.
  unfold parse_summary_lines. intros H.
  apply rbind_inr in H as (name' & _ & H).
  apply rbind_inr in H as (g & Hg & H).
  apply rbind_inr in H as (t & Ht & H).
  apply rbind_inr in H as (n & Hn & [= _ <-]).
  exists g, t, n. split; [done|]. split; [|split].
  - intros k v. by apply (dict_comp_floats _ _ _ _ _ Ht).
  - intros k v. by apply (dict_comp_floats _ _ _ _ _ Hn).
  - intros k v Hv.
    destruct (dict_comp_lookup_inv _ _ _ _ _ _ _ Hg Hv)
      as [He|(i & line & Hi & _ & Hk & Hval)]; [by rewrite lookup_empty in He|].
    apply general_value_number in Hval as [Hx|[-> [z ->]]]; [by left|]. right.
    exists z, line. split; [done|]. split; [|done].
    rewrite enumerate_enum_from in Hi. apply enum_from_elem in Hi as [_ Hi].
    unfold slice in Hi. apply lookup_take_Some in Hi as [Hi _].
    by rewrite lookup_drop in Hi.
Qed.

(** X10.  The bounds of [__parse_summary]: on an empty summary file it raises
    [IndexError]; when it returns, the name is the first line and the
    summary has its three sections, of which [general_output] is empty
    when the file has one line, [total_output] when it has at most eight
    and [network_accessible_output] when it has at most twenty. *)
Theorem parse_summary_short_file (paths : gmap string string) (w : World)
    (path : string) (raw : str) :
  paths !! "summary"%string = Some path →
  files w !! path = Some raw →
  let lines := splitlines (universal_newlines raw) in
  (raw = [] → parse_summary paths w = (w, inl IndexError))
  ∧ (∀ name d, parse_summary paths w = (w, inr (name, d)) →
       lines !! 0 = Some name
       ∧ ∃ g t n, d = summary_dict g t n
           ∧ (length lines ≤ 1 → g = ∅)
           ∧ (length lines ≤ 8 → t = ∅)
           ∧ (length lines ≤ 20 → n = ∅)).
Proof.
  intros Hp Hf lines. rewrite (parse_summary_run _ _ _ _ Hp Hf). fold lines. split.
  - intros ->. reflexivity.
  - intros name d [= H]. unfold parse_summary_lines in H.
    apply rbind_inr in H as (name' & Hname & H).
    apply rbind_inr in H as (g & Hg & H).
    apply rbind_inr in H as (t & Ht & H).
    apply rbind_inr in H as (n & Hn & [= <- <-]).
    split.
    { unfold index in Hname. by destruct (lines !! 0); simplify_eq. }
    exists g, t, n. split; [done|]. unfold slice in Hg, Ht.
    split; [|split]; intros Hlen.
    + rewrite drop_ge in Hg by done. by injection Hg.
    + rewrite drop_ge in Ht by done. by injection Ht.
    + rewrite drop_ge in Hn by done. by injection Hn.
Qed.

End MoreRunFacts.


(** ** The builtins on examples *)

Example splitlines_examples :
  splitlines (lit "a" ++ [LF; LF]) = [lit "a"; []]
  ∧ splitlines [LF] = [[]] ∧ splitlines [] = []
  ∧ splitlines (lit "a" ++ [CR; LF; CR] ++ lit "b") = [lit "a"; []; lit "b"]
  ∧ splitlines (lit "a" ++ [chr 12] ++ lit "b" ++ [chr 28] ++ lit "c" ++ [chr 31] ++ lit "d")
    = [lit "a"; lit "b"; lit "c" ++ [chr 31] ++ lit "d"].
Proof. repeat split; reflexivity. Qed.

Example split_examples :
  split SP [] = [[]] ∧ split SP (lit " a  b ") = [[]; lit "a"; []; lit "b"; []].
Proof. split; reflexivity. Qed.

Example replace_examples :
  replace (lit "  ") (lit " ") (lit "     ") = lit "   "
  ∧ replace (lit "aa") (lit "b") (lit "aaa") = lit "ba".
Proof. split; reflexivity. Qed.

Example re_sub_spaces_example : re_sub_spaces (lit "  a   b ") = lit " a b ".
Proof. reflexivity. Qed.

Example strip_example : strip ([SP; chr 31; SP] ++ lit "a" ++ [SP; chr 160]) = lit "a".
Proof. reflexivity. Qed.

Example universal_newlines_example :
  universal_newlines (lit "a" ++ [CR; LF] ++ lit "b" ++ [CR] ++ lit "c" ++ [LF])
  = lit "a" ++ [LF] ++ lit "b" ++ [LF] ++ lit "c" ++ [LF].
Proof. reflexivity. Qed.

Example clean_psds_text_example :
  clean_psds_text (lit "1    0.5  " ++ [LF] ++ lit "  2   0.8" ++ [LF])
  = lit "1 0.5" ++ [LF] ++ lit "2 0.8" ++ [LF].
Proof. vm_compute. reflexivity. Qed.

(** ** The examples of the specification *)

(** The summary with the lines [A 1] to [F 6]: [F] is an integer, the
    others are floats. *)
Example general_output_example :
  match spec_parse_summary (py:=example_builtins) (splitlines example_summary) with
  | inr (name, d) =>
      name = lit "run.cif"
      ∧ d !! lit "general_output" ≫= (λ g, g !! lit "F") = Some (NInt 6%Z)
      ∧ d !! lit "general_output" ≫= (λ g, g !! lit "A")
        = Some (NFloat (py:=example_builtins) 1%Z)
      ∧ d !! lit "general_output" ≫= (λ g, g !! lit "E")
        = Some (NFloat (py:=example_builtins) 5%Z)
      ∧ d !! lit "total_output" = Some ∅
  | inl _ => False
  end.
Proof. vm_compute. repeat split; reflexivity. Qed.

(** The join of the cumulative rows (1, 5), (2, 8) with the rows (1, 1),
    (3, 2). *)
Example join_rows_example :
  join_rows [(Some 1, Some 5); (Some 2, Some 8)]%Z [(Some 1, Some 1); (Some 3, Some 2)]%Z
  = [(Some 1, Some 5, Some 1); (Some 2, Some 8, None); (Some 3, None, Some 2)]%Z.
Proof. vm_compute. reflexivity. Qed.

(** Cleaning a double-spaced PSD file rewrites it; construction without
    cleaning leaves it as it is. *)
Example init_clean_flag_example :
  let w := world_of [("Total_psd.txt"%string, lit "d  dV" ++ [LF] ++ lit "1  1" ++ [LF])] in
  files (init (py:=example_builtins) (pl:=example_reader) true w).1
    !! "Total_psd.txt"%string
  = Some (lit "d dV" ++ [LF] ++ lit "1 1" ++ [LF])
  ∧ (init (py:=example_builtins) (pl:=example_reader) false w).1 = w.
Proof. split; vm_compute; reflexivity. Qed.

(** ** The theorems on examples *)

Lemma parse_summary_schema_witness :
  let w := world_of [("summary.dat"%string, example_summary)] in
  let lines := splitlines (universal_newlines example_summary) in
  ∃ r, parse_summary (py:=example_builtins) (registry_of w) w = (w, r)
    ∧ r = spec_parse_summary (py:=example_builtins) lines
    ∧ (∀ name d, r = inr (name, d) →
         lines !! 0 = Some name
         ∧ ∃ g t n,
             d !! lit "general_output" = Some g
             ∧ d !! lit "total_output" = Some t
             ∧ d !! lit "network_accessible_output" = Some n
             ∧ (∀ s, is_Some (d !! s) →
                     s = lit "general_output" ∨ s = lit "total_output"
                     ∨ s = lit "network_accessible_output")
             ∧ section_of general_lines (λ i, i =? 6) lines g
             ∧ section_of total_lines (λ _, false) lines t
             ∧ section_of network_lines (λ _, false) lines n)
    ∧ ((∃ name d, r = inr (name, d))
       ↔ lines ≠ []
         ∧ ∀ i line, lines !! i = Some line →
             general_lines i ∨ total_lines i ∨ network_lines i →
             ∃ k v, reads_value (py:=example_builtins) (i =? 6) line k v)
    ∧ (∀ e, r = inl e → e = IndexError ∨ e = ValueError).
Proof.
  intros w lines.
  apply (parse_summary_schema (py:=example_builtins) (registry_of w) w
           "summary.dat" example_summary); vm_compute; reflexivity.
Defined.

Lemma parse_psds_full_join_witness :
  let w := world_of [("Total_psd_cumulative.txt"%string, example_psd_cum);
                     ("Total_psd.txt"%string, example_psd)] in
  let rc : list (option Z * option Z) := [(Some 1, Some 5); (Some 2, Some 8)]%Z in
  let rd : list (option Z * option Z) := [(Some 1, Some 1); (Some 3, Some 2)]%Z in
  ∃ tab,
    parse_psds (pl:=example_reader) (registry_of w) w = (w, inr tab)
    ∧ columns tab = ["d"; "Volume Fraction"; "Derivative_dist"]%string
    ∧ (∀ d, d ∈ key_of <$> rows tab ↔ d ∈ fst <$> rc ∨ d ∈ fst <$> rd)
    ∧ (∀ row, row ∈ rows tab →
         (key_of row ∉ fst <$> rd → row.2 = None)
         ∧ (key_of row ∉ fst <$> rc → row.1.2 = None))
    ∧ (∀ d vc vd, (Some d, vc) ∈ rc → (Some d, vd) ∈ rd →
                  (Some d, vc, vd) ∈ rows tab)
    ∧ (∀ row, row ∈ rows tab ↔
         (∃ d vc vd, (Some d, vc) ∈ rc ∧ (Some d, vd) ∈ rd ∧ row = (Some d, vc, vd))
         ∨ (∃ k vc, (k, vc) ∈ rc ∧ (∀ d, k = Some d → Some d ∉ fst <$> rd)
                    ∧ row = (k, vc, None))
         ∨ (∃ k vd, (k, vd) ∈ rd ∧ (∀ d, k = Some d → Some d ∉ fst <$> rc)
                    ∧ row = (k, None, vd)))
    ∧ (NoDup (fst <$> rc) → NoDup (fst <$> rd) →
       (None ∉ fst <$> rc) ∨ (None ∉ fst <$> rd) →
       NoDup (key_of <$> rows tab)).
Proof.
  intros w rc rd.
  apply (parse_psds_full_join (pl:=example_reader) (registry_of w) w
           "Total_psd_cumulative.txt" "Total_psd.txt" example_psd_cum example_psd);
    vm_compute; reflexivity.
Defined.

Lemma init_absent_files_witness :
  let w := world_of [("probe_occupiable_volume.xyz"%string, example_occup_vol)] in
  ∃ r, (init (py:=example_builtins) (pl:=example_reader) true w).2 = inr r
       ∧ occup_vol r
         = mkDataFrame ["Particle"; "x"; "y"; "z"]%string
             [[lit "Na"; lit "1.0"; lit "2.0"; lit "3.0"]]
       ∧ psd r = empty_frame ∧ summary r = ∅ ∧ input_file_name r = [].
Proof.
  intros w.
  apply (proj2 (proj2 (init_absent_files (py:=example_builtins) (pl:=example_reader) true w))
           example_occup_vol).
  vm_compute. reflexivity.
Defined.

Lemma clean_summary_comma_guard_witness :
  let w := world_of [("summary.dat"%string, lit "A,1" ++ [LF] ++ lit "B  : 2" ++ [LF])] in
  clean_summary (registry_of w) w = (w, inr tt).
Proof.
  intros w.
  apply (clean_summary_comma_guard (registry_of w) w "summary.dat"
           (lit "A,1" ++ [LF] ++ lit "B  : 2" ++ [LF])).
  - vm_compute. reflexivity.
  - vm_compute. reflexivity.
  - apply (bool_decide_unpack _). vm_compute. exact I.
Defined.

Lemma cleaning_twice_witness :
  let text := example_occup_vol in
  clean_occup_vol_text (universal_newlines (clean_occup_vol_text text))
  = clean_occup_vol_text text.
Proof.
  intros text.
  apply (proj2 (proj2 (cleaning_twice example_occup_vol))).
  vm_compute. intros l [= <-]. exists (chr 78).
  split; [apply list_elem_of_here|reflexivity].
Defined.

Lemma clean_occup_vol_line_by_line_witness :
  let text := lit "Na  1 2 3 " ++ [LF] ++ lit " K 4   5 6" in
  clean_occup_vol_text (text ++ [LF]) = spec_normalise_whitespace text
  ∧ clean_occup_vol_text text = spec_normalise_whitespace text.
Proof.
  intros text.
  pose proof (clean_occup_vol_line_by_line text) as H. cbv zeta in H.
  assert (universal_newlines text = text) as E by (vm_compute; reflexivity).
  rewrite E in H. destruct H as (_ & _ & H).
  assert (∀ c, c ∈ text → is_linebreak c = true → c = LF) as Hlf.
  { apply (proj1 (Forall_forall (λ c, is_linebreak c = true → c = LF) text)).
    apply (bool_decide_unpack _). vm_compute. exact I. }
  destruct (H Hlf) as [H1 H2].
  split; [exact H1|]. apply H2. vm_compute. discriminate.
Defined.

Lemma clean_summary_keeps_lines_witness :
  let raw := lit "run.cif" ++ [LF] ++ lit "V_total :  5" ++ [LF; LF] ++ lit "S _A  2" in
  let w := world_of [("summary.dat"%string, raw)] in
  ∃ out w',
    clean_summary (registry_of w) w = (w', inr tt)
    ∧ files w' !! "summary.dat"%string = Some out
    ∧ splitlines (universal_newlines out)
      = (λ l, cleaned_line (summary_prepare l)) <$> splitlines (universal_newlines raw)
    ∧ ∀ i l, splitlines (universal_newlines raw) !! i = Some l →
             strip (summary_prepare l) = [] →
             splitlines (universal_newlines out) !! i = Some [].
Proof.
  intros raw w.
  apply (clean_summary_keeps_lines (registry_of w) w "summary.dat" raw).
  - vm_compute. reflexivity.
  - vm_compute. reflexivity.
  - apply (bool_decide_unpack _). vm_compute. exact I.
  - vm_compute. intros l [= <-]. discriminate.
Defined.


(** ** Where the claims as stated fail *)

(** C4 as stated says that a line whose token count is neither 2 nor 3 is
    logged; a line of one token is not. *)
Lemma one_token_line_is_not_logged :
  let line := lit "PoreBlazer" in
  let w := world_of [] in
  length (split SP (strip line)) ≠ 2
  ∧ length (split SP (strip line)) ≠ 3
  ∧ stdout (summary_line line w).1 ≠ stdout w ++ [lit "error"].
Proof. vm_compute. repeat split; discriminate. Qed.

(** C5 as stated says that the occupied-volume cleaning is idempotent; a
    file that ends with a blank line loses one more line feed the second
    time. *)
Lemma clean_occup_vol_not_idempotent :
  let text := universal_newlines (lit "Na 1 2 3" ++ [LF; LF; LF]) in
  clean_occup_vol_text (universal_newlines (clean_occup_vol_text text))
  ≠ clean_occup_vol_text text.
Proof. vm_compute. discriminate. Qed.


(** C7 as stated also says that the parsing after the cleaning raises on
    such a line; a blank last line is not written back, so that the
    parsing after the cleaning returns where the parsing of the file as
    it was raises. *)
Example blank_last_line_is_dropped_before_parsing :
  let w := world_of [("summary.dat"%string, lit "run.cif" ++ [LF; LF])] in
  match (init (py:=example_builtins) (pl:=example_reader) true w).2 with
  | inr r => input_file_name r = lit "run.cif"
  | inl _ => False
  end
  ∧ (init (py:=example_builtins) (pl:=example_reader) false w).2 = inl IndexError.
Proof. split; vm_compute; reflexivity. Qed.

(** C9 as stated says that nothing changes but the spaces within the
    lines; the line feed that ends the file is dropped, and with it a
    blank last line. *)
Lemma clean_occup_vol_drops_final_line_feed :
  let text := universal_newlines (lit "Na 1 2 3" ++ [LF; LF]) in
  clean_occup_vol_text text ≠ spec_normalise_whitespace text
  ∧ length (splitlines (clean_occup_vol_text text)) ≠ length (splitlines text).
Proof. vm_compute. split; discriminate. Qed.

(** C10 as stated says that the cleaned summary has one line for every
    line of the file; a blank last line is lost. *)
Lemma clean_summary_loses_blank_last_line :
  let raw := lit "run.cif" ++ [LF] ++ lit "A 1" ++ [LF; LF] in
  let w := world_of [("summary.dat"%string, raw)] in
  let w' := (clean_summary (registry_of w) w).1 in
  (COMMA ∉ raw)
  ∧ ((λ out, length (splitlines (universal_newlines out)))
       <$> (files w' !! "summary.dat"%string))
    ≠ Some (length (splitlines (universal_newlines raw))).
Proof.
  split.
  - apply (bool_decide_unpack _). vm_compute. exact I.
  - vm_compute. discriminate.
Qed.

(** ** The further theorems on examples *)

Lemma clean_summary_output_characters_witness :
  let raw := lit "run.cif" ++ [LF] ++ lit "V total :  5" ++ [CR; LF] ++ lit "S _A  2" in
  let w := world_of [("summary.dat"%string, raw)] in
  ∃ out, files (clean_summary (registry_of w) w).1 !! "summary.dat"%string = Some out
    ∧ (COLON ∉ out) ∧ (COMMA ∉ out) ∧ (CR ∉ out)
    ∧ ∀ c, c ∈ out → c ∈ raw ∨ c = UNDERSCORE ∨ c = LF.
Proof.
  intros raw w.
  apply (clean_summary_output_characters (registry_of w) w "summary.dat" raw).
  - vm_compute. reflexivity.
  - vm_compute. reflexivity.
  - apply (bool_decide_unpack _). vm_compute. exact I.
Defined.

Lemma clean_summary_error_log_witness :
  let raw := lit "run.cif" ++ [LF] ++ lit "A 1" ++ [LF] ++ lit "Volume of the cell 5" in
  let w := world_of [("summary.dat"%string, raw)] in
  stdout (clean_summary (registry_of w) w).1
  = stdout w
    ++ replicate
         (length (filter (λ l, 3 < length (split SP (strip l)))
                    (splitlines (summary_prepare (universal_newlines raw)))))
         (lit "error").
Proof.
  intros raw w.
  apply (clean_summary_error_log (registry_of w) w "summary.dat" raw).
  - vm_compute. reflexivity.
  - vm_compute. reflexivity.
  - apply (bool_decide_unpack _). vm_compute. exact I.
Defined.

Lemma summary_line_gives_two_tokens_witness :
  ∃ l', (summary_line (lit " Volume total 5 ") (world_of [])).2 = inr l'
        ∧ split SP l' = [lit "Volume" ++ [UNDERSCORE] ++ lit "total"; lit "5"].
Proof.
  apply (proj2 (summary_line_gives_two_tokens
                  (lit " Volume total 5 ") (world_of []))
           (lit "Volume") (lit "total") (lit "5")).
  vm_compute. reflexivity.
Defined.

Lemma dict_comp_last_wins_witness :
  let items := [(0, lit "A 1"); (1, lit "B 7"); (2, lit "A 2")] in
  let d' : gmap str (number (py:=example_builtins)) :=
    <[lit "A" := NFloat (py:=example_builtins) 2%Z]>
      (<[lit "B" := NFloat (py:=example_builtins) 7%Z]>
         (<[lit "A" := NFloat (py:=example_builtins) 1%Z]> ∅)) in
  dict_comp (py:=example_builtins) float_value (λ _, true) items ∅ = inr d'
  ∧ ∃ v, float_value (py:=example_builtins) 2 (lit "A 2") = inr v ∧ d' !! lit "A" = Some v.
Proof.
  intros items d'.
  assert (dict_comp (py:=example_builtins) float_value (λ _, true) items ∅ = inr d')
    as H by (vm_compute; reflexivity).
  split; [exact H|].
  apply (proj1 (dict_comp_last_wins (py:=example_builtins) float_value (λ _, true)
                  items ∅ d' (lit "A") H)
           [(0, lit "A 1"); (1, lit "B 7")] 2 (lit "A 2") []).
  - reflexivity.
  - reflexivity.
  - reflexivity.
  - intros j l Hj. by apply elem_of_nil in Hj.
Defined.

Lemma parse_summary_ignores_separators_witness :
  let lines := lit <$> ["run.cif"; "A 1"; "B 2"; "C 3"; "D 4"; "E 5"; "F 6";
                        "Total"; "T 1"]%string in
  parse_summary_lines (py:=example_builtins) (<[7 := lit "- - - - -"]> lines)
  = parse_summary_lines (py:=example_builtins) lines.
Proof.
  intros lines.
  apply (parse_summary_ignores_separators (py:=example_builtins) lines 7).
  left. reflexivity.
Defined.

Lemma parse_summary_value_types_witness :
  match parse_summary_lines (py:=example_builtins)
          (splitlines (universal_newlines example_summary)) with
  | inr (name, d) =>
      ∃ g t n, d = summary_dict g t n
        ∧ (∀ k v, t !! k = Some v → ∃ x, v = NFloat x)
        ∧ (∀ k v, n !! k = Some v → ∃ x, v = NFloat x)
        ∧ (∀ k v, g !! k = Some v →
             (∃ x, v = NFloat x)
             ∨ (∃ z line, v = NInt z
                  ∧ splitlines (universal_newlines example_summary) !! 6 = Some line
                  ∧ split SP line !! 0 = Some k))
  | inl _ => False
  end.
Proof.
  assert (match parse_summary_lines (py:=example_builtins)
                 (splitlines (universal_newlines example_summary)) with
          | inl _ => False
          | inr _ => True
          end) as Hok by (vm_compute; exact I).
  destruct (parse_summary_lines (py:=example_builtins)
              (splitlines (universal_newlines example_summary)))
    as [e|[name d]] eqn:E.
  - destruct Hok.
  - apply (parse_summary_value_types (py:=example_builtins) _ name d E).
Defined.

Lemma parse_summary_short_file_witness :
  let w := world_of [("summary.dat"%string, lit "run.cif")] in
  let lines := splitlines (universal_newlines (lit "run.cif")) in
  (lit "run.cif" = [] →
   parse_summary (py:=example_builtins) (registry_of w) w = (w, inl IndexError))
  ∧ (∀ name d, parse_summary (py:=example_builtins) (registry_of w) w
               = (w, inr (name, d)) →
       lines !! 0 = Some name
       ∧ ∃ g t n, d = summary_dict g t n
           ∧ (length lines ≤ 1 → g = ∅)
           ∧ (length lines ≤ 8 → t = ∅)
           ∧ (length lines ≤ 20 → n = ∅)).
Proof.
  intros w lines.
  apply (parse_summary_short_file (py:=example_builtins) (registry_of w) w
           "summary.dat" (lit "run.cif")); vm_compute; reflexivity.
Defined.

Lemma clean_psds_keeps_skipped_lines_witness :
  let raw := lit "d  dV" ++ [LF] ++ lit "1  1" ++ [LF] in
  let w := world_of [("Total_psd.txt"%string, raw)] in
  ∃ out, files (clean_psds "Total_psd.txt" w).1 !! "Total_psd.txt"%string = Some out
    ∧ filter (λ c, c ≠ SP) (skip_lines 1 out)
      = filter (λ c, c ≠ SP) (skip_lines 1 raw).
Proof.
  intros raw w. apply (clean_psds_keeps_skipped_lines "Total_psd.txt" raw 1 w).
  - vm_compute. reflexivity.
  - apply (bool_decide_unpack _). vm_compute. exact I.
Defined.
